(** * phonemizer/punctuation.py: punctuation preservation and restoration

    A shallow embedding of [phonemizer.punctuation.Punctuation] and the
    verification of its specification.

    Python strings are sequences of Unicode code points: a character is a
    code point ([N]) and a string a list of them.  Operations of the Python
    runtime that may raise ([x[i]], [str.split] on an empty separator,
    [isinstance] guards, [re.compile]) return in the exception monad [exc].

    The call [print("WANAMAAAAAAA")] at the head of [_preserve_line] writes
    to standard output and has no influence on the values returned; standard
    output is not part of the model. *)

From Stdlib Require Import String Ascii.
From Stdlib Require Import List NArith Arith Bool Lia Sorted.
Import ListNotations.

(** ** Characters and strings *)

Definition char := N.
Definition str := list char.

(** [u "abc"] is the Python string ['abc'] (for ASCII literals). *)
Definition u (s : string) : str := map N_of_ascii (list_ascii_of_string s).

Definition chr_eqb (a b : char) : bool := N.eqb a b.

Fixpoint str_eqb (a b : str) : bool :=
  match a, b with
  | [], [] => true
  | x :: a', y :: b' => chr_eqb x y && str_eqb a' b'
  | _, _ => false
  end.

Fixpoint take_while (p : char -> bool) (s : str) : str :=
  match s with
  | c :: s' => if p c then c :: take_while p s' else []
  | [] => []
  end.

Fixpoint drop_while (p : char -> bool) (s : str) : str :=
  match s with
  | c :: s' => if p c then drop_while p s' else s
  | [] => []
  end.

(** ** Exceptions *)

Inductive exn : Type :=
| ValueError (msg : string)
| IndexError
| ReError.

Inductive exc (A : Type) : Type :=
| Ok (a : A)
| Raise (e : exn).
Arguments Ok {A} a.
Arguments Raise {A} e.

Definition bind {A B} (m : exc A) (f : A -> exc B) : exc B :=
  match m with
  | Ok a => f a
  | Raise e => Raise e
  end.

Notation "x <- m ;; k" := (bind m (fun x => k))
  (at level 61, m at next level, right associativity).
Notation "' p <- m ;; k" := (bind m (fun x => match x with p => k end))
  (at level 61, p pattern, m at next level, right associativity).

Fixpoint mapM {A B} (f : A -> exc B) (l : list A) : exc (list B) :=
  match l with
  | [] => Ok []
  | a :: l' => b <- f a ;; bs <- mapM f l' ;; Ok (b :: bs)
  end.

Fixpoint foldM {A S} (f : S -> A -> exc S) (s : S) (l : list A) : exc S :=
  match l with
  | [] => Ok s
  | a :: l' => s' <- f s a ;; foldM f s' l'
  end.

(** ** Sequence primitives of the Python runtime *)

(** [seq[i]] for [i >= 0]. *)
Definition getitem {A} (l : list A) (i : nat) : exc A :=
  match nth_error l i with
  | Some a => Ok a
  | None => Raise IndexError
  end.

(** [seq[-1]]. *)
Definition getlast {A} (l : list A) : exc A :=
  match rev l with
  | a :: _ => Ok a
  | [] => Raise IndexError
  end.

(** [s.startswith(p)] and [s.endswith(p)]. *)
Fixpoint startswith (s p : str) {struct p} : bool :=
  match p with
  | [] => true
  | x :: p' =>
      match s with
      | y :: s' => chr_eqb x y && startswith s' p'
      | [] => false
      end
  end.

Definition endswith (s p : str) : bool := startswith (rev s) (rev p).

(** [sep.join(l)]. *)
Fixpoint join (sep : str) (l : list str) : str :=
  match l with
  | [] => []
  | [x] => x
  | x :: l' => x ++ sep ++ join sep l'
  end.

(** [s.split(sep)]: the pieces between the non-overlapping occurrences of
    [sep], found left to right; [ValueError] on an empty separator. *)
Fixpoint split_from (fuel : nat) (sep s : str) : list str :=
  match fuel with
  | O => [s]
  | S fuel' =>
      if startswith s sep then [] :: split_from fuel' sep (skipn (length sep) s)
      else match s with
           | [] => [[]]
           | c :: s' =>
               match split_from fuel' sep s' with
               | p :: ps => (c :: p) :: ps
               | [] => [[c]]
               end
           end
  end.

Definition split (s sep : str) : exc (list str) :=
  match sep with
  | [] => Raise (ValueError "empty separator")
  | _ :: _ => Ok (split_from (S (length s)) sep s)
  end.

(** ** The [re] module

    A pattern is kept as its syntax tree.  Only the constructs that occur in
    the patterns of this module are represented: one character of a class
    ([\s], [\d], a literal, a set [[...]]), concatenation and the greedy
    repetitions.  The capturing group of the mark pattern is not recorded,
    since only group 0 (the whole match) is ever read. *)

Inductive regex : Type :=
| Cls (p : char -> bool)
| Seq (r1 r2 : regex)
| Star (r : regex).

Definition Plus (r : regex) : regex := Seq r (Star r).

(** The backtracking matcher, in continuation-passing style: [bt r s k]
    matches [r] at the head of [s] and hands the remaining input to [k];
    when [k] fails the last choice is undone.  A repetition tries one more
    iteration first (greedy) and stops iterating on an empty iteration. *)
Fixpoint star_loop {R} (body : str -> (str -> option R) -> option R)
    (n : nat) (s : str) (k : str -> option R) : option R :=
  match n with
  | O => k s
  | S n' =>
      match body s (fun s' => if length s' <? length s
                              then star_loop body n' s' k else None) with
      | Some x => Some x
      | None => k s
      end
  end.

Fixpoint bt {R} (r : regex) (s : str) (k : str -> option R) : option R :=
  match r with
  | Cls p => match s with
             | c :: s' => if p c then k s' else None
             | [] => None
             end
  | Seq r1 r2 => bt r1 s (fun s' => bt r2 s' k)
  | Star r' => star_loop (bt r') (S (length s)) s k
  end.

(** [re_match r s]: the input left after the match of [r] at the head of
    [s], if there is one. *)
Definition re_match (r : regex) (s : str) : option str := bt r s (@Some str).

(** A scan of the subject, as [finditer] and [sub] perform it: the matches
    are searched left to right, each search starting where the previous
    match ended.  The patterns of this module match at least one
    character: an empty match is not reported. *)
Inductive piece : Type :=
| Lit (c : char)      (* a character outside every match *)
| Hit (g : str).      (* a match, with its text *)

Fixpoint scan (fuel : nat) (r : regex) (s : str) : list piece :=
  match fuel with
  | O => []
  | S fuel' =>
      match s with
      | [] => []
      | c :: s' =>
          match re_match r s with
          | Some rest =>
              if length rest <? length s
              then Hit (firstn (length s - length rest) s) :: scan fuel' r rest
              else Lit c :: scan fuel' r s'
          | None => Lit c :: scan fuel' r s'
          end
      end
  end.

Definition pieces (r : regex) (s : str) : list piece := scan (length s) r s.

(** Match objects: [m.start()], [m.end()], [m.group()]. *)
Record Match : Type := mkMatch { m_start : nat; m_end : nat; m_group : str }.

Fixpoint matches_from (pos : nat) (ps : list piece) : list Match :=
  match ps with
  | [] => []
  | Lit _ :: ps' => matches_from (S pos) ps'
  | Hit g :: ps' =>
      mkMatch pos (pos + length g) g :: matches_from (pos + length g) ps'
  end.

Definition finditer (r : regex) (s : str) : list Match :=
  matches_from 0 (pieces r s).

(** Match objects define no [__eq__]: [m == m'] is identity.  The matches of
    one scan have pairwise distinct spans (see [match_is_nth]), so identity
    is decided on the span. *)
Definition match_is (m m' : Match) : bool :=
  (m_start m =? m_start m') && (m_end m =? m_end m').

(** [re.sub(r, repl, s)] with a string [repl] free of backslashes. *)
Definition render_str (repl : str) (p : piece) : str :=
  match p with
  | Lit c => [c]
  | Hit _ => repl
  end.

Definition re_sub (r : regex) (repl : str) (s : str) : str :=
  concat (map (render_str repl) (pieces r s)).

(** [re.sub(r, f, s)] with a callable [f], applied to each match. *)
Definition render_fn (f : Match -> exc str) (pm : piece * nat) : exc str :=
  match pm with
  | (Lit c, _) => Ok [c]
  | (Hit g, pos) => f (mkMatch pos (pos + length g) g)
  end.

Fixpoint positions (pos : nat) (ps : list piece) : list (piece * nat) :=
  match ps with
  | [] => []
  | Lit c :: ps' => (Lit c, pos) :: positions (S pos) ps'
  | Hit g :: ps' => (Hit g, pos) :: positions (pos + length g) ps'
  end.

Definition re_sub_fn (r : regex) (f : Match -> exc str) (s : str) : exc str :=
  parts <- mapM (render_fn f) (positions 0 (pieces r s)) ;;
  Ok (concat parts).

(** ** Code points named in the source *)

Definition SPACE : char := 32%N.
Definition HASH : char := 35%N.       (* '#' *)
Definition COMMA : char := 44%N.
Definition DOT : char := 46%N.
Definition SECTION_SIGN : char := 167%N.  (* U+00A7 *)

(** [_DEFAULT_MARKS]: [; : , . ! ?], inverted exclamation and question
    marks, em dash, ellipsis, the ASCII double quote, the two guillemets and
    the two curly double quotes. *)
Definition _DEFAULT_MARKS : str :=
  [59; 58; 44; 46; 33; 63; 161; 191; 8212; 8230; 34; 171; 187; 8220; 8221]%N.

(** [Punctuation.default_marks] *)
Definition default_marks : str := _DEFAULT_MARKS.

(** Values that may be handed to the [marks] setter. *)
Inductive pyvalue : Type :=
| PyStr (s : str)
| PyNone
| PyInt (n : N)
| PyList (l : list str).

(** [Union[str, List[str]]]. *)
Inductive text : Type :=
| TStr (s : str)
| TList (l : list str).

(** Modelled from the spec: [phonemizer.utils.str2list] is not part of the
    sources at hand; a single line is treated as a one-element sequence and
    a sequence of lines is passed through. *)
Definition str2list (t : text) : list str :=
  match t with
  | TStr s => [s]
  | TList l => l
  end.

(** The position tags ["B"], ["E"], ["I"], ["A"]. *)
Inductive Position : Type := Pos_B | Pos_E | Pos_I | Pos_A.

(** [_MarkIndex = namedtuple("_mark_index", ["index", "mark", "position"])] *)
Record _MarkIndex : Type :=
  MarkIndex { index : nat; mark : str; position : Position }.

(** The state of a [Punctuation] object; the property [marks] reads the
    field [_marks]. *)
Record Punctuation : Type :=
  mkPunctuation { _marks : str; _marks_re : regex }.

Definition nonempty (s : str) : bool :=
  match s with [] => false | _ :: _ => true end.

Definition enumerate {A} (l : list A) : list (nat * A) :=
  combine (seq 0 (length l)) l.

Section Unicode.

(** The character tables of the interpreter: [isspace] is the whitespace
    class, shared by [\s] in a [str] pattern and by [str.strip] and
    [str.rstrip]; [isdigit] is the class [\d] of a [str] pattern (the Unicode
    decimal digits). *)
Variable isspace : char -> bool.
Variable isdigit : char -> bool.

Definition lstrip (s : str) : str := drop_while isspace s.

Definition rstrip (s : str) : str := rev (lstrip (rev s)).

Definition strip (s : str) : str := rstrip (lstrip s).

(** *** [Punctuation.marks] (setter) *)

(** The set [[...]] built from [re.escape(marks)]: every special character
    is escaped, so the set holds exactly the characters of [marks]. *)
Definition in_marks (marks : str) (c : char) : bool :=
  existsb (chr_eqb c) marks.

(** The pattern: a group of optional whitespace, one or more marks and
    optional whitespace, repeated one or more times. *)
Definition marks_pattern (marks : str) : regex :=
  Plus (Seq (Star (Cls isspace))
            (Seq (Plus (Cls (in_marks marks))) (Star (Cls isspace)))).

(** [re.compile] of the mark pattern.  With no mark the set opens on a closing
    bracket, which is then read as a literal, and is never closed: the
    pattern is rejected. *)
Definition compile_marks (marks : str) : exc regex :=
  match marks with
  | [] => Raise ReError
  | _ :: _ => Ok (marks_pattern marks)
  end.

(** ["".join(set(value))] keeps one copy of each character, in an order
    left to the interpreter; the order only reaches the character set of
    the pattern, where it is irrelevant. *)
Definition configured (value : str) : Punctuation :=
  let marks := nodup N.eq_dec value in
  mkPunctuation marks (marks_pattern marks).

Definition set_marks (value : pyvalue) : exc Punctuation :=
  match value with
  | PyStr v =>
      let marks := nodup N.eq_dec v in
      re <- compile_marks marks ;;
      Ok (mkPunctuation marks re)
  | _ => Raise (ValueError "punctuation marks must be defined as a string")
  end.

(** [Punctuation.__init__] *)
Definition init (marks : pyvalue) : exc Punctuation := set_marks marks.

(** *** [Punctuation.remove] *)

Definition remove_aux (self : Punctuation) (t : str) : str :=
  strip (re_sub (_marks_re self) [SPACE] t).

Definition remove (self : Punctuation) (t : text) : text :=
  match t with
  | TStr s => TStr (remove_aux self s)
  | TList l => TList (map (remove_aux self) l)
  end.

(** *** [Punctuation._preserve_line] *)

(** [\d[,]\d] and [\d[\.]\d] *)
Definition digit_sep_digit (sep : char) : regex :=
  Seq (Cls isdigit) (Seq (Cls (chr_eqb sep)) (Cls isdigit)).

(** [lambda x: x[0][0] + placeholder + x[0][2]] *)
Definition protect (placeholder : char) (x : Match) : exc str :=
  c0 <- getitem (m_group x) 0 ;;
  c2 <- getitem (m_group x) 2 ;;
  Ok ([c0] ++ [placeholder] ++ [c2]).

(** The two substitutions that open [_preserve_line]. *)
Definition escape_digits (line : str) : exc str :=
  line <- re_sub_fn (digit_sep_digit COMMA) (protect SECTION_SIGN) line ;;
  re_sub_fn (digit_sep_digit DOT) (protect HASH) line.

(** The two substitutions applied to a chunk before it is returned. *)
Definition unescape (element : str) : str :=
  let element := re_sub (Cls (chr_eqb SECTION_SIGN)) [COMMA] element in
  re_sub (Cls (chr_eqb HASH)) [DOT] element.

(** The body of the loop that classifies one match. *)
Definition classify (line : str) (matches : list Match) (num : nat)
    (match_ : Match) : exc _MarkIndex :=
  first <- getitem matches 0 ;;
  if match_is match_ first && startswith line (m_group match_)
  then Ok (MarkIndex num (m_group match_) Pos_B)
  else
    last <- getlast matches ;;
    if match_is match_ last && endswith line (m_group match_)
    then Ok (MarkIndex num (m_group match_) Pos_E)
    else Ok (MarkIndex num (m_group match_) Pos_I).

(** The body of the loop that cuts the line at one mark; the state is
    [(preserved_line, line)]. *)
Definition cut (st : list str * str) (m : _MarkIndex) : exc (list str * str) :=
  let '(preserved_line, line) := st in
  parts <- split line (mark m) ;;
  prefix <- getitem parts 0 ;;
  let suffix := join (mark m) (skipn 1 parts) in
  Ok (preserved_line ++ [prefix], suffix).

Definition _preserve_line (self : Punctuation) (line : str) (num : nat)
  : exc (list str * list _MarkIndex) :=
  line <- escape_digits line ;;
  let matches := finditer (_marks_re self) line in
  match matches with
  | [] => Ok ([unescape line], [])
  | _ :: _ =>
      alone <- (if length matches =? 1
                then m0 <- getitem matches 0 ;; Ok (str_eqb (m_group m0) line)
                else Ok false) ;;
      if alone then Ok ([], [MarkIndex num line Pos_A])
      else
        marks <- mapM (classify line matches num) matches ;;
        st <- foldM cut ([], line) marks ;;
        let '(preserved_line, line) := st in
        Ok (map unescape (preserved_line ++ [line]), marks)
  end.

(** *** [Punctuation.preserve] *)

Definition preserve_step (self : Punctuation)
    (acc : list str * list _MarkIndex) (item : nat * str)
  : exc (list str * list _MarkIndex) :=
  let '(preserved_text, preserved_marks) := acc in
  let '(num, line) := item in
  r <- _preserve_line self line num ;;
  let '(line, marks) := r in
  Ok (preserved_text ++ line, preserved_marks ++ marks).

Definition preserve (self : Punctuation) (t : text)
  : exc (list str * list _MarkIndex) :=
  let text := str2list t in
  acc <- foldM (preserve_step self) ([], []) (enumerate text) ;;
  let '(preserved_text, preserved_marks) := acc in
  Ok (filter nonempty preserved_text, preserved_marks).

(** *** [Punctuation.restore] *)

(** [_restore_current]; [cls_restore_aux] is [cls._restore_aux].  The
    assignment [text[0] = text[0].rstrip()] updates the list in place: the
    trimmed chunk is what every later use of [text] sees, the recursive call
    of the ["A"] branch included.  Every other call is handed a list built
    anew, so the values returned are those of this functional reading; that
    the list of the caller of [restore] is updated as well is not
    recorded. *)
Definition _restore_current
    (cls_restore_aux : list str -> list _MarkIndex -> nat -> exc (list str))
    (current : _MarkIndex) (text : list str) (marks : list _MarkIndex)
    (num : nat) : exc (list str) :=
  t0 <- getitem text 0 ;;
  let text := rstrip t0 :: skipn 1 text in
  t0 <- getitem text 0 ;;
  match position current with
  | Pos_B =>
      cls_restore_aux ((mark current ++ t0) :: skipn 1 text) (skipn 1 marks) num
  | Pos_E =>
      rest <- cls_restore_aux (skipn 1 text) (skipn 1 marks) (num + 1) ;;
      Ok ((t0 ++ mark current) :: rest)
  | Pos_A =>
      rest <- cls_restore_aux text (skipn 1 marks) (num + 1) ;;
      Ok (mark current :: rest)
  | Pos_I =>
      if length text =? 1
      then cls_restore_aux [t0 ++ mark current] (skipn 1 marks) num
      else
        t1 <- getitem text 1 ;;
        cls_restore_aux ((t0 ++ mark current ++ t1) :: skipn 2 text)
                        (skipn 1 marks) num
  end.

Fixpoint _restore_aux (text : list str) (marks : list _MarkIndex) (num : nat)
    {struct marks} : exc (list str) :=
  match marks with
  | [] => Ok text
  | current :: marks' =>
      (fix walk (text : list str) (num : nat) {struct text} : exc (list str) :=
         match text with
         | [] => Ok [concat (map mark (current :: marks'))]
         | t0 :: text' =>
             if index current =? num
             then _restore_current _restore_aux current text (current :: marks') num
             else
               rest <- walk text' (num + 1) ;;
               Ok (t0 :: rest)
         end) text num
  end.

Definition restore (t : text) (marks : list _MarkIndex) : exc (list str) :=
  _restore_aux (str2list t) marks 0.

End Unicode.

(** ** The character tables on the code points used in the examples *)

(** The whitespace class of CPython ([str.isspace]). *)
Definition py_isspace (c : char) : bool :=
  ((9 <=? c) && (c <=? 13) || (28 <=? c) && (c <=? 32) || (c =? 133)
   || (c =? 160) || (c =? 5760) || (8192 <=? c) && (c <=? 8202)
   || (c =? 8232) || (c =? 8233) || (c =? 8239) || (c =? 8287)
   || (c =? 12288))%N.

(** The decimal digits of the ASCII range; the examples below hold no other
    digit, and on their characters this is the class [\d]. *)
Definition ascii_isdigit (c : char) : bool := ((48 <=? c) && (c <=? 57))%N.

Definition default_punctuation : Punctuation :=
  configured py_isspace _DEFAULT_MARKS.

(** ** Reference semantics used in the proofs *)

(** What the greedy repetition of a character class computes: the longest
    run first, then one character less at a time. *)
Fixpoint greedy {R} (p : char -> bool) (s : str) (k : str -> option R)
  : option R :=
  match s with
  | c :: s' =>
      if p c
      then match greedy p s' k with
           | Some x => Some x
           | None => k s
           end
      else k s
  | [] => k []
  end.

(** A mark unit starts where the run of whitespace and mark characters
    ahead holds at least one mark, and spans that whole run. *)
Definition mark_or_space (isspace : char -> bool) (marks : str) (c : char)
  : bool := isspace c || in_marks marks c.

Definition has_mark (marks : str) (g : str) : bool :=
  existsb (in_marks marks) g.

Definition hit (isspace : char -> bool) (marks : str) (s : str) : bool :=
  has_mark marks (take_while (mark_or_space isspace marks) s).

Definition no_head (p : char -> bool) (s : str) : Prop :=
  match s with
  | c :: _ => p c = false
  | [] => True
  end.

(** The strings on which [remove] has nothing left to do: every mark
    character is a space standing alone between characters outside the run
    class (or at an end of the string). *)
Definition outside (p : char -> bool) (o : option char) : Prop :=
  match o with
  | Some c => p c = false
  | None => True
  end.

Fixpoint settled (isspace : char -> bool) (marks : str) (prev : option char)
    (s : str) : Prop :=
  match s with
  | [] => True
  | c :: s' =>
      (in_marks marks c = true ->
       c = SPACE /\ outside (mark_or_space isspace marks) prev
       /\ outside (mark_or_space isspace marks) (hd_error s'))
      /\ settled isspace marks (Some c) s'
  end.

(** What one digit-protection substitution may do to a character: keep it,
    or turn the separator into its placeholder. *)
Definition protected_as (sep placeholder : char) (a b : char) : Prop :=
  a = b \/ (a = sep /\ b = placeholder).

(** The same for the two substitutions in sequence. *)
Definition escaped_as (a b : char) : Prop :=
  a = b \/ (a = COMMA /\ b = SECTION_SIGN) \/ (a = DOT /\ b = HASH).

(** Where the pattern of a digit, a separator and a digit matches. *)
Definition digit_triple (isdigit : char -> bool) (sep : char) (s : str)
  : bool :=
  match s with
  | d1 :: x :: d2 :: _ => isdigit d1 && chr_eqb sep x && isdigit d2
  | _ => false
  end.

(** The tag the classification loop gives to a match, [first] and [last]
    being [matches[0]] and [matches[-1]]. *)
Definition tag_of (line : str) (first last m : Match) : Position :=
  if match_is m first && startswith line (m_group m) then Pos_B
  else if match_is m last && endswith line (m_group m) then Pos_E
  else Pos_I.

Definition piece_text (p : piece) : str :=
  match p with
  | Lit c => [c]
  | Hit g => g
  end.

(** The records of a line, from its matches. *)
Definition records_of (line : str) (num : nat) (first last : Match)
    (matches : list Match) : list _MarkIndex :=
  map (fun m => MarkIndex num (m_group m) (tag_of line first last m)) matches.

(** A record moved to another line. *)
Definition reindex (num : nat) (r : _MarkIndex) : _MarkIndex :=
  MarkIndex num (mark r) (position r).

(** The chunks and the records that one line brings to [preserve]. *)
Definition line_chunks (isdigit : char -> bool) (self : Punctuation)
    (line : str) : list str :=
  match _preserve_line isdigit self line 0 with
  | Ok (chunks, _) => chunks
  | Raise _ => []
  end.

Definition line_records (isdigit : char -> bool) (self : Punctuation)
    (item : nat * str) : list _MarkIndex :=
  match _preserve_line isdigit self (snd item) (fst item) with
  | Ok (_, recs) => recs
  | Raise _ => []
  end.

(** The lines of a text, whichever its shape. *)
Definition text_lines (t : text) : list str :=
  match t with
  | TStr s => [s]
  | TList l => l
  end.

(** The texts of the matches of a scan, and the chunks it delimits: the
    text before each match, and the text after the last one; [pre] is the
    text read since the last match. *)
Fixpoint hit_texts (ps : list piece) : list str :=
  match ps with
  | [] => []
  | Lit _ :: ps' => hit_texts ps'
  | Hit g :: ps' => g :: hit_texts ps'
  end.

Fixpoint cut_pieces (pre : str) (ps : list piece) : list str * str :=
  match ps with
  | [] => ([], pre)
  | Lit c :: ps' => cut_pieces (pre ++ [c]) ps'
  | Hit g :: ps' =>
      let '(init, last) := cut_pieces [] ps' in (pre :: init, last)
  end.

(** The same scan, read as the text before the first match and, for each
    match, its text and the text that follows it. *)
Fixpoint segs_of (ps : list piece) : str * list (str * str) :=
  match ps with
  | [] => ([], [])
  | Lit c :: ps' => let '(c0, sg) := segs_of ps' in (c :: c0, sg)
  | Hit g :: ps' => let '(c1, sg) := segs_of ps' in ([], (g, c1) :: sg)
  end.

Definition is_nil {A} (l : list A) : bool :=
  match l with [] => true | _ :: _ => false end.

(** The records of a line, from this reading: [Begin] for a first match with
    no text before it, [End] for a last match with no text after it. *)
Fixpoint seg_records (num : nat) (first : bool) (c0 : str)
    (sg : list (str * str)) : list _MarkIndex :=
  match sg with
  | [] => []
  | (g, c) :: sg' =>
      MarkIndex num g
        (if first && is_nil c0 then Pos_B
         else if is_nil sg' && is_nil c then Pos_E
         else Pos_I)
      :: seg_records num false c0 sg'
  end.

(** The text of a line from its marks and its unescaped chunks. *)
Definition flat_segs (f : str -> str) (sg : list (str * str)) : str :=
  concat (map (fun gc => fst gc ++ f (snd gc)) sg).

(** What the scan of the mark pattern guarantees: a mark unit is a run
    holding a mark, and the text before a unit is not empty (the first one
    apart) and does not end in the run class. *)
Fixpoint tight_segs (isspace : char -> bool) (marks : str)
    (sg : list (str * str)) : Prop :=
  match sg with
  | [] => True
  | (g, c) :: sg' =>
      forallb (mark_or_space isspace marks) g = true /\
      has_mark marks g = true /\
      no_head (mark_or_space isspace marks) c /\
      (sg' <> [] ->
       c <> [] /\ no_head (mark_or_space isspace marks) (rev c)) /\
      tight_segs isspace marks sg'
  end.

(** A line made of one mark unit and nothing else. *)
Definition alone_segs (c0 : str) (sg : list (str * str)) : bool :=
  match c0, sg with
  | [], [(_, [])] => true
  | _, _ => false
  end.

(** What [_preserve_line] returns, from the chunks-and-units reading of the
    escaped line. *)
Definition line_result (num : nat) (el : str) (c0 : str)
    (sg : list (str * str)) : list str * list _MarkIndex :=
  if alone_segs c0 sg then ([], [MarkIndex num el Pos_A])
  else (map unescape (c0 :: map snd sg), seg_records num true c0 sg).

(** The line that [restore] rebuilds from the chunks and the records of a
    line, [h] being what each chunk has become: the chunk that follows a
    leading mark unit is right-trimmed. *)
Definition restored_line (isspace : char -> bool) (h : str -> str)
    (c0 : str) (sg : list (str * str)) : str :=
  match c0, sg with
  | [], (g, c) :: sg' => g ++ rstrip isspace (h c) ++ flat_segs h sg'
  | _, _ => h c0 ++ flat_segs h sg
  end.

(** The character tables under which the placeholders of [_preserve_line]
    and the separators they stand for are not whitespace. *)
Definition separators_visible (isspace : char -> bool) : Prop :=
  isspace COMMA = false /\ isspace DOT = false /\
  isspace SECTION_SIGN = false /\ isspace HASH = false.

(** A text with none of the two placeholders. *)
Definition placeholder_free (s : str) : Prop :=
  ~ In SECTION_SIGN s /\ ~ In HASH s.

(** A line given back by [restore], up to its trailing whitespace. *)
Definition given_back (isspace : char -> bool) (line l : str) : Prop :=
  l = line \/ l = rstrip isspace line.

(** A record moved [k] lines further. *)
Definition shift (k : nat) (r : _MarkIndex) : _MarkIndex :=
  MarkIndex (k + index r) (mark r) (position r).

(** A line read as the text before its first mark unit and, for each mark
    unit, its text and the text that follows it: the line itself, the chunks
    (before the empty ones are dropped), the texts of the mark units, and
    the line with every chunk transformed by [f]. *)
Definition part : Type := (str * list (str * str))%type.

Definition part_text (p : part) : str :=
  fst p ++ flat_segs (fun c => c) (snd p).

Definition part_chunks (p : part) : list str := fst p :: map snd (snd p).

Definition part_marks (p : part) : list str := map fst (snd p).

Definition part_with (f : str -> str) (p : part) : str :=
  f (fst p) ++ flat_segs f (snd p).

(** The transformations of the chunks after which [restore] puts every mark
    unit back where it stood: a chunk becomes a text that is not empty and
    does not end with a whitespace character. *)
Definition keeps_chunks (isspace : char -> bool) (f : str -> str) : Prop :=
  f [] = [] /\
  forall c, c <> [] -> f c <> [] /\ rstrip isspace (f c) = f c.

(** * Verification *)

(** [true = (a <? b)], for lengths. *)
Ltac ltb_holds := symmetry; apply Nat.ltb_lt; cbn [length]; lia.

(** A closed run of the program. *)
Ltac run := vm_compute; reflexivity.

(** ** Lists and strings *)

Lemma take_drop_while (p : char -> bool) (s : str) :
  take_while p s ++ drop_while p s = s.
Proof.
  induction s as [|c s IH]; simpl; [reflexivity|].
  destruct (p c); simpl; [now rewrite IH | reflexivity].
Qed.

Lemma drop_while_length (p : char -> bool) (s : str) :
  length (drop_while p s) <= length s.
Proof.
  induction s as [|c s IH]; simpl; [lia|].
  destruct (p c); simpl; lia.
Qed.

Lemma take_while_firstn (p : char -> bool) (s : str) :
  firstn (length s - length (drop_while p s)) s = take_while p s.
Proof.
  induction s as [|c s IH]; [reflexivity|].
  cbn [take_while drop_while].
  destruct (p c) eqn:Hp.
  - pose proof (drop_while_length p s).
    replace (length (c :: s) - length (drop_while p s))
      with (S (length s - length (drop_while p s))) by (cbn [length]; lia).
    cbn [firstn]. now rewrite IH.
  - now rewrite Nat.sub_diag.
Qed.

Lemma drop_while_head (p : char -> bool) (s : str) :
  match drop_while p s with
  | c :: _ => p c = false
  | [] => True
  end.
Proof.
  induction s as [|c s IH]; simpl; [exact I|].
  destruct (p c) eqn:Hp; [exact IH | exact Hp].
Qed.

Lemma chr_eqb_eq (a b : char) : chr_eqb a b = true <-> a = b.
Proof. apply N.eqb_eq. Qed.

Lemma chr_eqb_refl (a : char) : chr_eqb a a = true.
Proof. apply N.eqb_refl. Qed.

Lemma str_eqb_eq (a b : str) : str_eqb a b = true <-> a = b.
Proof.
  revert b; induction a as [|x a IH]; intros [|y b]; simpl;
    try (split; [discriminate | discriminate]); try tauto.
  rewrite andb_true_iff, chr_eqb_eq, IH.
  split; [intros [-> ->]; reflexivity | intros H; inversion H; auto].
Qed.

(** ** The backtracking matcher *)

Lemma star_cls_greedy {R} (p : char -> bool) (k : str -> option R) :
  forall n s, length s < n -> star_loop (bt (Cls p)) n s k = greedy p s k.
Proof.
  induction n as [|n IH]; intros s Hn; [lia|].
  destruct s as [|c s]; simpl; [reflexivity|].
  destruct (p c); [|reflexivity].
  replace (length s <? S (length s)) with true
    by ltb_holds.
  rewrite IH by (simpl in Hn; lia). reflexivity.
Qed.

Lemma bt_seq {R} (r1 r2 : regex) (s : str) (k : str -> option R) :
  bt (Seq r1 r2) s k = bt r1 s (fun s' => bt r2 s' k).
Proof. reflexivity. Qed.

Lemma bt_cls_cons {R} (p : char -> bool) (c : char) (s : str)
    (k : str -> option R) :
  bt (Cls p) (c :: s) k = if p c then k s else None.
Proof. reflexivity. Qed.

(** The matcher only looks at its continuation through the values the
    continuation returns. *)
Lemma star_loop_ext {R} (body : str -> (str -> option R) -> option R) :
  (forall s k1 k2, (forall t, k1 t = k2 t) -> body s k1 = body s k2) ->
  forall n s k1 k2,
    (forall t, k1 t = k2 t) -> star_loop body n s k1 = star_loop body n s k2.
Proof.
  intros Hbody. induction n as [|n IH]; intros s k1 k2 Hk; cbn [star_loop].
  - apply Hk.
  - rewrite Hk.
    rewrite (Hbody s _ (fun s' => if length s' <? length s
                                  then star_loop body n s' k2 else None)).
    + reflexivity.
    + intros t. destruct (length t <? length s); [now apply IH | reflexivity].
Qed.

Lemma bt_ext {R} (r : regex) :
  forall s (k1 k2 : str -> option R),
    (forall t, k1 t = k2 t) -> bt r s k1 = bt r s k2.
Proof.
  induction r as [p|r1 IH1 r2 IH2|r IH]; intros s k1 k2 Hk; cbn [bt].
  - destruct s as [|c s]; [reflexivity|]. destruct (p c); [apply Hk | reflexivity].
  - apply IH1. intros t. now apply IH2.
  - now apply star_loop_ext.
Qed.

(** The bound on the iterations of a repetition is never reached: any
    bound above the length of the input gives the same result. *)
Lemma star_loop_fuel {R} (r : regex) (k : str -> option R) :
  forall n n' s,
    length s < n -> length s < n' ->
    star_loop (bt r) n s k = star_loop (bt r) n' s k.
Proof.
  induction n as [|n IH]; intros n' s Hn Hn'; [lia|].
  destruct n' as [|n']; [lia|]. cbn [star_loop].
  rewrite (bt_ext r s _ (fun s' => if length s' <? length s
                                   then star_loop (bt r) n' s' k else None)).
  - reflexivity.
  - intros t. destruct (length t <? length s) eqn:E; [|reflexivity].
    apply Nat.ltb_lt in E. apply IH; lia.
Qed.

Lemma bt_star_cls {R} (p : char -> bool) (s : str) (k : str -> option R) :
  bt (Star (Cls p)) s k = greedy p s k.
Proof. cbn [bt]. apply star_cls_greedy. lia. Qed.

(** Once the continuation accepts the longest run, nothing is undone. *)
Lemma greedy_commit {R} (p : char -> bool) (k : str -> option R) (x : R) :
  forall s, k (drop_while p s) = Some x -> greedy p s k = Some x.
Proof.
  induction s as [|c s IH]; simpl; intros H; [exact H|].
  destruct (p c); [|exact H].
  now rewrite (IH H).
Qed.

Lemma drop_while_weaken (p q : char -> bool) :
  (forall c, p c = true -> q c = true) ->
  forall s, drop_while q (drop_while p s) = drop_while q s.
Proof.
  intros Hpq; induction s as [|c s IH]; simpl; [reflexivity|].
  destruct (p c) eqn:Hp.
  - rewrite (Hpq c Hp). exact IH.
  - reflexivity.
Qed.

(** ** The mark pattern *)

Section MarkPattern.

Variable isspace : char -> bool.
Variable marks : str.

Let W := isspace.
Let M := in_marks marks.
Let WM := mark_or_space isspace marks.
Let B := Seq (Plus (Cls M)) (Star (Cls W)).
Let A := Seq (Star (Cls W)) B.

Lemma W_WM c : W c = true -> WM c = true.
Proof. unfold WM, mark_or_space, W. intros ->. reflexivity. Qed.

Lemma M_WM c : M c = true -> WM c = true.
Proof. unfold WM, mark_or_space, M. intros ->. apply orb_true_r. Qed.

Lemma block_commit {R} (c : char) (s : str) (k : str -> option R) (x : R) :
  M c = true ->
  k (drop_while W (drop_while M s)) = Some x ->
  bt B (c :: s) k = Some x.
Proof.
  intros Hc Hk. unfold B, Plus.
  rewrite !bt_seq, bt_cls_cons, Hc, bt_star_cls.
  apply greedy_commit. rewrite bt_star_cls. now apply greedy_commit.
Qed.

Lemma block_reject {R} (c : char) (s : str) (k : str -> option R) :
  M c = false -> bt B (c :: s) k = None.
Proof.
  intros Hc. unfold B, Plus. now rewrite !bt_seq, bt_cls_cons, Hc.
Qed.

Lemma run_skip_block (c : char) (s : str) :
  M c = true ->
  drop_while WM (drop_while W (drop_while M s)) = drop_while WM (c :: s).
Proof.
  intros Hc. cbn [drop_while]. rewrite (@M_WM c Hc).
  rewrite (drop_while_weaken W WM W_WM).
  now rewrite (drop_while_weaken M WM M_WM).
Qed.

Lemma loop_spec :
  forall n q, length q < n -> no_head W q ->
    star_loop (bt A) n q (@Some str) = Some (drop_while WM q).
Proof.
  induction n as [|n IH]; intros q Hlen Hq; [lia|].
  cbn [star_loop]. unfold A at 1. rewrite bt_seq, bt_star_cls.
  destruct q as [|c q]; cbn [greedy].
  - reflexivity.
  - cbn [no_head] in Hq. rewrite Hq.
    destruct (M c) eqn:Hc.
    + set (q2 := drop_while W (drop_while M q)).
      assert (Hq2 : length q2 <= length q).
      { unfold q2. etransitivity; apply drop_while_length. }
      assert (Hb : forall k : str -> option str,
                 k q2 = Some (drop_while WM (c :: q)) ->
                 bt B (c :: q) k = Some (drop_while WM (c :: q))).
      { intros k Hk. now apply block_commit. }
      rewrite Hb; [reflexivity|].
      cbn [length].
      replace (length q2 <? S (length q)) with true
        by ltb_holds.
      rewrite IH.
      * unfold q2. now rewrite (run_skip_block _ q Hc).
      * cbn [length] in Hlen. lia.
      * apply drop_while_head.
    + rewrite block_reject by exact Hc.
      cbn [drop_while].
      unfold WM, mark_or_space. fold W M. now rewrite Hq, Hc.
Qed.

Lemma first_block (s : str) :
  bt B s (fun s' => star_loop (bt A) (S (length s')) s' (@Some str)) =
  match s with
  | c :: _ => if M c then Some (drop_while WM s) else None
  | [] => None
  end.
Proof.
  destruct s as [|c s]; [reflexivity|].
  destruct (M c) eqn:Hc.
  - apply block_commit; [exact Hc|].
    rewrite loop_spec; [|lia|apply drop_while_head].
    now rewrite (run_skip_block _ s Hc).
  - now apply block_reject.
Qed.

Lemma first_search (s : str) :
  greedy W s
    (fun s1 => bt B s1
       (fun s' => star_loop (bt A) (S (length s')) s' (@Some str))) =
  if hit isspace marks s then Some (drop_while WM s) else None.
Proof.
  unfold hit, has_mark. fold WM M.
  induction s as [|c s IH]; [reflexivity|].
  cbn [greedy]. rewrite first_block.
  cbn [take_while drop_while].
  destruct (W c) eqn:Hw.
  - rewrite (@W_WM c Hw). rewrite IH. cbn [existsb].
    destruct (existsb M (take_while WM s)).
    + now rewrite orb_true_r.
    + now rewrite orb_false_r.
  - destruct (M c) eqn:Hc.
    + rewrite (@M_WM c Hc). cbn [existsb]. now rewrite Hc.
    + replace (WM c) with false
        by (unfold WM, mark_or_space; fold W M; now rewrite Hw, Hc).
      reflexivity.
Qed.

(** The match of the mark pattern at the head of [s]. *)
Lemma re_match_marks (s : str) :
  re_match (marks_pattern isspace marks) s =
  if hit isspace marks s then Some (drop_while WM s) else None.
Proof.
  unfold re_match, marks_pattern. fold W M. fold B. fold A.
  unfold Plus. rewrite bt_seq. unfold A at 1. rewrite bt_seq, bt_star_cls.
  apply first_search.
Qed.

End MarkPattern.

(** ** Scanning *)

Lemma scan_fuel (r : regex) :
  forall f1 f2 s, length s <= f1 -> length s <= f2 -> scan f1 r s = scan f2 r s.
Proof.
  induction f1 as [|f1 IH]; intros f2 s H1 H2.
  - destruct s; [|cbn [length] in H1; lia]. now destruct f2.
  - destruct f2 as [|f2]; [destruct s; [reflexivity | cbn [length] in H2; lia]|].
    cbn [scan]. destruct s as [|c s]; [reflexivity|].
    cbn [length] in H1, H2.
    destruct (re_match r (c :: s)) as [rest|].
    + destruct (length rest <? length (c :: s)) eqn:E.
      * apply Nat.ltb_lt in E. cbn [length] in E.
        f_equal. apply IH; lia.
      * f_equal. apply IH; lia.
    + f_equal. apply IH; lia.
Qed.

Lemma pieces_cons (r : regex) (c : char) (s : str) :
  pieces r (c :: s) =
  match re_match r (c :: s) with
  | Some rest =>
      if length rest <? length (c :: s)
      then Hit (firstn (length (c :: s) - length rest) (c :: s)) :: pieces r rest
      else Lit c :: pieces r s
  | None => Lit c :: pieces r s
  end.
Proof.
  unfold pieces. cbn [length scan].
  destruct (re_match r (c :: s)) as [rest|]; [|reflexivity].
  destruct (length rest <? S (length s)) eqn:E; [|reflexivity].
  apply Nat.ltb_lt in E. f_equal. apply scan_fuel; lia.
Qed.

Section MarkScan.

Variable isspace : char -> bool.
Variable marks : str.

Let M := in_marks marks.
Let WM := mark_or_space isspace marks.
Let mp := marks_pattern isspace marks.

Lemma hit_take_nonempty (s : str) :
  hit isspace marks s = true -> take_while WM s <> [].
Proof.
  unfold hit, has_mark. fold WM. destruct (take_while WM s); [discriminate|].
  discriminate.
Qed.

Lemma hit_shrinks (s : str) :
  hit isspace marks s = true -> length (drop_while WM s) < length s.
Proof.
  intros H. apply hit_take_nonempty in H.
  rewrite <- (take_drop_while WM s) at 2. rewrite length_app.
  destruct (take_while WM s); [congruence | cbn [length]; lia].
Qed.

Lemma pieces_marks_hit (s : str) :
  hit isspace marks s = true ->
  pieces mp s = Hit (take_while WM s) :: pieces mp (drop_while WM s).
Proof.
  intros H. destruct s as [|c s]; [discriminate|].
  rewrite pieces_cons. unfold mp at 1. rewrite re_match_marks, H. fold WM.
  pose proof (hit_shrinks _ H) as Hlt. apply Nat.ltb_lt in Hlt.
  rewrite Hlt. now rewrite take_while_firstn.
Qed.

Lemma pieces_marks_lit (c : char) (s : str) :
  hit isspace marks (c :: s) = false ->
  pieces mp (c :: s) = Lit c :: pieces mp s.
Proof.
  intros H. rewrite pieces_cons. unfold mp at 1. now rewrite re_match_marks, H.
Qed.

(** Induction along the scan of the mark pattern. *)
Lemma mark_scan_ind (P : str -> Prop) :
  P [] ->
  (forall c s, hit isspace marks (c :: s) = false -> P s -> P (c :: s)) ->
  (forall s, hit isspace marks s = true -> P (drop_while WM s) -> P s) ->
  forall s, P s.
Proof.
  intros Hnil Hlit Hhit s.
  remember (length s) as n eqn:Hn. revert s Hn.
  induction n as [n IH] using lt_wf_ind. intros s Hn.
  destruct (hit isspace marks s) eqn:H.
  - apply Hhit; [exact H|]. apply (IH (length (drop_while WM s))); [|reflexivity].
    subst n. now apply hit_shrinks.
  - destruct s as [|c s]; [exact Hnil|].
    apply Hlit; [exact H|]. apply (IH (length s)); [|reflexivity].
    subst n. cbn [length]. lia.
Qed.

Lemma take_while_all (p : char -> bool) (s : str) :
  forallb p (take_while p s) = true.
Proof.
  induction s as [|c s IH]; [reflexivity|]. cbn [take_while].
  destruct (p c) eqn:Hp; [|reflexivity]. cbn [forallb]. now rewrite Hp.
Qed.

(** A literal is never a mark. *)
Lemma miss_not_mark (c : char) (s : str) :
  hit isspace marks (c :: s) = false -> M c = false.
Proof.
  unfold hit, has_mark. fold M WM. cbn [take_while].
  destruct (M c) eqn:Hc; [|reflexivity].
  assert (Hwm : WM c = true)
    by (unfold WM, mark_or_space; fold M; rewrite Hc; apply orb_true_r).
  rewrite Hwm. cbn [existsb]. now rewrite Hc.
Qed.

(** After a literal of the run class no match starts. *)
Lemma miss_continues (c : char) (s : str) :
  hit isspace marks (c :: s) = false -> WM c = true ->
  hit isspace marks s = false.
Proof.
  unfold hit, has_mark. fold M WM. cbn [take_while]. intros H Hwm.
  rewrite Hwm in H. cbn [existsb] in H. now apply orb_false_elim in H.
Qed.

(** No match starts where the character ahead is outside the run class. *)
Lemma no_head_miss (s : str) : no_head WM s -> hit isspace marks s = false.
Proof.
  unfold hit, has_mark. fold WM. destruct s as [|c s]; [reflexivity|].
  cbn [no_head take_while]. now intros ->.
Qed.

End MarkScan.

(** ** [strip] *)

Section Strip.

Variable isspace : char -> bool.

Lemma rstrip_prefix (s : str) : exists w, s = rstrip isspace s ++ w.
Proof.
  unfold rstrip, lstrip.
  exists (rev (take_while isspace (rev s))).
  rewrite <- rev_app_distr, take_drop_while. now rewrite rev_involutive.
Qed.

Lemma lstrip_fixed (s : str) : no_head isspace s -> lstrip isspace s = s.
Proof.
  unfold lstrip. destruct s as [|c s]; [reflexivity|].
  cbn [no_head drop_while]. now intros ->.
Qed.

Lemma rstrip_fixed (s : str) : no_head isspace (rev s) -> rstrip isspace s = s.
Proof.
  intros H. unfold rstrip. rewrite (lstrip_fixed _ H). apply rev_involutive.
Qed.

Lemma rstrip_rev_head (s : str) : no_head isspace (rev (rstrip isspace s)).
Proof.
  unfold rstrip, lstrip. rewrite rev_involutive. apply drop_while_head.
Qed.

Lemma rstrip_keeps_head (s : str) :
  no_head isspace s -> no_head isspace (rstrip isspace s).
Proof.
  intros H. destruct (rstrip_prefix s) as [w E].
  destruct (rstrip isspace s) as [|c t]; [exact I|].
  rewrite E in H. exact H.
Qed.

Lemma rstrip_idem (s : str) : rstrip isspace (rstrip isspace s) = rstrip isspace s.
Proof. apply rstrip_fixed, rstrip_rev_head. Qed.

Lemma strip_idem (s : str) : strip isspace (strip isspace s) = strip isspace s.
Proof.
  unfold strip at 1.
  assert (H : no_head isspace (strip isspace s)).
  { unfold strip. apply rstrip_keeps_head. unfold lstrip. apply drop_while_head. }
  rewrite (lstrip_fixed _ H). unfold strip. apply rstrip_idem.
Qed.

End Strip.

(** ** [remove] *)

Section Remove.

Variable isspace : char -> bool.
Variable marks : str.

Let M := in_marks marks.
Let WM := mark_or_space isspace marks.
Let mp := marks_pattern isspace marks.
Let sub := re_sub mp [SPACE].
Let settled := settled isspace marks.

Lemma sub_hit (s : str) :
  hit isspace marks s = true -> sub s = SPACE :: sub (drop_while WM s).
Proof.
  intros H. unfold sub, re_sub. fold mp. unfold mp.
  now rewrite (pieces_marks_hit _ _ _ H).
Qed.

Lemma sub_lit (c : char) (s : str) :
  hit isspace marks (c :: s) = false -> sub (c :: s) = c :: sub s.
Proof.
  intros H. unfold sub, re_sub. unfold mp.
  now rewrite (pieces_marks_lit _ _ _ _ H).
Qed.

Lemma sub_head_outside (s : str) :
  no_head WM s -> outside WM (hd_error (sub s)).
Proof.
  intros H. destruct s as [|c s]; [exact I|].
  rewrite sub_lit by now apply no_head_miss. exact H.
Qed.

Lemma sub_settled :
  forall s prev,
    match prev with
    | Some p => WM p = true -> hit isspace marks s = false
    | None => True
    end ->
    settled prev (sub s).
Proof.
  intros s. induction s as [|c s Hmiss IH|s Hhit IH]
    using (mark_scan_ind isspace marks); intros prev Hprev.
  - exact I.
  - rewrite sub_lit by exact Hmiss. split.
    + intros Hc.
      rewrite (miss_not_mark _ _ _ _ Hmiss) in Hc. discriminate.
    + apply IH. intros Hwm. exact (miss_continues _ _ _ _ Hmiss Hwm).
  - rewrite sub_hit by exact Hhit.
    pose proof (drop_while_head WM s) as Hhead.
    split.
    + intros _. repeat split.
      * destruct prev as [p|]; [|exact I]. cbn [outside]. fold WM.
        destruct (WM p) eqn:Hp; [|reflexivity].
        rewrite (Hprev eq_refl) in Hhit. discriminate.
      * now apply sub_head_outside.
    + apply IH. intros _. now apply no_head_miss.
Qed.

Lemma settled_relax (prev : option char) (s : str) :
  settled prev s -> settled None s.
Proof.
  destruct s as [|d s]; [exact (fun H => H)|].
  intros [H1 H2]. split; [|exact H2].
  intros Hd. destruct (H1 Hd) as (-> & _ & H3). repeat split. exact H3.
Qed.

Lemma settled_drop_while (p : char -> bool) :
  forall s prev, settled prev s -> settled None (drop_while p s).
Proof.
  induction s as [|c s IH]; intros prev H; [exact I|].
  cbn [drop_while]. destruct (p c).
  - destruct H as [_ H]. exact (IH _ H).
  - exact (settled_relax _ _ H).
Qed.

Lemma settled_app_l :
  forall a b prev, settled prev (a ++ b) -> settled prev a.
Proof.
  induction a as [|c a IH]; intros b prev H; [exact I|].
  destruct H as [H1 H2]. split; [|exact (IH _ _ H2)].
  intros Hc. destruct (H1 Hc) as (E & Hp & Hn). repeat split; try assumption.
  destruct a; [exact I | exact Hn].
Qed.

Lemma settled_strip (s : str) :
  settled None s -> settled None (strip isspace s).
Proof.
  intros H. unfold strip.
  destruct (rstrip_prefix isspace (lstrip isspace s)) as [w E].
  apply settled_app_l with (b := w). rewrite <- E.
  unfold lstrip. exact (settled_drop_while _ _ _ H).
Qed.

(** After a character of the run class, a settled string opens no match. *)
Lemma settled_miss :
  forall t x, settled (Some x) t -> WM x = true -> hit isspace marks t = false.
Proof.
  induction t as [|y t IH]; intros x H Hx; [reflexivity|].
  destruct H as [H1 H2].
  destruct (WM y) eqn:Hy; [|now apply no_head_miss].
  destruct (in_marks marks y) eqn:Hm.
  - destruct (H1 eq_refl) as (_ & Hout & _). cbn [outside] in Hout.
    fold WM in Hout. congruence.
  - unfold hit, has_mark. fold WM. cbn [take_while]. rewrite Hy.
    cbn [existsb]. rewrite Hm. exact (IH _ H2 Hy).
Qed.

Lemma sub_fixed : forall s prev, settled prev s -> sub s = s.
Proof.
  induction s as [|c s IH]; intros prev H; [reflexivity|].
  destruct H as [H1 H2]. pose proof (IH _ H2) as Hs.
  destruct (in_marks marks c) eqn:Hc.
  - destruct (H1 eq_refl) as (-> & _ & Hn).
    assert (Hhead : no_head WM s) by (destruct s; [exact I | exact Hn]).
    assert (Hwm : WM SPACE = true)
      by (unfold WM, mark_or_space; rewrite Hc; apply orb_true_r).
    assert (Htake : take_while WM s = [])
      by (destruct s; [reflexivity | cbn [take_while]; now rewrite Hhead]).
    assert (Hdrop : drop_while WM s = s)
      by (destruct s; [reflexivity | cbn [drop_while]; now rewrite Hhead]).
    rewrite sub_hit.
    + cbn [drop_while]. now rewrite Hwm, Hdrop, Hs.
    + unfold hit, has_mark. fold WM. cbn [take_while].
      rewrite Hwm, Htake. cbn [existsb]. now rewrite Hc.
  - rewrite sub_lit; [now rewrite Hs|].
    destruct (WM c) eqn:Hwm; [|now apply no_head_miss].
    unfold hit, has_mark. fold WM. cbn [take_while]. rewrite Hwm.
    cbn [existsb]. rewrite Hc. exact (settled_miss _ _ H2 Hwm).
Qed.

Lemma remove_line_idem (s : str) :
  strip isspace (sub (strip isspace (sub s))) = strip isspace (sub s).
Proof.
  assert (H : settled None (strip isspace (sub s))).
  { apply settled_strip. now apply sub_settled. }
  rewrite (sub_fixed _ _ H). apply strip_idem.
Qed.

End Remove.

(** ** Sequence primitives *)

Lemma startswith_app (p t : str) : startswith (p ++ t) p = true.
Proof.
  induction p as [|x p IH]; [reflexivity|].
  cbn [app startswith]. now rewrite chr_eqb_refl, IH.
Qed.

Lemma startswith_inv : forall p s, startswith s p = true -> exists t, s = p ++ t.
Proof.
  induction p as [|x p IH]; intros s H.
  - now exists s.
  - destruct s as [|y s]; [discriminate|]. cbn [startswith] in H.
    apply andb_true_iff in H as [Hxy Hp]. apply chr_eqb_eq in Hxy as ->.
    destruct (IH _ Hp) as [t ->]. now exists t.
Qed.

Lemma endswith_inv (s p : str) : endswith s p = true -> exists y, s = y ++ p.
Proof.
  unfold endswith. intros H. apply startswith_inv in H as [t Ht].
  exists (rev t). rewrite <- (rev_involutive s), Ht, rev_app_distr.
  now rewrite rev_involutive.
Qed.

(** The bound on the steps of [split] is never reached. *)
Lemma split_from_fuel (sep : str) :
  sep <> [] ->
  forall f1 f2 s,
    length s < f1 -> length s < f2 ->
    split_from f1 sep s = split_from f2 sep s.
Proof.
  intros Hsep. induction f1 as [|f1 IH]; intros f2 s H1 H2; [lia|].
  destruct f2 as [|f2]; [lia|]. cbn [split_from].
  destruct (startswith s sep) eqn:E.
  - f_equal. apply startswith_inv in E as [t ->].
    rewrite skipn_app, skipn_all, Nat.sub_diag. cbn [skipn app].
    rewrite length_app in H1, H2.
    destruct sep; [congruence | cbn [length] in H1, H2; apply IH; lia].
  - destruct s as [|c s]; [reflexivity|]. cbn [length] in H1, H2.
    rewrite (IH f2 s) by lia. reflexivity.
Qed.

Lemma split_from_nonempty (fuel : nat) (sep s : str) :
  split_from fuel sep s <> [].
Proof.
  destruct fuel as [|fuel]; cbn [split_from]; [discriminate|].
  destruct (startswith s sep); [discriminate|].
  destruct s as [|c s]; [discriminate|].
  destruct (split_from fuel sep s); discriminate.
Qed.

Lemma getlast_snoc {A} (l : list A) (a : A) : getlast (l ++ [a]) = Ok a.
Proof. unfold getlast. now rewrite rev_app_distr. Qed.

Lemma getlast_inv {A} (l : list A) (a : A) :
  getlast l = Ok a -> exists l', l = l' ++ [a].
Proof.
  unfold getlast. destruct (rev l) as [|b r] eqn:E; [discriminate|].
  intros H. injection H as ->. exists (rev r).
  rewrite <- (rev_involutive l), E. reflexivity.
Qed.

Lemma getlast_cons {A} (a : A) (l : list A) : exists b, getlast (a :: l) = Ok b.
Proof.
  destruct (exists_last (l := a :: l)) as (l' & b & E); [discriminate|].
  exists b. rewrite E. apply getlast_snoc.
Qed.

(** ** Pieces and matches *)

Lemma pieces_hit_nonempty (r : regex) :
  forall fuel s g, In (Hit g) (scan fuel r s) -> g <> [].
Proof.
  induction fuel as [|fuel IH]; intros s g H; [contradiction|].
  cbn [scan] in H. destruct s as [|c s]; [contradiction|].
  remember (c :: s) as t eqn:Et.
  destruct (re_match r t) as [rest|].
  - destruct (length rest <? length t) eqn:E.
    + destruct H as [H|H]; [|exact (IH _ _ H)].
      injection H as <-. apply Nat.ltb_lt in E.
      intros Hnil. apply (f_equal (@length char)) in Hnil.
      rewrite length_firstn in Hnil. change (length (@nil char)) with 0 in Hnil.
      lia.
    + destruct H as [H|H]; [discriminate | exact (IH _ _ H)].
  - destruct H as [H|H]; [discriminate | exact (IH _ _ H)].
Qed.

Lemma matches_from_hit (ps : list piece) :
  forall pos m, In m (matches_from pos ps) ->
    In (Hit (m_group m)) ps /\ pos <= m_start m /\
    m_end m = m_start m + length (m_group m).
Proof.
  induction ps as [|[c|g] ps IH]; intros pos m H; cbn [matches_from] in H.
  - contradiction.
  - destruct (IH _ _ H) as (H1 & H2 & H3). repeat split; [now right|lia|exact H3].
  - destruct H as [<-|H].
    + cbn. repeat split; [now left | lia].
    + destruct (IH _ _ H) as (H1 & H2 & H3).
      repeat split; [now right|lia|exact H3].
Qed.

Lemma matches_from_nil (ps : list piece) :
  forall pos, matches_from pos ps = [] -> forall g, ~ In (Hit g) ps.
Proof.
  induction ps as [|[c|g] ps IH]; intros pos H g' Hin; cbn [matches_from] in H.
  - contradiction.
  - destruct Hin as [Hin|Hin]; [discriminate | exact (IH _ H _ Hin)].
  - discriminate.
Qed.

(** The matches of a scan come in strictly increasing positions. *)
Lemma matches_from_increasing (ps : list piece) :
  (forall g, In (Hit g) ps -> g <> []) ->
  forall pos i j mi mj,
    nth_error (matches_from pos ps) i = Some mi ->
    nth_error (matches_from pos ps) j = Some mj ->
    i < j -> m_start mi < m_start mj.
Proof.
  induction ps as [|[c|g] ps IH]; intros Hne pos i j mi mj Hi Hj Hij;
    cbn [matches_from] in Hi, Hj.
  - destruct i; discriminate.
  - apply (IH (fun g H => Hne g (or_intror H)) _ _ _ _ _ Hi Hj Hij).
  - destruct j as [|j]; [lia|]. cbn [nth_error] in Hj.
    destruct i as [|i].
    + cbn [nth_error] in Hi. injection Hi as <-. cbn [m_start].
      apply nth_error_In in Hj. apply matches_from_hit in Hj as (_ & Hj & _).
      assert (g <> []) by (apply Hne; now left).
      destruct g; [congruence | cbn [length] in Hj; lia].
    + cbn [nth_error] in Hi.
      apply (IH (fun g H => Hne g (or_intror H)) _ _ _ _ _ Hi Hj). lia.
Qed.

Lemma match_is_refl (m : Match) : match_is m m = true.
Proof. unfold match_is. now rewrite !Nat.eqb_refl. Qed.

(** On the matches of one scan, [==] tells the positions in the list. *)
Lemma match_is_nth (r : regex) (s : str) (i j : nat) (mi mj : Match) :
  nth_error (finditer r s) i = Some mi ->
  nth_error (finditer r s) j = Some mj ->
  (match_is mi mj = true <-> i = j).
Proof.
  intros Hi Hj. split.
  - intros H. unfold match_is in H. apply andb_true_iff in H as [H _].
    apply Nat.eqb_eq in H.
    assert (Hne : forall g, In (Hit g) (pieces r s) -> g <> [])
      by (intros g; apply pieces_hit_nonempty).
    destruct (Nat.lt_trichotomy i j) as [Hlt|[Heq|Hgt]]; [|exact Heq|].
    + pose proof (matches_from_increasing _ Hne _ _ _ _ _ Hi Hj Hlt). lia.
    + pose proof (matches_from_increasing _ Hne _ _ _ _ _ Hj Hi Hgt). lia.
  - intros ->. rewrite Hi in Hj. injection Hj as ->. apply match_is_refl.
Qed.

(** ** Digit protection *)

Section DigitPattern.

Variable isdigit : char -> bool.
Variable sep : char.

Let dsd := digit_sep_digit isdigit sep.

Lemma re_match_triple (s : str) :
  re_match dsd s =
  if digit_triple isdigit sep s then Some (skipn 3 s) else None.
Proof.
  unfold re_match, dsd, digit_sep_digit.
  destruct s as [|d1 [|x [|d2 rest]]]; cbn [bt digit_triple skipn].
  - reflexivity.
  - now destruct (isdigit d1).
  - destruct (isdigit d1); [|reflexivity]. now destruct (chr_eqb sep x).
  - destruct (isdigit d1); [|reflexivity].
    destruct (chr_eqb sep x); [|reflexivity]. now destruct (isdigit d2).
Qed.

Lemma pieces_triple_hit (d1 x d2 : char) (rest : str) :
  digit_triple isdigit sep (d1 :: x :: d2 :: rest) = true ->
  pieces dsd (d1 :: x :: d2 :: rest) = Hit [d1; x; d2] :: pieces dsd rest.
Proof.
  intros H. rewrite pieces_cons. unfold dsd at 1. rewrite re_match_triple, H.
  cbn [skipn].
  replace (length rest <? length (d1 :: x :: d2 :: rest)) with true
    by ltb_holds.
  replace (length (d1 :: x :: d2 :: rest) - length rest) with 3
    by (cbn [length]; lia).
  reflexivity.
Qed.

Lemma pieces_triple_lit (c : char) (s : str) :
  digit_triple isdigit sep (c :: s) = false ->
  pieces dsd (c :: s) = Lit c :: pieces dsd s.
Proof.
  intros H. rewrite pieces_cons. unfold dsd at 1. now rewrite re_match_triple, H.
Qed.

Lemma triple_scan_ind (P : str -> Prop) :
  P [] ->
  (forall c s, digit_triple isdigit sep (c :: s) = false -> P s -> P (c :: s)) ->
  (forall d1 x d2 rest,
      digit_triple isdigit sep (d1 :: x :: d2 :: rest) = true ->
      P rest -> P (d1 :: x :: d2 :: rest)) ->
  forall s, P s.
Proof.
  intros Hnil Hlit Hhit s.
  remember (length s) as n eqn:Hn. revert s Hn.
  induction n as [n IH] using lt_wf_ind. intros s Hn.
  destruct s as [|c s]; [exact Hnil|].
  destruct (digit_triple isdigit sep (c :: s)) eqn:H.
  - destruct s as [|x [|d2 rest]]; try discriminate.
    apply Hhit; [exact H|]. apply (IH (length rest)); [|reflexivity].
    subst n. cbn [length]. lia.
  - apply Hlit; [exact H|]. apply (IH (length s)); [|reflexivity].
    subst n. cbn [length]. lia.
Qed.

(** One substitution succeeds and only turns separators into the
    placeholder. *)
Lemma protect_sub (placeholder : char) :
  forall s pos, exists out,
    mapM (render_fn (protect placeholder)) (positions pos (pieces dsd s))
    = Ok out /\
    Forall2 (protected_as sep placeholder) s (concat out).
Proof.
  intros s. induction s as [|c s Hmiss IH|d1 x d2 rest Hhit IH]
    using triple_scan_ind; intros pos.
  - exists []. split; [reflexivity | constructor].
  - rewrite pieces_triple_lit by exact Hmiss.
    destruct (IH (S pos)) as (out & E & HF).
    exists ([c] :: out). cbn [positions mapM render_fn bind]. rewrite E.
    split; [reflexivity|]. cbn [concat app]. constructor; [now left | exact HF].
  - rewrite pieces_triple_hit by exact Hhit.
    destruct (IH (pos + 3)) as (out & E & HF).
    exists ([d1; placeholder; d2] :: out).
    cbn [positions mapM render_fn protect bind getitem nth_error m_group length].
    rewrite E. split; [reflexivity|]. cbn [concat app].
    cbn [digit_triple] in Hhit.
    apply andb_true_iff in Hhit as [Hhit _].
    apply andb_true_iff in Hhit as [_ Hx]. apply chr_eqb_eq in Hx as <-.
    constructor; [now left|]. constructor; [right; now split|].
    constructor; [now left | exact HF].
Qed.

Lemma re_sub_fn_protect (placeholder : char) (s : str) :
  exists s', re_sub_fn dsd (protect placeholder) s = Ok s' /\
             Forall2 (protected_as sep placeholder) s s'.
Proof.
  destruct (protect_sub placeholder s 0) as (out & E & HF).
  exists (concat out). unfold re_sub_fn. rewrite E. split; [reflexivity | exact HF].
Qed.

End DigitPattern.

Lemma escape_digits_spec (isdigit : char -> bool) (line : str) :
  exists el, escape_digits isdigit line = Ok el /\ Forall2 escaped_as line el.
Proof.
  unfold escape_digits.
  destruct (re_sub_fn_protect isdigit COMMA SECTION_SIGN line) as (l1 & E1 & F1).
  destruct (re_sub_fn_protect isdigit DOT HASH l1) as (el & E2 & F2).
  exists el. rewrite E1. cbn [bind]. split; [exact E2|].
  clear E1 E2. revert el F2. induction F1 as [|a b l l' Hab _ IH]; intros el F2.
  - inversion F2. constructor.
  - inversion F2 as [|b' c0 l2 l3 Hbc F2' E3 E4]; subst. constructor; [|now apply IH].
    unfold escaped_as. destruct Hab as [->|[-> ->]].
    + destruct Hbc as [->|[-> ->]]; [now left | right; right; now split].
    + destruct Hbc as [<-|[Habs _]]; [right; left; now split | discriminate].
Qed.

(** A substitution of one character by another is a [map]. *)
Lemma re_sub_char (x y : char) (s : str) :
  re_sub (Cls (chr_eqb x)) [y] s = map (fun c => if chr_eqb x c then y else c) s.
Proof.
  unfold re_sub. induction s as [|c s IH]; [reflexivity|].
  rewrite pieces_cons. unfold re_match. cbn [bt].
  cbn [map]. destruct (chr_eqb x c).
  - replace (length s <? length (c :: s)) with true
      by ltb_holds.
    cbn [map concat render_str app]. now rewrite IH.
  - cbn [map concat render_str app]. now rewrite IH.
Qed.

Lemma unescape_map (element : str) :
  unescape element =
  map (fun c => if chr_eqb HASH c then DOT
                else if chr_eqb SECTION_SIGN c then COMMA else c) element.
Proof.
  unfold unescape. rewrite !re_sub_char, map_map. apply map_ext.
  intros c. destruct (chr_eqb SECTION_SIGN c) eqn:E; [|reflexivity].
  apply chr_eqb_eq in E. now subst c.
Qed.

(** Escaping and unescaping a line free of placeholders gives it back. *)
Lemma unescape_escaped (line el : str) :
  Forall2 escaped_as line el ->
  ~ In SECTION_SIGN line -> ~ In HASH line ->
  unescape el = line.
Proof.
  rewrite unescape_map. induction 1 as [|a b l l' Hab _ IH]; intros HS HH.
  - reflexivity.
  - cbn [map]. rewrite IH
      by (intros Hin; first [apply HS; now right | apply HH; now right]).
    f_equal. destruct Hab as [<-|[[-> ->]|[-> ->]]]; [|reflexivity..].
    destruct (chr_eqb HASH a) eqn:E1.
    + apply chr_eqb_eq in E1. exfalso. apply HH. now left.
    + destruct (chr_eqb SECTION_SIGN a) eqn:E2; [|reflexivity].
      apply chr_eqb_eq in E2. exfalso. apply HS. now left.
Qed.

(** ** [_preserve_line] *)

Lemma mapM_map {A B} (f : A -> exc B) (g : A -> B) (l : list A) :
  (forall a, In a l -> f a = Ok (g a)) -> mapM f l = Ok (map g l).
Proof.
  induction l as [|a l IH]; intros H; [reflexivity|].
  cbn [mapM map]. rewrite (H a (or_introl eq_refl)). cbn [bind].
  rewrite IH by (intros b Hb; apply H; now right). reflexivity.
Qed.

Lemma classify_ok (line : str) (ms : list Match) (num : nat)
    (first last m : Match) :
  getitem ms 0 = Ok first -> getlast ms = Ok last ->
  classify line ms num m =
  Ok (MarkIndex num (m_group m) (tag_of line first last m)).
Proof.
  intros Hf Hl. unfold classify, tag_of. rewrite Hf. cbn [bind].
  destruct (match_is m first && startswith line (m_group m)); [reflexivity|].
  rewrite Hl. cbn [bind].
  now destruct (match_is m last && endswith line (m_group m)).
Qed.

Lemma cut_ok (pl : list str) (line : str) (m : _MarkIndex) :
  mark m <> [] -> exists prefix suffix, cut (pl, line) m = Ok (pl ++ [prefix], suffix).
Proof.
  intros Hm. unfold cut, split. destruct (mark m) as [|x sep] eqn:E; [congruence|].
  cbn [bind].
  destruct (split_from (S (length line)) (x :: sep) line) as [|p ps] eqn:Es;
    [now apply split_from_nonempty in Es|].
  cbn [getitem nth_error bind]. now eexists _, _.
Qed.

Lemma cut_total :
  forall marks pl line,
    (forall m, In m marks -> mark m <> []) ->
    exists pl' rest, foldM cut (pl, line) marks = Ok (pl', rest).
Proof.
  induction marks as [|m marks IH]; intros pl line H.
  - now exists pl, line.
  - destruct (cut_ok pl line m (H m (or_introl eq_refl))) as (p & sfx & E).
    cbn [foldM]. rewrite E. cbn [bind].
    apply IH. intros m' Hm'. apply H. now right.
Qed.

(** The cuts depend on the texts of the marks only. *)
Lemma cut_texts :
  forall marks marks' st,
    map mark marks = map mark marks' ->
    foldM cut st marks = foldM cut st marks'.
Proof.
  induction marks as [|m marks IH]; intros [|m' marks'] st H; try discriminate.
  - reflexivity.
  - cbn [map] in H. injection H as Hm H. cbn [foldM].
    assert (E : cut st m = cut st m')
      by (unfold cut; destruct st; now rewrite Hm).
    rewrite E. destruct (cut st m') as [st'|e]; cbn [bind]; [|reflexivity].
    now apply IH.
Qed.

Lemma finditer_groups_nonempty (r : regex) (s : str) (m : Match) :
  In m (finditer r s) -> m_group m <> [].
Proof.
  intros H. apply matches_from_hit in H as (H & _).
  exact (pieces_hit_nonempty _ _ _ _ H).
Qed.

(** The three ways out of [_preserve_line]. *)
Lemma preserve_line_cases (isdigit : char -> bool) (self : Punctuation)
    (line : str) (num : nat) :
  exists el,
    escape_digits isdigit line = Ok el /\
    Forall2 escaped_as line el /\
    ((finditer (_marks_re self) el = [] /\
      _preserve_line isdigit self line num = Ok ([unescape el], []))
     \/
     (exists m0,
         finditer (_marks_re self) el = [m0] /\ m_group m0 = el /\
         _preserve_line isdigit self line num = Ok ([], [MarkIndex num el Pos_A]))
     \/
     (exists first last pl rest,
         getitem (finditer (_marks_re self) el) 0 = Ok first /\
         getlast (finditer (_marks_re self) el) = Ok last /\
         ~ (length (finditer (_marks_re self) el) = 1 /\ m_group first = el) /\
         foldM cut ([], el)
           (records_of el 0 first last (finditer (_marks_re self) el))
         = Ok (pl, rest) /\
         _preserve_line isdigit self line num =
         Ok (map unescape (pl ++ [rest]),
             records_of el num first last (finditer (_marks_re self) el)))).
Proof.
  destruct (escape_digits_spec isdigit line) as (el & Eel & HF).
  exists el. split; [exact Eel|]. split; [exact HF|].
  unfold _preserve_line. rewrite Eel. cbn [bind].
  pose proof (finditer_groups_nonempty (_marks_re self) el) as Hne.
  destruct (finditer (_marks_re self) el) as [|m0 ms] eqn:Ems.
  - left. now split.
  - right.
    destruct (getlast_cons m0 ms) as [last Hlast].
    assert (Hrec : forall n,
               mapM (classify el (m0 :: ms) n) (m0 :: ms) =
               Ok (records_of el n m0 last (m0 :: ms))).
    { intros n. apply mapM_map. intros m _. now apply classify_ok. }
    assert (Hcut : exists pl rest,
               foldM cut ([], el) (records_of el 0 m0 last (m0 :: ms))
               = Ok (pl, rest)).
    { apply cut_total. intros m Hm. unfold records_of in Hm.
      apply in_map_iff in Hm as (m' & <- & Hm'). cbn [mark]. now apply Hne. }
    destruct Hcut as (pl & rest & Hcut).
    assert (Hcutn : foldM cut ([], el) (records_of el num m0 last (m0 :: ms))
                    = Ok (pl, rest)).
    { rewrite <- Hcut. apply cut_texts. unfold records_of.
      rewrite !map_map. reflexivity. }
    destruct ms as [|m1 ms].
    + cbn [length Nat.eqb getitem nth_error bind].
      destruct (str_eqb (m_group m0) el) eqn:Eg.
      * left. exists m0. apply str_eqb_eq in Eg. now repeat split.
      * right. exists m0, last, pl, rest.
        rewrite Hrec. cbn [bind]. rewrite Hcutn. cbn [bind].
        repeat split; try assumption.
        intros [_ Hg]. apply str_eqb_eq in Hg. congruence.
    + right. exists m0, last, pl, rest.
      cbn [length Nat.eqb bind].
      rewrite Hrec. cbn [bind]. rewrite Hcutn. cbn [bind].
      repeat split; try assumption.
      intros [Hlen _]. cbn [length] in Hlen. lia.
Qed.

Lemma preserve_line_total (isdigit : char -> bool) (self : Punctuation)
    (line : str) (num : nat) :
  exists chunks recs, _preserve_line isdigit self line num = Ok (chunks, recs).
Proof.
  destruct (preserve_line_cases isdigit self line num)
    as (el & _ & _ & [[_ E]|[(m0 & _ & _ & E)|(f & l & pl & rest & _ & _ & _ & _ & E)]]);
    rewrite E; now eexists _, _.
Qed.

(** The line number only reaches the [index] field of the records. *)
Lemma preserve_line_reindex (isdigit : char -> bool) (self : Punctuation)
    (line : str) (num num' : nat) (chunks : list str) (recs : list _MarkIndex) :
  _preserve_line isdigit self line num = Ok (chunks, recs) ->
  _preserve_line isdigit self line num' = Ok (chunks, map (reindex num') recs).
Proof.
  intros H.
  destruct (preserve_line_cases isdigit self line num)
    as (el & Eel & _ & Hc).
  destruct (preserve_line_cases isdigit self line num')
    as (el' & Eel' & _ & Hc').
  rewrite Eel in Eel'. injection Eel' as <-.
  destruct Hc as [[Hm E]|[(m0 & Hm & Hg & E)|(f & l & pl & rest & Hf & Hl & Hn & Hcut & E)]];
    rewrite E in H; injection H as <- <-.
  - destruct Hc' as [[_ E']|[(m0' & Hm' & _)|(f' & l' & pl' & rest' & Hf' & _)]].
    + exact E'.
    + rewrite Hm in Hm'. discriminate.
    + rewrite Hm in Hf'. discriminate.
  - destruct Hc' as [[Hm' _]|[(m0' & _ & _ & E')|(f' & l' & pl' & rest' & Hf' & _ & Hn' & _)]].
    + rewrite Hm in Hm'. discriminate.
    + exact E'.
    + exfalso. apply Hn'. rewrite Hm in Hf' |- *. injection Hf' as <-. now split.
  - destruct Hc' as [[Hm' _]|[(m0' & Hm' & Hg' & _)|(f' & l' & pl' & rest' & Hf' & Hl' & _ & Hcut' & E')]].
    + rewrite Hm' in Hf. discriminate.
    + exfalso. apply Hn. rewrite Hm' in Hf |- *. injection Hf as <-. now split.
    + rewrite Hf in Hf'. injection Hf' as <-.
      rewrite Hl in Hl'. injection Hl' as <-.
      rewrite Hcut in Hcut'. injection Hcut' as <- <-.
      rewrite E'. unfold records_of. rewrite map_map. reflexivity.
Qed.

Lemma preserve_line_index (isdigit : char -> bool) (self : Punctuation)
    (line : str) (num : nat) (chunks : list str) (recs : list _MarkIndex) :
  _preserve_line isdigit self line num = Ok (chunks, recs) ->
  forall r, In r recs -> index r = num.
Proof.
  intros H r Hr.
  destruct (preserve_line_cases isdigit self line num)
    as (el & _ & _ & [[_ E]|[(m0 & _ & _ & E)|(f & l & pl & rest & _ & _ & _ & _ & E)]]);
    rewrite E in H; injection H as <- <-.
  - contradiction.
  - destruct Hr as [<-|[]]. reflexivity.
  - unfold records_of in Hr. apply in_map_iff in Hr as (m & <- & _). reflexivity.
Qed.

(** ** [_restore_aux] *)

Section Restore.

Variable isspace : char -> bool.

Lemma restore_aux_no_marks (text : list str) (num : nat) :
  _restore_aux isspace text [] num = Ok text.
Proof. destruct text; reflexivity. Qed.

Lemma restore_aux_no_text (m : _MarkIndex) (marks : list _MarkIndex) (num : nat) :
  _restore_aux isspace [] (m :: marks) num = Ok [concat (map mark (m :: marks))].
Proof. reflexivity. Qed.

Lemma restore_aux_cons (t0 : str) (text : list str) (m : _MarkIndex)
    (marks : list _MarkIndex) (num : nat) :
  _restore_aux isspace (t0 :: text) (m :: marks) num =
  if index m =? num
  then _restore_current isspace (_restore_aux isspace) m (t0 :: text) (m :: marks) num
  else rest <- _restore_aux isspace text (m :: marks) (num + 1) ;; Ok (t0 :: rest).
Proof. reflexivity. Qed.

Lemma restore_current_total
    (aux : list str -> list _MarkIndex -> nat -> exc (list str))
    (current : _MarkIndex) (t0 : str) (text : list str)
    (marks : list _MarkIndex) (num : nat) :
  (forall text' num', exists out, aux text' (skipn 1 marks) num' = Ok out) ->
  exists out, _restore_current isspace aux current (t0 :: text) marks num = Ok out.
Proof.
  intros Haux. unfold _restore_current. cbn [getitem nth_error bind].
  change (skipn 1 (rstrip isspace t0 :: skipn 1 (t0 :: text))) with text.
  change (skipn 1 (t0 :: text)) with text.
  destruct (position current).
  - apply Haux.
  - destruct (Haux text (num + 1)) as [out E]. rewrite E. cbn [bind]. now eexists.
  - destruct text as [|t1 text]; cbn [length Nat.eqb].
    + apply Haux.
    + cbn [getitem nth_error bind]. apply Haux.
  - destruct (Haux (rstrip isspace t0 :: text) (num + 1)) as [out E].
    rewrite E. cbn [bind]. now eexists.
Qed.

Lemma restore_aux_total :
  forall marks text num, exists out, _restore_aux isspace text marks num = Ok out.
Proof.
  induction marks as [|m marks IHm]; intros text num.
  - exists text. apply restore_aux_no_marks.
  - revert num. induction text as [|t0 text IHt]; intros num.
    + eexists. apply restore_aux_no_text.
    + rewrite restore_aux_cons. destruct (index m =? num).
      * apply restore_current_total. intros text' num'. apply IHm.
      * destruct (IHt (num + 1)) as [out E]. rewrite E. cbn [bind]. now eexists.
Qed.

(** The chunk is trimmed before the position of the mark is looked at. *)
Lemma restore_current_trims
    (aux : list str -> list _MarkIndex -> nat -> exc (list str))
    (current : _MarkIndex) (t0 : str) (text : list str)
    (marks : list _MarkIndex) (num : nat) :
  _restore_current isspace aux current (t0 :: text) marks num =
  _restore_current isspace aux current (rstrip isspace t0 :: text) marks num.
Proof.
  unfold _restore_current. cbn [getitem nth_error bind].
  change (skipn 1 (t0 :: text)) with text.
  change (skipn 1 (rstrip isspace t0 :: text)) with text.
  now rewrite rstrip_idem.
Qed.

End Restore.

(** ** [preserve] as a fold over the lines *)

Section Preserve.

Variable isdigit : char -> bool.
Variable self : Punctuation.

Let chunks_of := line_chunks isdigit self.
Let records_of_item := line_records isdigit self.

Lemma preserve_fold :
  forall items chunks recs,
    foldM (preserve_step isdigit self) (chunks, recs) items =
    Ok (chunks ++ flat_map (fun it => chunks_of (snd it)) items,
        recs ++ flat_map records_of_item items).
Proof.
  induction items as [|[num line] items IH]; intros chunks recs.
  - cbn [foldM flat_map]. now rewrite !app_nil_r.
  - cbn [foldM preserve_step].
    destruct (preserve_line_total isdigit self line num) as (lc & lr & E).
    rewrite E. cbn [bind]. rewrite IH. cbn [flat_map].
    unfold chunks_of at 2, records_of_item at 2.
    unfold line_chunks, line_records. cbn [fst snd]. rewrite E.
    rewrite (preserve_line_reindex _ _ _ _ 0 _ _ E).
    now rewrite !app_assoc.
Qed.

Lemma flat_map_enumerate {B} (g : str -> list B) :
  forall l start,
    flat_map (fun it => g (snd it)) (combine (seq start (length l)) l) =
    flat_map g l.
Proof.
  induction l as [|x l IH]; intros start; [reflexivity|].
  cbn [length seq combine flat_map snd]. now rewrite IH.
Qed.

Lemma preserve_spec (t : text) :
  preserve isdigit self t =
  Ok (filter nonempty (flat_map chunks_of (str2list t)),
      flat_map records_of_item (enumerate (str2list t))).
Proof.
  unfold preserve. rewrite preserve_fold. cbn [bind app].
  unfold enumerate. now rewrite flat_map_enumerate.
Qed.

Lemma in_enumerate {A} (l : list A) :
  forall start n x,
    In (n, x) (combine (seq start (length l)) l) ->
    start <= n /\ nth_error l (n - start) = Some x.
Proof.
  induction l as [|y l IH]; intros start n x H; [contradiction|].
  cbn [length seq combine] in H. destruct H as [H|H].
  - injection H as <- <-. split; [lia|]. now rewrite Nat.sub_diag.
  - apply IH in H as [H1 H2]. split; [lia|].
    replace (n - start) with (S (n - S start)) by lia. exact H2.
Qed.

Lemma line_chunks_empty : chunks_of [] = [[]].
Proof. reflexivity. Qed.

Lemma line_records_empty (num : nat) : records_of_item (num, []) = [].
Proof. reflexivity. Qed.

Lemma line_records_index (item : nat * str) (r : _MarkIndex) :
  In r (records_of_item item) -> index r = fst item.
Proof.
  unfold records_of_item, line_records.
  destruct (_preserve_line isdigit self (snd item) (fst item)) as [[c recs]|e] eqn:E;
    [|contradiction].
  now apply (preserve_line_index _ _ _ _ _ _ E).
Qed.

End Preserve.

(** ** Where the mark units lie *)

Section MarkUnits.

Variable isspace : char -> bool.
Variable marks : str.

Let WM := mark_or_space isspace marks.
Let mp := marks_pattern isspace marks.

(** A mark unit is a run of whitespace and marks that holds a mark. *)
Lemma hits_are_runs :
  forall s g, In (Hit g) (pieces mp s) ->
    forallb WM g = true /\ has_mark marks g = true.
Proof.
  intros s. induction s as [|c s Hmiss IH|s Hhit IH]
    using (mark_scan_ind isspace marks); intros g H.
  - contradiction.
  - unfold mp in H. rewrite pieces_marks_lit in H by exact Hmiss.
    destruct H as [H|H]; [discriminate | now apply IH].
  - unfold mp in H. rewrite pieces_marks_hit in H by exact Hhit.
    destruct H as [H|H]; [|now apply IH].
    injection H as <-. split; [apply take_while_all | exact Hhit].
Qed.

Lemma pieces_text (s : str) : concat (map piece_text (pieces mp s)) = s.
Proof.
  induction s as [|c s Hmiss IH|s Hhit IH] using (mark_scan_ind isspace marks).
  - reflexivity.
  - unfold mp. rewrite pieces_marks_lit by exact Hmiss.
    cbn [map concat piece_text app]. fold mp. now rewrite IH.
  - unfold mp. rewrite pieces_marks_hit by exact Hhit.
    cbn [map concat piece_text]. fold mp. rewrite IH. apply take_drop_while.
Qed.

Lemma take_while_app_all (p : char -> bool) (g t : str) :
  forallb p g = true -> take_while p (g ++ t) = g ++ take_while p t.
Proof.
  induction g as [|c g IH]; intros H; [reflexivity|].
  cbn [forallb] in H. apply andb_true_iff in H as [Hc Hg].
  cbn [app take_while]. now rewrite Hc, IH.
Qed.

(** A match starts wherever such a run lies ahead. *)
Lemma run_ahead_hit (g t : str) :
  forallb WM g = true -> has_mark marks g = true ->
  hit isspace marks (g ++ t) = true.
Proof.
  intros Hall Hm. unfold hit, has_mark. fold WM.
  rewrite take_while_app_all by exact Hall.
  rewrite existsb_app. unfold has_mark in Hm. now rewrite Hm.
Qed.

Lemma starts_first_hit (el g : str) :
  startswith el g = true ->
  forallb WM g = true -> has_mark marks g = true ->
  exists g' ps, pieces mp el = Hit g' :: ps.
Proof.
  intros Hs Hall Hm. apply startswith_inv in Hs as [t ->].
  unfold mp. rewrite pieces_marks_hit by now apply run_ahead_hit.
  now eexists _, _.
Qed.

Lemma ends_last_hit (g : str) :
  forallb WM g = true -> has_mark marks g = true ->
  forall s y, s = y ++ g -> exists ps g', pieces mp s = ps ++ [Hit g'].
Proof.
  intros Hall Hm s. pattern s. apply (mark_scan_ind isspace marks); clear s.
  1: intros y E.
  2: intros c s Hmiss IH y E.
  3: intros s Hhit IH y E.
  - symmetry in E. apply app_eq_nil in E as [_ ->]. discriminate.
  - destruct y as [|c' y].
    + cbn [app] in E. rewrite E in Hmiss.
      rewrite <- (app_nil_r g) in Hmiss.
      rewrite run_ahead_hit in Hmiss by assumption. discriminate.
    + injection E as <- E. destruct (IH _ E) as (ps & g' & Eps).
      exists (Lit c :: ps), g'. unfold mp. rewrite pieces_marks_lit by exact Hmiss.
      fold mp. now rewrite Eps.
  - unfold mp. rewrite pieces_marks_hit by exact Hhit. fold mp WM.
    pose proof (drop_while_head WM s) as Hhead. fold WM in IH.
    destruct (drop_while WM s) as [|c' t'] eqn:Ed.
    + exists [], (take_while WM s). reflexivity.
    + assert (Ey : exists y', c' :: t' = y' ++ g).
      { pose proof (take_drop_while WM s) as Es. rewrite Ed, E in Es.
        apply app_eq_app in Es as [l [[_ Eg]|[_ Eb]]].
        - exfalso. rewrite Eg in Hall. rewrite forallb_app in Hall.
          apply andb_true_iff in Hall as [_ Hall]. cbn [forallb] in Hall.
          cbn [no_head] in Hhead. rewrite Hhead in Hall. discriminate.
        - now exists l. }
      destruct Ey as [y' Ey]. destruct (IH _ Ey) as (ps & g' & Eps).
      exists (Hit (take_while WM s) :: ps), g'. now rewrite Eps.
Qed.

(** A single match with which the line both starts and ends is the line. *)
Lemma single_full (el : str) (m : Match) :
  finditer mp el = [m] ->
  startswith el (m_group m) = true -> endswith el (m_group m) = true ->
  m_group m = el.
Proof.
  intros Hm Hs He.
  assert (Hin : In (Hit (m_group m)) (pieces mp el)).
  { apply (matches_from_hit _ 0 m). unfold finditer in Hm. rewrite Hm. now left. }
  destruct (hits_are_runs _ _ Hin) as [Hall Hmk].
  destruct (starts_first_hit _ _ Hs Hall Hmk) as (g1 & ps & E1).
  apply endswith_inv in He as [y Ey].
  destruct (ends_last_hit _ Hall Hmk _ _ Ey) as (ps2 & g2 & E2).
  unfold finditer in Hm. rewrite E1 in Hm. cbn [matches_from] in Hm.
  injection Hm as Hm0 Hrest.
  assert (Hps : ps = []).
  { destruct ps2 as [|p2 ps2].
    - rewrite E1 in E2. cbn [app] in E2. now injection E2.
    - rewrite E1 in E2. cbn [app] in E2. injection E2 as _ E2.
      exfalso. apply (matches_from_nil _ _ Hrest g2). rewrite E2.
      apply in_or_app. right. now left. }
  subst ps. rewrite <- (pieces_text el), E1. cbn [map concat piece_text].
  rewrite app_nil_r. now rewrite <- Hm0.
Qed.

End MarkUnits.

(** * The specification *)

(** ** Restoration *)

(** C3.  In [restore], whenever the line index of the next mark differs from
    the output-line counter [num], the current chunk is emitted unchanged as
    an output line and the walk goes on at [num + 1] with the mark still
    pending.  In particular [preserve] of the two lines ["no marks here"] and
    ["wow!"] yields the chunks ["no marks here"], ["wow"] and one [End] mark
    at line index 1, and restoring the chunks ["NO MARKS HERE"], ["WOW"] with
    it yields ["NO MARKS HERE"], ["WOW!"]. *)
Theorem restore_skips_unmarked_line :
  (forall (isspace : char -> bool) (chunk : str) (text : list str)
          (m : _MarkIndex) (marks : list _MarkIndex) (num : nat),
      index m <> num ->
      exists rest,
        _restore_aux isspace text (m :: marks) (num + 1) = Ok rest /\
        _restore_aux isspace (chunk :: text) (m :: marks) num
        = Ok (chunk :: rest))
  /\
  preserve ascii_isdigit default_punctuation
    (TList [u "no marks here"; u "wow!"])
  = Ok ([u "no marks here"; u "wow"], [MarkIndex 1 (u "!") Pos_E])
  /\
  restore py_isspace (TList [u "NO MARKS HERE"; u "WOW"])
    [MarkIndex 1 (u "!") Pos_E]
  = Ok [u "NO MARKS HERE"; u "WOW!"].
Proof.
  split; [|split; run].
  intros isspace chunk text m marks num Hne.
  destruct (restore_aux_total isspace (m :: marks) text (num + 1)) as [rest E].
  exists rest. split; [exact E|].
  rewrite restore_aux_cons.
  apply Nat.eqb_neq in Hne. rewrite Hne, E. reflexivity.
Qed.

(** C6.  In [restore], when the marks are exhausted the remaining chunks are
    returned unchanged as the remaining output lines; when the chunks are
    exhausted and marks remain, the texts of all remaining marks are
    concatenated, with no separator, into one final output line.  In
    particular [preserve] of the line ["..."] followed by [restore] of no
    chunk yields the single line made of all the mark texts. *)
Theorem restore_exhaustion :
  (forall (isspace : char -> bool) (text : list str) (num : nat),
      _restore_aux isspace text [] num = Ok text)
  /\
  (forall (isspace : char -> bool) (chunks : list str),
      restore isspace (TList chunks) [] = Ok chunks)
  /\
  (forall (isspace : char -> bool) (m : _MarkIndex) (marks : list _MarkIndex)
          (num : nat),
      _restore_aux isspace [] (m :: marks) num
      = Ok [concat (map mark (m :: marks))])
  /\
  (forall (isspace : char -> bool) (m : _MarkIndex) (marks : list _MarkIndex),
      restore isspace (TList []) (m :: marks)
      = Ok [concat (map mark (m :: marks))])
  /\
  (exists marks,
      preserve ascii_isdigit default_punctuation (TList [u "..."])
      = Ok ([], marks) /\
      marks <> [] /\
      restore py_isspace (TList []) marks = Ok [concat (map mark marks)] /\
      concat (map mark marks) = u "...").
Proof.
  split; [|split; [|split; [|split]]].
  - intros. apply restore_aux_no_marks.
  - intros. apply restore_aux_no_marks.
  - intros. apply restore_aux_no_text.
  - intros. apply restore_aux_no_text.
  - exists [MarkIndex 0 (u "...") Pos_A].
    split; [run|]. split; [discriminate|].
    split; run.
Qed.

(** C10.  In [restore], whenever the line index of the next mark equals the
    counter and its position is [Alone] while a chunk remains, the mark text
    is emitted as a line of its own and the walk goes on with the chunk
    stripped of its trailing whitespace, although no mark was attached to
    it; with no mark left the stripped chunk is the next output line.  The
    right-trim comes before the branch on the position: for all four
    positions the result is that of the walk on the stripped chunk. *)
Theorem alone_trims_next_chunk
    (isspace : char -> bool) (current : _MarkIndex) (chunk : str)
    (text : list str) (marks : list _MarkIndex) (num : nat) :
  index current = num ->
  (position current = Pos_A ->
   exists rest,
     _restore_aux isspace (rstrip isspace chunk :: text) marks (num + 1)
     = Ok rest /\
     _restore_aux isspace (chunk :: text) (current :: marks) num
     = Ok (mark current :: rest) /\
     (marks = [] -> rest = rstrip isspace chunk :: text))
  /\
  _restore_aux isspace (chunk :: text) (current :: marks) num
  = _restore_aux isspace (rstrip isspace chunk :: text) (current :: marks) num.
Proof.
  intros Hidx. apply Nat.eqb_eq in Hidx. split.
  - intros Hpos.
    destruct (restore_aux_total isspace marks (rstrip isspace chunk :: text)
                (num + 1)) as [rest E].
    exists rest. split; [exact E|]. split.
    + rewrite restore_aux_cons, Hidx. unfold _restore_current.
      cbn [getitem nth_error bind]. rewrite Hpos.
      change (skipn 1 (chunk :: text)) with text.
      change (skipn 1 (current :: marks)) with marks.
      now rewrite E.
    + intros ->. rewrite restore_aux_no_marks in E. now injection E.
  - rewrite !restore_aux_cons, Hidx. apply restore_current_trims.
Qed.

(** ** Removal *)

(** C8.  [remove] is idempotent: for every input text, a single string or a
    list of strings, applying [remove] twice yields the same result as
    applying it once; [remove] replaces every mark unit by a single space
    and trims the leading and trailing whitespace of the line. *)
Theorem remove_idempotent (isspace : char -> bool) (value : str) (t : text) :
  remove isspace (configured isspace value)
    (remove isspace (configured isspace value) t)
  = remove isspace (configured isspace value) t.
Proof.
  destruct t as [s|l]; cbn [remove].
  - f_equal. apply remove_line_idem.
  - f_equal. rewrite map_map. apply map_ext. intros s. apply remove_line_idem.
Qed.

(** ** Preservation *)

Lemma in_marks_In (marks : str) (c : char) :
  in_marks marks c = true <-> In c marks.
Proof.
  unfold in_marks. rewrite existsb_exists. split.
  - intros (x & Hx & E). apply chr_eqb_eq in E. now subst.
  - intros H. exists c. split; [exact H | apply chr_eqb_refl].
Qed.

Lemma in_marks_nodup (value : str) (c : char) :
  in_marks (nodup N.eq_dec value) c = true <-> In c value.
Proof. rewrite in_marks_In. apply nodup_In. Qed.

Lemma getitem_nth {A} (l : list A) (i : nat) (a : A) :
  getitem l i = Ok a <-> nth_error l i = Some a.
Proof.
  unfold getitem. destruct (nth_error l i); split; intros H;
    try discriminate; now injection H as ->.
Qed.

Lemma getlast_nth {A} (l : list A) (a : A) :
  getlast l = Ok a -> nth_error l (length l - 1) = Some a.
Proof.
  intros H. apply getlast_inv in H as [l' ->].
  rewrite length_app. cbn [length].
  replace (length l' + 1 - 1) with (length l') by lia.
  rewrite nth_error_app2 by lia. now rewrite Nat.sub_diag.
Qed.

(** C7.  For every input, every chunk returned by [preserve] is a non-empty
    string, and every mark record belongs to a non-empty line; an empty
    input line contributes no chunk (the chunks are those of the input
    without that line) and no mark record (none carries its index). *)
Theorem preserve_drops_empty (isdigit : char -> bool) (self : Punctuation) :
  (forall t : text,
      exists chunks recs,
        preserve isdigit self t = Ok (chunks, recs) /\
        (forall c, In c chunks -> c <> []) /\
        (forall r, In r recs ->
           exists line,
             nth_error (str2list t) (index r) = Some line /\ line <> []))
  /\
  (forall l1 l2 : list str,
      exists chunks recs recs',
        preserve isdigit self (TList (l1 ++ [] :: l2)) = Ok (chunks, recs) /\
        preserve isdigit self (TList (l1 ++ l2)) = Ok (chunks, recs') /\
        (forall r, In r recs -> index r <> length l1)).
Proof.
  split.
  - intros t. eexists _, _. split; [apply preserve_spec|]. split.
    + intros c Hc. apply filter_In in Hc as [_ Hc]. now destruct c.
    + intros r Hr. apply in_flat_map in Hr as ([n line] & Hit & Hr).
      apply in_enumerate in Hit as [_ Hnth]. rewrite Nat.sub_0_r in Hnth.
      rewrite (line_records_index _ _ _ _ Hr). cbn [fst].
      exists line. split; [exact Hnth|].
      intros ->. now rewrite line_records_empty in Hr.
  - intros l1 l2. eexists _, _, _.
    split; [apply preserve_spec|]. split.
    + rewrite preserve_spec. cbn [str2list]. f_equal. f_equal.
      rewrite !flat_map_app. cbn [flat_map].
      rewrite line_chunks_empty, !filter_app. reflexivity.
    + intros r Hr Hidx. cbn [str2list] in Hr.
      apply in_flat_map in Hr as ([n line] & Hit & Hr).
      apply in_enumerate in Hit as [_ Hnth]. rewrite Nat.sub_0_r in Hnth.
      rewrite (line_records_index _ _ _ _ Hr) in Hidx. cbn [fst] in Hidx.
      subst n. rewrite nth_error_app2, Nat.sub_diag in Hnth by lia.
      injection Hnth as <-. now rewrite line_records_empty in Hr.
Qed.

Lemma escape_digits_no_digit (isdigit : char -> bool) (line : str) :
  (forall c, In c line -> isdigit c = false) ->
  escape_digits isdigit line = Ok line.
Proof.
  intros H.
  assert (Hsub : forall sep ph s,
             (forall c, In c s -> isdigit c = false) ->
             re_sub_fn (digit_sep_digit isdigit sep) (protect ph) s = Ok s).
  { intros sep ph s Hs. unfold re_sub_fn.
    assert (E : forall pos,
               mapM (render_fn (protect ph))
                 (positions pos (pieces (digit_sep_digit isdigit sep) s))
               = Ok (map (fun c => [c]) s)).
    { induction s as [|c s IH]; intros pos; [reflexivity|].
      rewrite pieces_triple_lit.
      - cbn [positions mapM render_fn bind map].
        rewrite IH by (intros c' Hc'; apply Hs; now right). reflexivity.
      - cbn [digit_triple]. destruct s as [|x [|d2 rest]]; try reflexivity.
        now rewrite (Hs c (or_introl eq_refl)). }
    rewrite E. cbn [bind]. f_equal.
    clear. induction s as [|c s IH]; [reflexivity|].
    cbn [map concat app]. now rewrite IH. }
  unfold escape_digits. rewrite Hsub by exact H. cbn [bind]. now apply Hsub.
Qed.

(** C4.  For every line on which mark detection (run, as in the source, on
    the digit-escaped line) finds exactly one match whose text equals the
    entire line, [preserve] emits zero chunks for that line and exactly one
    mark record, carrying the whole line as mark text with position
    [Alone].  When no digit is a mark or a whitespace character the escaped
    line is the input line itself.  In particular [preserve] of ["!!!"] with
    the mark ['!'] yields zero chunks and one [Alone] record. *)
Theorem alone_line
    (isspace isdigit : char -> bool) (value line : str) (m : Match) :
  (forall el num,
      escape_digits isdigit line = Ok el ->
      finditer (_marks_re (configured isspace value)) el = [m] ->
      m_group m = el ->
      _preserve_line isdigit (configured isspace value) line num
      = Ok ([], [MarkIndex num el Pos_A]) /\
      preserve isdigit (configured isspace value) (TList [line])
      = Ok ([], [MarkIndex 0 el Pos_A]))
  /\
  ((forall c, isdigit c = true ->
              mark_or_space isspace (nodup N.eq_dec value) c = false) ->
   finditer (_marks_re (configured isspace value)) line = [m] ->
   m_group m = line ->
   preserve isdigit (configured isspace value) (TList [line])
   = Ok ([], [MarkIndex 0 line Pos_A]))
  /\
  preserve ascii_isdigit (configured py_isspace (u "!")) (TList [u "!!!"])
  = Ok ([], [MarkIndex 0 (u "!!!") Pos_A]).
Proof.
  assert (Hmain : forall el num,
      escape_digits isdigit line = Ok el ->
      finditer (_marks_re (configured isspace value)) el = [m] ->
      m_group m = el ->
      _preserve_line isdigit (configured isspace value) line num
      = Ok ([], [MarkIndex num el Pos_A]) /\
      preserve isdigit (configured isspace value) (TList [line])
      = Ok ([], [MarkIndex 0 el Pos_A])).
  { intros el num Eel Hm Hg.
    assert (Hline : forall n,
               _preserve_line isdigit (configured isspace value) line n
               = Ok ([], [MarkIndex n el Pos_A])).
    { intros n.
      destruct (preserve_line_cases isdigit (configured isspace value) line n)
        as (el' & Eel' & _ & Hc).
      rewrite Eel in Eel'. injection Eel' as <-.
      destruct Hc as [[Hm' _]|[(m0 & _ & _ & E)|(f & l & pl & rest & Hf & _ & Hn & _)]].
      - rewrite Hm in Hm'. discriminate.
      - exact E.
      - exfalso. apply Hn. rewrite Hm in Hf |- *. injection Hf as <-. now split. }
    split; [apply Hline|].
    unfold preserve.
    cbn [str2list enumerate length seq combine foldM preserve_step].
    rewrite Hline. reflexivity. }
  split; [exact Hmain|]. split; [|run].
  intros Hd Hm Hg.
  assert (Hin : In (Hit (m_group m))
                  (pieces (marks_pattern isspace (nodup N.eq_dec value)) line)).
  { apply (matches_from_hit _ 0 m). cbn [configured _marks_re] in Hm.
    unfold finditer in Hm. rewrite Hm. now left. }
  apply hits_are_runs in Hin as [Hall _]. rewrite Hg in Hall.
  assert (Hnd : forall c, In c line -> isdigit c = false).
  { intros c Hc. destruct (isdigit c) eqn:E; [|reflexivity].
    rewrite forallb_forall in Hall. specialize (Hd c E).
    rewrite (Hall c Hc) in Hd. discriminate. }
  exact (proj2 (Hmain line 0 (escape_digits_no_digit _ _ Hnd) Hm Hg)).
Qed.

(** C2.  In [preserve], for every line whose mark matches (found, as in the
    source, on the digit-escaped line) are not a single match spanning the
    whole line, each match yields one record, with the line number and the
    matched text, whose position is [Begin] exactly when the match is the
    first one and the line starts with it, [End] exactly when it is the last
    one and the line ends with it, and [Middle] in every other case. *)
Theorem position_classification
    (isspace isdigit : char -> bool) (value line : str) (num : nat) :
  exists el,
    escape_digits isdigit line = Ok el /\
    let ms := finditer (_marks_re (configured isspace value)) el in
    (~ (exists m, ms = [m] /\ m_group m = el) ->
     exists chunks recs,
       _preserve_line isdigit (configured isspace value) line num
       = Ok (chunks, recs) /\
       length recs = length ms /\
       forall i m r,
         nth_error ms i = Some m ->
         nth_error recs i = Some r ->
         index r = num /\
         mark r = m_group m /\
         (position r = Pos_B <->
          i = 0 /\ startswith el (m_group m) = true) /\
         (position r = Pos_E <->
          i = length ms - 1 /\ endswith el (m_group m) = true) /\
         (position r = Pos_I <->
          ~ (i = 0 /\ startswith el (m_group m) = true) /\
          ~ (i = length ms - 1 /\ endswith el (m_group m) = true))).
Proof.
  destruct (preserve_line_cases isdigit (configured isspace value) line num)
    as (el & Eel & _ & Hc).
  exists el. split; [exact Eel|].
  cbn [configured _marks_re] in *.
  set (mp := marks_pattern isspace (nodup N.eq_dec value)) in *.
  remember (finditer mp el) as ms eqn:Ems.
  cbv zeta. intros Hnot.
  destruct Hc as [[Hm E]|[(m0 & Hm & Hg & _)
                         |(first & last & pl & rest & Hf & Hl & _ & _ & E)]].
  - eexists _, _. split; [exact E|]. rewrite Hm. split; [reflexivity|].
    intros [|i] m r Hi; discriminate.
  - exfalso. apply Hnot. now exists m0.
  - eexists _, _. split; [exact E|].
    split; [unfold records_of; apply length_map|].
    intros i m r Hi Hr.
    unfold records_of in Hr. rewrite nth_error_map, Hi in Hr.
    cbn [option_map] in Hr. injection Hr as <-. cbn [index mark position].
    apply getitem_nth in Hf. apply getlast_nth in Hl.
    assert (H1 : match_is m first = true <-> i = 0)
      by (subst ms; exact (match_is_nth _ _ _ _ _ _ Hi Hf)).
    assert (H2 : match_is m last = true <-> i = length ms - 1)
      by (subst ms; exact (match_is_nth _ _ _ _ _ _ Hi Hl)).
    assert (Hex : ~ ((i = 0 /\ startswith el (m_group m) = true) /\
                     (i = length ms - 1 /\ endswith el (m_group m) = true))).
    { intros [[Hi0 Hs] [Hil He]]. apply Hnot. exists m.
      destruct ms as [|a [|b ms']].
      - destruct i; discriminate.
      - subst i. cbn [nth_error] in Hi. injection Hi as ->.
        split; [reflexivity|]. symmetry in Ems.
        exact (single_full _ _ _ _ Ems Hs He).
      - cbn [length] in Hil. lia. }
    assert (P1 : match_is m first && startswith el (m_group m) = true <->
                 i = 0 /\ startswith el (m_group m) = true)
      by (rewrite andb_true_iff, H1; tauto).
    assert (P2 : match_is m last && endswith el (m_group m) = true <->
                 i = length ms - 1 /\ endswith el (m_group m) = true)
      by (rewrite andb_true_iff, H2; tauto).
    unfold tag_of.
    destruct (match_is m first && startswith el (m_group m));
      destruct (match_is m last && endswith el (m_group m));
      repeat split; try discriminate; try tauto;
      try (intros _; tauto);
      try (intros H; exfalso; tauto).
Qed.

Lemma has_mark_none (marks : str) (p : char -> bool) (s : str) :
  (forall c, In c s -> in_marks marks c = false) ->
  has_mark marks (take_while p s) = false.
Proof.
  induction s as [|c s IH]; intros H; [reflexivity|].
  cbn [take_while]. destruct (p c); [|reflexivity].
  cbn [has_mark existsb]. rewrite (H c (or_introl eq_refl)).
  apply IH. intros c' Hc'. apply H. now right.
Qed.

Lemma no_marks_no_match (isspace : char -> bool) (marks : str) (s : str) :
  (forall c, In c s -> in_marks marks c = false) ->
  finditer (marks_pattern isspace marks) s = [].
Proof.
  unfold finditer. generalize 0 as pos.
  induction s as [|c s IH]; intros pos H; [reflexivity|].
  rewrite pieces_marks_lit by (apply has_mark_none; exact H).
  cbn [matches_from]. apply IH. intros c' Hc'. apply H. now right.
Qed.

Lemma Forall2_In_r {A B} (R : A -> B -> Prop) (l : list A) (l' : list B) :
  Forall2 R l l' -> forall b, In b l' -> exists a, In a l /\ R a b.
Proof.
  induction 1 as [|a b l l' Hab _ IH]; intros b' Hb; [contradiction|].
  destruct Hb as [<-|Hb].
  - exists a. split; [now left | exact Hab].
  - destruct (IH _ Hb) as (a' & Ha' & HR). exists a'. split; [now right | exact HR].
Qed.

(** C1 (amended).  For every non-empty line that holds no configured mark
    character and neither placeholder of the digit protection (the section
    sign and ['#']), under a configuration in which neither placeholder is
    a mark, [preserve] of the line yields the line itself as the only chunk
    and no mark, and [restore] of that result reproduces the line
    unchanged. *)
Theorem roundtrip_without_marks
    (isspace isdigit : char -> bool) (value line : str) :
  line <> [] ->
  (forall c, In c line -> ~ In c value) ->
  ~ In SECTION_SIGN line -> ~ In HASH line ->
  ~ In SECTION_SIGN value -> ~ In HASH value ->
  exists chunks marks,
    preserve isdigit (configured isspace value) (TList [line])
    = Ok (chunks, marks) /\
    chunks = [line] /\ marks = [] /\
    restore isspace (TList chunks) marks = Ok [line].
Proof.
  intros Hne Hline HSl HHl HSv HHv.
  assert (Hpl : _preserve_line isdigit (configured isspace value) line 0
                = Ok ([line], [])).
  { destruct (preserve_line_cases isdigit (configured isspace value) line 0)
      as (el & Eel & HF & Hc).
    assert (Hel : forall c, In c el -> in_marks (nodup N.eq_dec value) c = false).
    { intros b Hb. destruct (Forall2_In_r _ _ _ HF _ Hb) as (a & Ha & Hab).
      destruct (in_marks (nodup N.eq_dec value) b) eqn:E; [|reflexivity].
      apply in_marks_nodup in E. exfalso.
      destruct Hab as [<-|[[_ ->]|[_ ->]]];
        [exact (Hline _ Ha E) | exact (HSv E) | exact (HHv E)]. }
    pose proof (no_marks_no_match isspace _ _ Hel) as Hnone.
    cbn [configured _marks_re] in Hc. rewrite Hnone in Hc.
    destruct Hc as [[_ E]|[(m0 & Hm & _)|(f & l & pl & rest & Hf & _)]];
      [|discriminate|discriminate].
    rewrite E. now rewrite (unescape_escaped _ _ HF HSl HHl). }
  exists [line], []. split; [|split; [reflexivity|split; [reflexivity|]]].
  - unfold preserve.
    cbn [str2list enumerate length seq combine foldM preserve_step].
    rewrite Hpl. cbn [bind app filter]. now destruct line.
  - apply restore_aux_no_marks.
Qed.










(** ** Failures *)


(** * Concrete runs *)

(** The example of the docstrings of [preserve] and [restore]. *)
Example hello_my_world :
  preserve ascii_isdigit default_punctuation (TList [u "hello, my world!"])
  = Ok ([u "hello"; u "my world"],
        [MarkIndex 0 (u ", ") Pos_I; MarkIndex 0 (u "!") Pos_E])
  /\
  restore py_isspace (TList [u "hello"; u "my world"])
    [MarkIndex 0 (u ", ") Pos_I; MarkIndex 0 (u "!") Pos_E]
  = Ok [u "hello, my world!"].
Proof. split; run. Qed.

(** The matches of a substitution do not overlap: of two separators around
    one digit only the first is protected. *)
Example separators_sharing_a_digit :
  preserve ascii_isdigit default_punctuation (TList [u "1,2,3"])
  = Ok ([u "1,2"; u "3"], [MarkIndex 0 (u ",") Pos_I]).
Proof. run. Qed.

(** With no mark the pattern cannot be compiled: the configuration fails,
    though not with [ValueError]. *)
Example no_mark_configuration :
  init py_isspace (PyStr []) = Raise ReError /\
  (exists self, init py_isspace (PyStr (u "!")) = Ok self).
Proof. split; [reflexivity | now eexists]. Qed.

(** C1, as stated, fails.  The empty line holds no mark character, yet
    [preserve] returns no chunk for it and [restore] no line.  The lines
    ["a#b"] and (with a section sign in place of the ['#']) [[97; 167; 98]]
    hold no mark character either and come back as ["a.b"] and ["a,b"].
    When a placeholder is the configured mark, the lines ["3,14"] and
    ["3.14"], which do not hold it, come back with the placeholder in place
    of the separator. *)
Lemma roundtrip_counterexample :
  ((forall c, In c (@nil char) -> ~ In c _DEFAULT_MARKS) /\
   preserve ascii_isdigit default_punctuation (TList [[]]) = Ok ([], []) /\
   restore py_isspace (TList []) [] = Ok [] /\
   map (strip py_isspace) [] <> map (strip py_isspace) [[]])
  /\
  ((forall c, In c (u "a#b") -> ~ In c _DEFAULT_MARKS) /\
   preserve ascii_isdigit default_punctuation (TList [u "a#b"])
   = Ok ([u "a.b"], []) /\
   restore py_isspace (TList [u "a.b"]) [] = Ok [u "a.b"] /\
   map (strip py_isspace) [u "a.b"] <> map (strip py_isspace) [u "a#b"])
  /\
  ((forall c, In c [97; 167; 98]%N -> ~ In c _DEFAULT_MARKS) /\
   preserve ascii_isdigit default_punctuation (TList [[97; 167; 98]%N])
   = Ok ([u "a,b"], []) /\
   restore py_isspace (TList [u "a,b"]) [] = Ok [u "a,b"] /\
   map (strip py_isspace) [u "a,b"]
   <> map (strip py_isspace) [[97; 167; 98]%N])
  /\
  ((forall c, In c (u "3,14") -> ~ In c [SECTION_SIGN]) /\
   preserve ascii_isdigit (configured py_isspace [SECTION_SIGN])
     (TList [u "3,14"])
   = Ok ([u "3"; u "14"], [MarkIndex 0 [SECTION_SIGN] Pos_I]) /\
   restore py_isspace (TList [u "3"; u "14"])
     [MarkIndex 0 [SECTION_SIGN] Pos_I]
   = Ok [[51; 167; 49; 52]%N] /\
   map (strip py_isspace) [[51; 167; 49; 52]%N]
   <> map (strip py_isspace) [u "3,14"])
  /\
  ((forall c, In c (u "3.14") -> ~ In c [HASH]) /\
   preserve ascii_isdigit (configured py_isspace [HASH]) (TList [u "3.14"])
   = Ok ([u "3"; u "14"], [MarkIndex 0 [HASH] Pos_I]) /\
   restore py_isspace (TList [u "3"; u "14"]) [MarkIndex 0 [HASH] Pos_I]
   = Ok [u "3#14"] /\
   map (strip py_isspace) [u "3#14"] <> map (strip py_isspace) [u "3.14"]).
Proof.
  assert (Hfree : forall (line marks : str),
             forallb (fun c => negb (in_marks marks c)) line = true ->
             forall c, In c line -> ~ In c marks).
  { intros line marks H c Hc Hm. rewrite forallb_forall in H.
    specialize (H c Hc). apply in_marks_In in Hm. now rewrite Hm in H. }
  split; [|split; [|split; [|split]]].
  - split; [intros c []|]. split; [reflexivity|]. split; [reflexivity|].
    discriminate.
  - split; [now apply Hfree|].
    split; [run|]. split; [run|].
    vm_compute. discriminate.
  - split; [now apply Hfree|].
    split; [run|]. split; [run|].
    vm_compute. discriminate.
  - split; [now apply Hfree|].
    split; [run|]. split; [run|].
    vm_compute. discriminate.
  - split; [now apply Hfree|].
    split; [run|]. split; [run|].
    vm_compute. discriminate.
Qed.


(** ** Instances of the theorems *)

Lemma roundtrip_without_marks_witness :
  exists chunks marks,
    preserve ascii_isdigit (configured py_isspace (u "!")) (TList [u "ab"])
    = Ok (chunks, marks) /\
    chunks = [u "ab"] /\ marks = [] /\
    restore py_isspace (TList chunks) marks = Ok [u "ab"].
Proof.
  apply (roundtrip_without_marks py_isspace ascii_isdigit (u "!") (u "ab")).
  - discriminate.
  - intros c Hc Hm. vm_compute in Hc, Hm.
    destruct Hm as [<-|[]]. destruct Hc as [Hc|[Hc|[]]]; discriminate.
  - vm_compute. intros [H|[H|[]]]; discriminate.
  - vm_compute. intros [H|[H|[]]]; discriminate.
  - vm_compute. intros [H|[]]; discriminate.
  - vm_compute. intros [H|[]]; discriminate.
Defined.

Lemma position_classification_witness :
  exists chunks recs,
    _preserve_line ascii_isdigit default_punctuation (u "hello, my world!") 0
    = Ok (chunks, recs) /\
    length recs = 2.
Proof.
  destruct (position_classification py_isspace ascii_isdigit _DEFAULT_MARKS
              (u "hello, my world!") 0) as (el & Eel & H).
  vm_compute in Eel. injection Eel as <-.
  destruct H as (chunks & recs & E & Hlen & _).
  - intros (m & Hm & _). vm_compute in Hm. discriminate.
  - exists chunks, recs. split; [exact E | exact Hlen].
Defined.

Lemma restore_skips_unmarked_line_witness :
  index (MarkIndex 1 (u "!") Pos_E) <> 0 /\
  exists rest,
    _restore_aux py_isspace [u "WOW"] [MarkIndex 1 (u "!") Pos_E] (0 + 1)
    = Ok rest /\
    _restore_aux py_isspace [u "NO MARKS HERE"; u "WOW"]
      [MarkIndex 1 (u "!") Pos_E] 0
    = Ok (u "NO MARKS HERE" :: rest).
Proof.
  assert (H : index (MarkIndex 1 (u "!") Pos_E) <> 0) by (cbn [index]; lia).
  split; [exact H|].
  exact (proj1 restore_skips_unmarked_line py_isspace (u "NO MARKS HERE")
           [u "WOW"] (MarkIndex 1 (u "!") Pos_E) [] 0 H).
Defined.

Lemma alone_line_witness :
  escape_digits ascii_isdigit (u "!!!") = Ok (u "!!!") /\
  finditer (_marks_re (configured py_isspace (u "!"))) (u "!!!")
  = [mkMatch 0 3 (u "!!!")] /\
  _preserve_line ascii_isdigit (configured py_isspace (u "!")) (u "!!!") 0
  = Ok ([], [MarkIndex 0 (u "!!!") Pos_A]) /\
  preserve ascii_isdigit (configured py_isspace (u "!")) (TList [u "!!!"])
  = Ok ([], [MarkIndex 0 (u "!!!") Pos_A]).
Proof.
  assert (H1 : escape_digits ascii_isdigit (u "!!!") = Ok (u "!!!"))
    by (vm_compute; reflexivity).
  assert (H2 : finditer (_marks_re (configured py_isspace (u "!"))) (u "!!!")
               = [mkMatch 0 3 (u "!!!")]) by (vm_compute; reflexivity).
  split; [exact H1|]. split; [exact H2|].
  exact (proj1 (alone_line py_isspace ascii_isdigit (u "!") (u "!!!")
                  (mkMatch 0 3 (u "!!!"))) (u "!!!") 0 H1 H2 eq_refl).
Defined.


Lemma preserve_drops_empty_witness :
  exists chunks recs,
    preserve ascii_isdigit default_punctuation
      (TList [u "a, b"; []; u "c!"]) = Ok (chunks, recs) /\
    In (u "a") chunks /\ u "a" <> [] /\
    In (MarkIndex 2 (u "!") Pos_E) recs /\
    exists line,
      nth_error [u "a, b"; []; u "c!"] 2 = Some line /\ line <> [].
Proof.
  destruct (proj1 (preserve_drops_empty ascii_isdigit default_punctuation)
              (TList [u "a, b"; []; u "c!"]))
    as (chunks & recs & E & Hchunks & Hrecs).
  exists chunks, recs. split; [exact E|].
  vm_compute in E. injection E as <- <-.
  assert (Hc : In (u "a") [u "a"; u "b"; u "c"]) by (now left).
  assert (Hr : In (MarkIndex 2 (u "!") Pos_E)
                 [MarkIndex 0 (u ", ") Pos_I; MarkIndex 2 (u "!") Pos_E])
    by (right; now left).
  split; [exact Hc|]. split; [exact (Hchunks _ Hc)|].
  split; [exact Hr|]. exact (Hrecs _ Hr).
Defined.


Lemma alone_trims_next_chunk_witness :
  index (MarkIndex 0 (u "!!!") Pos_A) = 0 /\
  position (MarkIndex 0 (u "!!!") Pos_A) = Pos_A /\
  exists rest,
    _restore_aux py_isspace [rstrip py_isspace (u "hello  ")] [] (0 + 1)
    = Ok rest /\
    _restore_aux py_isspace [u "hello  "] [MarkIndex 0 (u "!!!") Pos_A] 0
    = Ok (u "!!!" :: rest) /\
    (@nil _MarkIndex = [] -> rest = [rstrip py_isspace (u "hello  ")]).
Proof.
  split; [reflexivity|]. split; [reflexivity|].
  exact (proj1 (alone_trims_next_chunk py_isspace
                  (MarkIndex 0 (u "!!!") Pos_A) (u "hello  ") [] [] 0 eq_refl)
           eq_refl).
Defined.

(** * Further properties *)

(** ** [remove] *)

Lemma settled_marks_are_spaces (isspace : char -> bool) (marks : str) :
  forall s prev,
    settled isspace marks prev s ->
    forall c, In c s -> in_marks marks c = true -> c = SPACE.
Proof.
  induction s as [|x s IH]; intros prev H c Hc Hm; [contradiction|].
  destruct H as [H1 H2]. destruct Hc as [<-|Hc].
  - now destruct (H1 Hm).
  - exact (IH _ H2 c Hc Hm).
Qed.

Lemma remove_settled (isspace : char -> bool) (value : str) (t : text) :
  forall line,
    In line (text_lines (remove isspace (configured isspace value) t)) ->
    settled isspace (nodup N.eq_dec value) None line.
Proof.
  assert (H : forall s,
             settled isspace (nodup N.eq_dec value) None
               (remove_aux isspace (configured isspace value) s)).
  { intros s. unfold remove_aux. cbn [configured _marks_re].
    apply settled_strip. now apply sub_settled. }
  intros line Hl. destruct t as [s|l]; cbn [remove text_lines] in Hl.
  - destruct Hl as [<-|[]]. apply H.
  - apply in_map_iff in Hl as (s & <- & _). apply H.
Qed.

(** X1.  The only configured mark that [remove] may leave in a line is the
    space (one that replaced a mark unit, when the space is itself a
    configured mark): with any other configuration the result holds no
    mark character at all. *)
Theorem remove_leaves_no_mark
    (isspace : char -> bool) (value : str) (t : text) (line : str) (c : char) :
  In line (text_lines (remove isspace (configured isspace value) t)) ->
  In c line -> In c value -> c = SPACE.
Proof.
  intros Hl Hc Hv.
  apply (settled_marks_are_spaces isspace (nodup N.eq_dec value) line None);
    [now apply (remove_settled isspace value t) | exact Hc
    | now apply in_marks_nodup].
Qed.

(** X2.  A line returned by [remove] neither starts nor ends with a
    whitespace character. *)
Theorem remove_is_stripped
    (isspace : char -> bool) (value : str) (t : text) (line : str) :
  In line (text_lines (remove isspace (configured isspace value) t)) ->
  no_head isspace line /\ no_head isspace (rev line).
Proof.
  assert (H : forall s, no_head isspace (strip isspace s) /\
                        no_head isspace (rev (strip isspace s))).
  { intros s. unfold strip. split.
    - apply rstrip_keeps_head. unfold lstrip. apply drop_while_head.
    - apply rstrip_rev_head. }
  intros Hl. destruct t as [s|l]; cbn [remove text_lines] in Hl.
  - destruct Hl as [<-|[]]. apply H.
  - apply in_map_iff in Hl as (s & <- & _). apply H.
Qed.

Lemma no_marks_all_lit (isspace : char -> bool) (marks : str) :
  forall s,
    (forall c, In c s -> in_marks marks c = false) ->
    pieces (marks_pattern isspace marks) s = map Lit s.
Proof.
  induction s as [|c s IH]; intros H; [reflexivity|].
  rewrite pieces_marks_lit by (apply has_mark_none; exact H).
  cbn [map]. rewrite IH; [reflexivity|]. intros c' Hc'. apply H. now right.
Qed.

(** X3.  On a line that holds no configured mark, [remove] only trims the
    leading and trailing whitespace. *)
Theorem remove_without_marks
    (isspace : char -> bool) (value : str) (s : str) :
  (forall c, In c s -> ~ In c value) ->
  remove isspace (configured isspace value) (TStr s) = TStr (strip isspace s).
Proof.
  intros H. cbn [remove]. unfold remove_aux, re_sub. cbn [configured _marks_re].
  rewrite no_marks_all_lit.
  - rewrite map_map. cbn [render_str]. f_equal. f_equal.
    clear. induction s as [|c s IH]; [reflexivity|].
    cbn [map concat app]. now rewrite IH.
  - intros c Hc. destruct (in_marks (nodup N.eq_dec value) c) eqn:E; [|reflexivity].
    apply in_marks_nodup in E. now elim (H c Hc).
Qed.

(** ** The chunks of a line are the texts between its mark units *)

Lemma join_cons (sep x : str) (l : list str) :
  l <> [] -> join sep (x :: l) = x ++ sep ++ join sep l.
Proof. destruct l; [congruence | reflexivity]. Qed.

Lemma split_join (sep : str) :
  sep <> [] ->
  forall fuel s, length s < fuel -> join sep (split_from fuel sep s) = s.
Proof.
  intros Hsep. induction fuel as [|fuel IH]; intros s Hlen; [lia|].
  cbn [split_from]. destruct (startswith s sep) eqn:E.
  - apply startswith_inv in E as [t ->].
    rewrite skipn_app, skipn_all, Nat.sub_diag. cbn [skipn app].
    assert (Ht : length t < fuel).
    { rewrite length_app in Hlen. destruct sep; [congruence|].
      cbn [length] in Hlen. lia. }
    specialize (IH t Ht).
    rewrite join_cons by apply split_from_nonempty.
    now rewrite IH.
  - destruct s as [|c s]; [reflexivity|]. cbn [length] in Hlen.
    specialize (IH s ltac:(lia)).
    destruct (split_from fuel sep s) as [|p ps] eqn:Es;
      [now apply split_from_nonempty in Es|].
    destruct ps as [|q ps]; cbn [join app] in IH |- *; now rewrite IH.
Qed.

Lemma split_from_hit (fuel : nat) (sep s : str) :
  startswith s sep = true ->
  split_from (S fuel) sep s = [] :: split_from fuel sep (skipn (length sep) s).
Proof. intros H. cbn [split_from]. now rewrite H. Qed.

Lemma split_from_miss (fuel : nat) (sep : str) (c : char) (s : str) :
  startswith (c :: s) sep = false ->
  split_from (S fuel) sep (c :: s) =
  match split_from fuel sep s with
  | p :: ps => (c :: p) :: ps
  | [] => [[c]]
  end.
Proof. intros H. cbn [split_from]. now rewrite H. Qed.

(** Where the separator first occurs after [pre], [split] cuts there. *)
Lemma split_first (sep rest : str) :
  sep <> [] ->
  forall pre,
    (forall a b, pre = a ++ b -> b <> [] ->
                 startswith (b ++ sep ++ rest) sep = false) ->
    split_from (S (length (pre ++ sep ++ rest))) sep (pre ++ sep ++ rest)
    = pre :: split_from (S (length rest)) sep rest.
Proof.
  intros Hsep. induction pre as [|x pre IH]; intros Hpre.
  - cbn [app]. rewrite split_from_hit by apply startswith_app.
    rewrite skipn_app, skipn_all, Nat.sub_diag. cbn [skipn app].
    f_equal. apply split_from_fuel; [exact Hsep| |lia].
    rewrite length_app. destruct sep; [congruence | cbn [length]; lia].
  - cbn [app length].
    rewrite split_from_miss by (apply (Hpre [] (x :: pre) eq_refl); discriminate).
    rewrite IH; [reflexivity|].
    intros a b E Hb. apply (Hpre (x :: a) b); [now rewrite E | exact Hb].
Qed.

Lemma cut_at_first (pl : list str) (pre rest : str) (m : _MarkIndex) :
  mark m <> [] ->
  (forall a b, pre = a ++ b -> b <> [] ->
               startswith (b ++ mark m ++ rest) (mark m) = false) ->
  cut (pl, pre ++ mark m ++ rest) m = Ok (pl ++ [pre], rest).
Proof.
  intros Hm Hpre. unfold cut, split.
  destruct (mark m) as [|x sep] eqn:E; [congruence|]. cbn [bind].
  rewrite split_first by (discriminate || exact Hpre).
  cbn [getitem nth_error bind skipn]. rewrite split_join by (discriminate || lia).
  reflexivity.
Qed.

Lemma snoc_suffix {A} (a b pre : list A) (c : A) :
  pre ++ [c] = a ++ b -> b <> [] -> exists b', b = b' ++ [c] /\ pre = a ++ b'.
Proof.
  intros E Hb. destruct (exists_last Hb) as (b' & x & ->).
  rewrite app_assoc in E. apply app_inj_tail in E as [-> ->]. now exists b'.
Qed.

Section Cuts.

Variable isspace : char -> bool.
Variable marks : str.

Local Abbreviation WM := (mark_or_space isspace marks).
Let mp := marks_pattern isspace marks.

Lemma hit_texts_groups (ps : list piece) :
  forall pos, map m_group (matches_from pos ps) = hit_texts ps.
Proof.
  induction ps as [|[c|g] ps IH]; intros pos; cbn [matches_from hit_texts map].
  - reflexivity.
  - apply IH.
  - cbn [m_group]. now rewrite IH.
Qed.

(** [split] by the text of a mark unit cuts where the unit was matched:
    the loop over the marks returns the texts between the units. *)
Lemma cuts_spec :
  forall s pre pl recs,
    map mark recs = hit_texts (pieces mp s) ->
    (forall a b, pre = a ++ b -> b <> [] ->
                 hit isspace marks (b ++ s) = false) ->
    foldM cut (pl, pre ++ s) recs =
    Ok (pl ++ fst (cut_pieces pre (pieces mp s)),
        snd (cut_pieces pre (pieces mp s))).
Proof.
  intros s. pattern s. apply (mark_scan_ind isspace marks); clear s.
  - intros pre pl recs Hrecs _. cbn [pieces scan length hit_texts] in Hrecs.
    destruct recs; [|discriminate].
    cbn [foldM pieces scan length cut_pieces fst snd]. now rewrite !app_nil_r.
  - intros c s Hmiss IH pre pl recs Hrecs Hpre.
    unfold mp in *. rewrite pieces_marks_lit in * by exact Hmiss.
    cbn [hit_texts] in Hrecs. cbn [cut_pieces].
    replace (pre ++ c :: s) with ((pre ++ [c]) ++ s)
      by (now rewrite <- app_assoc).
    apply IH; [exact Hrecs|].
    intros a b E Hb. destruct (snoc_suffix _ _ _ _ E Hb) as (b' & -> & ->).
    rewrite <- app_assoc. cbn [app].
    destruct b' as [|x b']; [exact Hmiss|].
    apply (Hpre a (x :: b') eq_refl). discriminate.
  - intros s Hhit IH pre pl recs Hrecs Hpre.
    unfold mp in *. rewrite pieces_marks_hit in * by exact Hhit.
    cbn [hit_texts] in Hrecs.
    destruct recs as [|m recs]; [discriminate|]. cbn [map] in Hrecs.
    injection Hrecs as Hm Hrecs.
    cbn [cut_pieces foldM].
    destruct (cut_pieces [] (pieces (marks_pattern isspace marks)
                               (drop_while WM s))) as [init last] eqn:Ecp.
    cbn [fst snd].
    rewrite <- (take_drop_while WM s) at 1. rewrite <- Hm.
    rewrite cut_at_first.
    + cbn [bind]. specialize (IH [] (pl ++ [pre]) recs Hrecs).
      cbn [app] in IH. refine (eq_trans (IH _) _).
      * intros a b E Hb. symmetry in E. apply app_eq_nil in E as [_ ->].
        congruence.
      * rewrite Ecp. cbn [fst snd]. now rewrite <- app_assoc.
    + rewrite Hm. now apply hit_take_nonempty.
    + intros a b E Hb. rewrite Hm, take_drop_while.
      destruct (startswith (b ++ s) (take_while WM s)) eqn:Es; [|reflexivity].
      apply startswith_inv in Es as [t Et].
      rewrite <- (Hpre a b E Hb), Et. symmetry.
      apply run_ahead_hit; [apply take_while_all | exact Hhit].
Qed.

End Cuts.

(** ** A line as its chunks and mark units *)

Lemma cut_pieces_segs :
  forall ps pre,
    fst (cut_pieces pre ps) ++ [snd (cut_pieces pre ps)] =
    (pre ++ fst (segs_of ps)) :: map snd (snd (segs_of ps)).
Proof.
  induction ps as [|[c|g] ps IH]; intros pre; cbn [cut_pieces segs_of].
  - cbn. now rewrite app_nil_r.
  - specialize (IH (pre ++ [c])). destruct (segs_of ps) as [c0 sg].
    cbn [fst snd] in *. rewrite IH. now rewrite <- app_assoc.
  - specialize (IH []). destruct (cut_pieces [] ps) as [init last].
    destruct (segs_of ps) as [c1 sg]. cbn [fst snd app map] in *.
    now rewrite IH, app_nil_r.
Qed.

Lemma hit_texts_segs (ps : list piece) :
  hit_texts ps = map fst (snd (segs_of ps)).
Proof.
  induction ps as [|[c|g] ps IH]; cbn [hit_texts segs_of]; [reflexivity| |];
    destruct (segs_of ps) as [c0 sg]; cbn [fst snd map] in *; now rewrite IH.
Qed.

Lemma segs_text (ps : list piece) :
  concat (map piece_text ps) =
  fst (segs_of ps) ++ flat_segs (fun c => c) (snd (segs_of ps)).
Proof.
  unfold flat_segs.
  induction ps as [|[c|g] ps IH]; cbn [segs_of map concat piece_text];
    [reflexivity| |];
    destruct (segs_of ps) as [c0 sg]; cbn [fst snd map concat app] in *;
    rewrite IH; [reflexivity | now rewrite app_assoc].
Qed.

Lemma segs_snoc_hit (g : str) :
  forall ps,
    segs_of (ps ++ [Hit g]) =
    (fst (segs_of ps), snd (segs_of ps) ++ [(g, [])]).
Proof.
  induction ps as [|[c|g'] ps IH]; cbn [app segs_of]; [reflexivity| |];
    rewrite IH; destruct (segs_of ps) as [c0 sg]; reflexivity.
Qed.

Lemma segs_head_hit (ps : list piece) (g c1 : str) (sg : list (str * str)) :
  segs_of ps = ([], (g, c1) :: sg) -> exists ps', ps = Hit g :: ps'.
Proof.
  destruct ps as [|[c|g'] ps]; cbn [segs_of]; [discriminate| |];
    destruct (segs_of ps) as [c0 sg0]; intros H; [discriminate|].
  injection H as -> _ _. now eexists.
Qed.

Lemma segs_last_hit :
  forall ps c0 sg g,
    segs_of ps = (c0, sg ++ [(g, [])]) -> exists ps', ps = ps' ++ [Hit g].
Proof.
  induction ps as [|[c|g'] ps IH]; intros c0 sg g H; cbn [segs_of] in H.
  - destruct sg; discriminate.
  - destruct (segs_of ps) as [c0' sg'] eqn:E. injection H as _ ->.
    destruct (IH _ _ _ eq_refl) as [ps' ->]. now exists (Lit c :: ps').
  - destruct (segs_of ps) as [c1 sg'] eqn:E. injection H as _ H.
    destruct sg as [|x sg].
    + cbn [app] in H. injection H as -> -> ->.
      destruct ps as [|[c|g2] ps]; [now exists []| |]; cbn [segs_of] in E;
        destruct (segs_of ps); discriminate.
    + cbn [app] in H. injection H as _ ->.
      destruct (IH _ _ _ eq_refl) as [ps' ->]. now exists (Hit g' :: ps').
Qed.

Lemma no_head_app (p : char -> bool) (l l' : str) :
  l <> [] -> no_head p l -> no_head p (l ++ l').
Proof. destruct l; [congruence | intros _ H; exact H]. Qed.

Lemma endswith_app (y p : str) : endswith (y ++ p) p = true.
Proof. unfold endswith. rewrite rev_app_distr. apply startswith_app. Qed.

Lemma bool_eq_iff (a b : bool) : (a = true <-> b = true) -> a = b.
Proof.
  destruct a, b; intros [H1 H2]; try reflexivity;
    [symmetry; now apply H1 | now apply H2].
Qed.

Lemma is_nil_true {A} (l : list A) : is_nil l = true <-> l = [].
Proof. destruct l; split; intros H; (reflexivity || discriminate). Qed.

Section Segments.

Variable isspace : char -> bool.
Variable marks : str.

Local Abbreviation WM := (mark_or_space isspace marks).
Local Abbreviation mp := (marks_pattern isspace marks).

(** Where no match starts, the scan starts on a chunk. *)
Lemma first_chunk (s : str) :
  hit isspace marks s = false ->
  no_head WM s ->
  no_head WM (fst (segs_of (pieces mp s))) /\
  (snd (segs_of (pieces mp s)) <> [] -> fst (segs_of (pieces mp s)) <> []).
Proof.
  intros Hmiss Hhead. destruct s as [|c s]; [split; [exact I | intros H; now elim H]|].
  rewrite pieces_marks_lit by exact Hmiss. cbn [segs_of].
  destruct (segs_of (pieces mp s)) as [c0 sg]. cbn [fst snd].
  split; [exact Hhead | discriminate].
Qed.

Lemma scan_tight (s : str) :
  tight_segs isspace marks (snd (segs_of (pieces mp s))) /\
  (snd (segs_of (pieces mp s)) <> [] ->
   no_head WM (rev (fst (segs_of (pieces mp s))))).
Proof.
  pattern s. apply (mark_scan_ind isspace marks); clear s.
  - split; [exact I | intros H; now elim H].
  - intros c s Hmiss [IH1 IH2].
    rewrite pieces_marks_lit by exact Hmiss. cbn [segs_of].
    destruct (segs_of (pieces mp s)) as [c0 sg] eqn:E. cbn [fst snd] in *.
    split; [exact IH1|]. intros Hsg. cbn [rev].
    destruct c0 as [|x c0].
    + cbn [rev app no_head].
      destruct (WM c) eqn:Hc; [|reflexivity]. exfalso.
      pose proof (miss_continues _ _ _ _ Hmiss Hc) as Hs.
      destruct s as [|c' s]; [cbn in E; injection E as <-; congruence|].
      rewrite pieces_marks_lit in E by exact Hs. cbn [segs_of] in E.
      destruct (segs_of (pieces mp s)). discriminate.
    + apply no_head_app; [|now apply IH2].
      cbn [rev]. intros H. now apply app_eq_nil in H as [_ H].
  - intros s Hhit [IH1 IH2].
    rewrite pieces_marks_hit by exact Hhit. cbn [segs_of].
    pose proof (drop_while_head WM s) as Hhead.
    pose proof (first_chunk _ (no_head_miss _ _ _ Hhead) Hhead) as [Hc1 Hc2].
    destruct (segs_of (pieces mp (drop_while WM s))) as [c1 sg] eqn:E.
    cbn [fst snd tight_segs] in *.
    split; [|intros _; exact I].
    split; [apply take_while_all|]. split; [exact Hhit|].
    split; [exact Hc1|]. split; [|exact IH1].
    intros Hsg. split; [now apply Hc2 | now apply IH2].
Qed.

Lemma tight_segs_in (sg : list (str * str)) (g c : str) :
  tight_segs isspace marks sg -> In (g, c) sg ->
  forallb WM g = true /\ has_mark marks g = true.
Proof.
  induction sg as [|[g' c'] sg IH]; intros H Hin; [contradiction|].
  destruct H as (H1 & H2 & _ & _ & H3). destruct Hin as [Hin|Hin].
  - injection Hin as <- <-. now split.
  - now apply IH.
Qed.

Lemma seg_records_nth (num : nat) (c0 : str) :
  forall sg first i,
    nth_error (seg_records num first c0 sg) i =
    match nth_error sg i with
    | Some (g, c) =>
        Some (MarkIndex num g
                (if (first && (i =? 0)) && is_nil c0 then Pos_B
                 else if (S i =? length sg) && is_nil c then Pos_E
                 else Pos_I))
    | None => None
    end.
Proof.
  induction sg as [|[g c] sg IH]; intros first i.
  - now destruct i.
  - destruct i as [|i]; cbn [seg_records nth_error length].
    + rewrite andb_true_r.
      replace (1 =? S (length sg)) with (is_nil sg)
        by (destruct sg; reflexivity).
      reflexivity.
    + rewrite IH. rewrite andb_false_r. cbn [andb].
      reflexivity.
Qed.

(** The line starts with its first mark unit exactly when no text stands
    before the unit, and ends with its last unit exactly when none stands
    after. *)
Lemma starts_iff (el g c : str) (sg : list (str * str)) :
  snd (segs_of (pieces mp el)) = (g, c) :: sg ->
  (startswith el g = true <-> fst (segs_of (pieces mp el)) = []).
Proof.
  intros E. pose proof (scan_tight el) as [Ht _]. rewrite E in Ht.
  destruct Ht as (Hall & Hm & _). split.
  - intros Hs. destruct (starts_first_hit _ _ _ _ Hs Hall Hm) as (g' & ps & Ep).
    rewrite Ep. cbn [segs_of]. now destruct (segs_of ps).
  - intros H0.
    destruct (segs_of (pieces mp el)) as [c0 sg0] eqn:Es. cbn [fst snd] in *.
    subst. destruct (segs_head_hit _ _ _ _ Es) as [ps Ep].
    rewrite <- (pieces_text isspace marks el), Ep.
    cbn [map concat piece_text]. apply startswith_app.
Qed.

Lemma ends_iff (el g c : str) (sg : list (str * str)) :
  snd (segs_of (pieces mp el)) = sg ++ [(g, c)] ->
  (endswith el g = true <-> c = []).
Proof.
  intros E. pose proof (scan_tight el) as [Ht _]. rewrite E in Ht.
  destruct (tight_segs_in _ g c Ht) as [Hall Hm];
    [apply in_or_app; right; now left|].
  split.
  - intros He. apply endswith_inv in He as [y Ey].
    destruct (ends_last_hit _ _ _ Hall Hm _ _ Ey) as (ps & g' & Ep).
    rewrite Ep, segs_snoc_hit in E. cbn [snd] in E.
    apply app_inj_tail in E as [_ E]. now injection E.
  - intros ->.
    destruct (segs_of (pieces mp el)) as [c0 sg0] eqn:Es. cbn [snd] in E.
    subst sg0. destruct (segs_last_hit _ _ _ _ Es) as [ps Ep].
    rewrite <- (pieces_text isspace marks el), Ep.
    rewrite map_app, concat_app. cbn [map concat piece_text].
    rewrite app_nil_r. apply endswith_app.
Qed.

(** The records that [_preserve_line] builds from the matches are those of
    the chunks-and-units reading of the line. *)
Lemma records_segs (el : str) (num : nat) (first last : Match) :
  getitem (finditer mp el) 0 = Ok first ->
  getlast (finditer mp el) = Ok last ->
  records_of el num first last (finditer mp el) =
  seg_records num true (fst (segs_of (pieces mp el)))
    (snd (segs_of (pieces mp el))).
Proof.
  intros Hf Hl. apply getitem_nth in Hf. apply getlast_nth in Hl.
  assert (Hg : map m_group (finditer mp el)
               = map fst (snd (segs_of (pieces mp el)))).
  { unfold finditer. now rewrite hit_texts_groups, hit_texts_segs. }
  assert (Hlen : length (finditer mp el)
                 = length (snd (segs_of (pieces mp el)))).
  { rewrite <- (length_map m_group), Hg. apply length_map. }
  apply nth_error_ext. intros i.
  unfold records_of. rewrite nth_error_map, seg_records_nth.
  pose proof (f_equal (fun l => nth_error l i) Hg) as Hi. cbn beta in Hi.
  rewrite !nth_error_map in Hi.
  destruct (nth_error (finditer mp el) i) as [m|] eqn:Em;
    destruct (nth_error (snd (segs_of (pieces mp el))) i) as [[g c]|] eqn:Es;
    cbn [option_map fst] in Hi; try discriminate; [|reflexivity].
  injection Hi as Hi. cbn [option_map]. rewrite Hi. f_equal. f_equal.
  unfold tag_of. rewrite Hi.
  pose proof (match_is_nth _ _ _ _ _ _ Em Hf) as H1.
  pose proof (match_is_nth _ _ _ _ _ _ Em Hl) as H2.
  assert (B1 : match_is m first && startswith el g
               = (true && (i =? 0)) && is_nil (fst (segs_of (pieces mp el)))).
  { apply bool_eq_iff. cbn [andb]. rewrite !andb_true_iff, H1, Nat.eqb_eq.
    rewrite is_nil_true. split; intros [-> H]; (split; [reflexivity|]).
    - destruct (snd (segs_of (pieces mp el))) as [|[g0 c1] sg] eqn:E;
        [discriminate|]. cbn [nth_error] in Es. injection Es as -> ->.
      now apply (starts_iff _ _ _ _ E).
    - destruct (snd (segs_of (pieces mp el))) as [|[g0 c1] sg] eqn:E;
        [discriminate|]. cbn [nth_error] in Es. injection Es as -> ->.
      now apply (starts_iff _ _ _ _ E). }
  assert (B2 : match_is m last && endswith el g
               = (S i =? length (snd (segs_of (pieces mp el)))) && is_nil c).
  { apply bool_eq_iff. rewrite !andb_true_iff, H2, Nat.eqb_eq, is_nil_true.
    assert (Hi' : i < length (snd (segs_of (pieces mp el))))
      by (apply nth_error_Some; congruence).
    assert (Hends : S i = length (snd (segs_of (pieces mp el))) ->
                    (endswith el g = true <-> c = [])).
    { intros Hlast.
      destruct (exists_last (l := snd (segs_of (pieces mp el))))
        as (sg & [g' c'] & E); [intros H; rewrite H in Hi'; cbn in Hi'; lia|].
      rewrite E in Es, Hlast. rewrite length_app in Hlast. cbn [length] in Hlast.
      rewrite nth_error_app2 in Es by lia.
      replace (i - length sg) with 0 in Es by lia. cbn [nth_error] in Es.
      injection Es as -> ->. exact (ends_iff _ _ _ _ E). }
    rewrite Hlen.
    split; intros [Hlast H]; (split; [lia|]); apply Hends; (lia || assumption). }
  rewrite B1, B2. reflexivity.
Qed.

End Segments.

Lemma preserve_line_segs (isspace isdigit : char -> bool) (value line : str)
    (num : nat) :
  exists el,
    escape_digits isdigit line = Ok el /\
    Forall2 escaped_as line el /\
    _preserve_line isdigit (configured isspace value) line num =
    Ok (line_result num el
          (fst (segs_of (pieces (marks_pattern isspace (nodup N.eq_dec value)) el)))
          (snd (segs_of (pieces (marks_pattern isspace (nodup N.eq_dec value)) el)))).
Proof.
  destruct (preserve_line_cases isdigit (configured isspace value) line num)
    as (el & Eel & HF & Hc).
  exists el. split; [exact Eel|]. split; [exact HF|].
  cbn [configured _marks_re] in Hc.
  set (mp := marks_pattern isspace (nodup N.eq_dec value)) in *.
  assert (Hg : map m_group (finditer mp el) = map fst (snd (segs_of (pieces mp el)))).
  { unfold finditer. now rewrite hit_texts_groups, hit_texts_segs. }
  pose proof (pieces_text isspace (nodup N.eq_dec value) el) as Htext.
  fold mp in Htext. rewrite segs_text in Htext.
  destruct (segs_of (pieces mp el)) as [c0 sg] eqn:Es. cbn [fst snd] in *.
  unfold line_result.
  destruct Hc as [[Hm E]|[(m0 & Hm & Hgm & E)
                         |(first & last & pl & rest & Hf & Hl & Hn & Hcut & E)]].
  - rewrite E, Hm in *. destruct sg; [|discriminate].
    unfold flat_segs in Htext. cbn [map concat] in Htext.
    rewrite app_nil_r in Htext. subst c0.
    cbn [map seg_records]. now destruct el.
  - rewrite E, Hm in *. destruct sg as [|[g c] [|x sg]]; try discriminate.
    cbn [map m_group fst] in Hg. injection Hg as Hg.
    unfold flat_segs in Htext. cbn [map concat fst snd] in Htext.
    rewrite app_nil_r in Htext.
    assert (Hlen : length c0 + length c = 0).
    { apply (f_equal (@length char)) in Htext. rewrite !length_app in Htext.
      rewrite <- Hg, Hgm in Htext. lia. }
    destruct c0; [|cbn [length] in Hlen; lia].
    destruct c; [|cbn [length] in Hlen; lia]. reflexivity.
  - rewrite E.
    assert (Halone : alone_segs c0 sg = false).
    { destruct (alone_segs c0 sg) eqn:Ea; [|reflexivity]. exfalso. apply Hn.
      destruct c0; [|discriminate]. destruct sg as [|[g c] sg]; [discriminate|].
      destruct c; [|discriminate]. destruct sg; [|discriminate].
      unfold flat_segs in Htext. cbn [map concat fst snd app] in Htext.
      rewrite !app_nil_r in Htext.
      destruct (finditer mp el) as [|m [|m' ms]]; try discriminate.
      cbn [map] in Hg. injection Hg as Hg.
      cbn [getitem nth_error] in Hf. injection Hf as <-.
      split; [reflexivity | congruence]. }
    rewrite Halone. f_equal. f_equal.
    + assert (Hpair : Ok (pl, rest) =
                      Ok (fst (cut_pieces [] (pieces mp el)),
                          snd (cut_pieces [] (pieces mp el)))).
      { rewrite <- Hcut.
        apply (cuts_spec isspace (nodup N.eq_dec value) el [] []).
        - unfold records_of. rewrite map_map. cbn [mark].
          unfold finditer. apply hit_texts_groups.
        - intros a b Eab Hb. symmetry in Eab.
          apply app_eq_nil in Eab as [_ ->]. congruence. }
      injection Hpair as -> ->.
      rewrite cut_pieces_segs, Es. reflexivity.
    + unfold mp. rewrite records_segs by assumption. fold mp. now rewrite Es.
Qed.

(** ** One step of [restore], for each position *)

Section RestoreSteps.

Variable isspace : char -> bool.

Lemma restore_step_B (m : _MarkIndex) (t0 : str) (text : list str)
    (marks : list _MarkIndex) (n : nat) :
  index m = n -> position m = Pos_B ->
  _restore_aux isspace (t0 :: text) (m :: marks) n =
  _restore_aux isspace ((mark m ++ rstrip isspace t0) :: text) marks n.
Proof.
  intros Hi Hp. rewrite restore_aux_cons. apply Nat.eqb_eq in Hi. rewrite Hi.
  unfold _restore_current. cbn [getitem nth_error bind]. now rewrite Hp.
Qed.

Lemma restore_step_E (m : _MarkIndex) (t0 : str) (text : list str)
    (marks : list _MarkIndex) (n : nat) :
  index m = n -> position m = Pos_E ->
  _restore_aux isspace (t0 :: text) (m :: marks) n =
  (rest <- _restore_aux isspace text marks (n + 1) ;;
   Ok ((rstrip isspace t0 ++ mark m) :: rest)).
Proof.
  intros Hi Hp. rewrite restore_aux_cons. apply Nat.eqb_eq in Hi. rewrite Hi.
  unfold _restore_current. cbn [getitem nth_error bind]. now rewrite Hp.
Qed.

Lemma restore_step_I (m : _MarkIndex) (t0 t1 : str) (text : list str)
    (marks : list _MarkIndex) (n : nat) :
  index m = n -> position m = Pos_I ->
  _restore_aux isspace (t0 :: t1 :: text) (m :: marks) n =
  _restore_aux isspace ((rstrip isspace t0 ++ mark m ++ t1) :: text) marks n.
Proof.
  intros Hi Hp. rewrite restore_aux_cons. apply Nat.eqb_eq in Hi. rewrite Hi.
  unfold _restore_current. cbn [getitem nth_error bind]. now rewrite Hp.
Qed.

Lemma restore_step_I_last (m : _MarkIndex) (t0 : str)
    (marks : list _MarkIndex) (n : nat) :
  index m = n -> position m = Pos_I ->
  _restore_aux isspace [t0] (m :: marks) n =
  _restore_aux isspace [rstrip isspace t0 ++ mark m] marks n.
Proof.
  intros Hi Hp. rewrite restore_aux_cons. apply Nat.eqb_eq in Hi. rewrite Hi.
  unfold _restore_current. cbn [getitem nth_error bind]. now rewrite Hp.
Qed.

(** A chunk with no mark left for its line is an output line. *)
Lemma restore_finish (acc : str) (text : list str) (marks : list _MarkIndex)
    (n : nat) (r : list str) :
  (forall m, hd_error marks = Some m -> index m <> n) ->
  _restore_aux isspace text marks (n + 1) = Ok r ->
  _restore_aux isspace (acc :: text) marks n = Ok (acc :: r).
Proof.
  intros Hm Hr. destruct marks as [|m marks].
  - rewrite restore_aux_no_marks in *. now injection Hr as <-.
  - rewrite restore_aux_cons. specialize (Hm m eq_refl).
    apply Nat.eqb_neq in Hm. now rewrite Hm, Hr.
Qed.

End RestoreSteps.

(** ** [unescape] on chunks and on mark units *)

Lemma unescape_app (a b : str) : unescape (a ++ b) = unescape a ++ unescape b.
Proof. rewrite !unescape_map. apply map_app. Qed.

Lemma unescape_nil : unescape [] = [].
Proof. reflexivity. Qed.

Lemma unescape_nonempty (c : str) : nonempty (unescape c) = nonempty c.
Proof. rewrite unescape_map. now destruct c. Qed.

Lemma unescape_is_nil (c : str) : unescape c = [] <-> c = [].
Proof.
  rewrite unescape_map. destruct c; split; intros H; (reflexivity || discriminate).
Qed.

Lemma unescape_rev (c : str) : unescape (rev c) = rev (unescape c).
Proof. rewrite !unescape_map. apply map_rev. Qed.

Lemma rstrip_nil (isspace : char -> bool) : rstrip isspace [] = [].
Proof. reflexivity. Qed.

(** Trimming leaves a text that starts outside whitespace non-empty, and
    does not reach into the text before it. *)
Lemma rstrip_all_space (isspace : char -> bool) (s : str) :
  rstrip isspace s = [] -> forallb isspace s = true.
Proof.
  unfold rstrip, lstrip. intros H.
  assert (Hd : drop_while isspace (rev s) = []).
  { apply (f_equal (@rev char)) in H. now rewrite rev_involutive in H. }
  assert (Hall : forall l, drop_while isspace l = [] -> forallb isspace l = true).
  { induction l as [|x l IH]; [reflexivity|]. cbn [drop_while forallb].
    destruct (isspace x); [exact IH | discriminate]. }
  apply Hall in Hd. rewrite forallb_forall in *. intros x Hx.
  apply Hd. now apply in_rev in Hx.
Qed.

Lemma rstrip_nonempty (isspace : char -> bool) (s : str) :
  s <> [] -> no_head isspace s -> rstrip isspace s <> [].
Proof.
  intros Hs Hh E. apply rstrip_all_space in E.
  destruct s as [|x s]; [congruence|]. cbn [no_head forallb] in *.
  rewrite Hh in E. discriminate.
Qed.

Lemma drop_while_app (p : char -> bool) (a b : str) :
  drop_while p a <> [] -> drop_while p (a ++ b) = drop_while p a ++ b.
Proof.
  induction a as [|x a IH]; cbn [drop_while app]; [congruence|].
  destruct (p x); [exact IH | reflexivity].
Qed.

Lemma rstrip_app (isspace : char -> bool) (a b : str) :
  rstrip isspace b <> [] ->
  rstrip isspace (a ++ b) = a ++ rstrip isspace b.
Proof.
  unfold rstrip, lstrip. intros H. rewrite rev_app_distr.
  rewrite drop_while_app.
  - now rewrite rev_app_distr, rev_involutive.
  - intros E. apply H. now rewrite E.
Qed.

Section Unescaped.

Variable isspace : char -> bool.
Variable marks : str.

Local Abbreviation WM := (mark_or_space isspace marks).

Hypothesis comma_kept : isspace COMMA = false.
Hypothesis dot_kept : isspace DOT = false.
Hypothesis section_outside : WM SECTION_SIGN = false.
Hypothesis hash_outside : WM HASH = false.

Lemma outside_not_space (x : char) : WM x = false -> isspace x = false.
Proof. unfold mark_or_space. now intros [H _]%orb_false_iff. Qed.

(** A mark unit holds no placeholder: it is returned as it is. *)
Lemma unescape_run (g : str) : forallb WM g = true -> unescape g = g.
Proof.
  rewrite unescape_map. induction g as [|x g IH]; [reflexivity|].
  cbn [forallb map]. intros [Hx Hg]%andb_prop. rewrite (IH Hg). f_equal.
  destruct (chr_eqb HASH x) eqn:E1.
  { apply chr_eqb_eq in E1. subst x. congruence. }
  destruct (chr_eqb SECTION_SIGN x) eqn:E2; [|reflexivity].
  apply chr_eqb_eq in E2. subst x. congruence.
Qed.

(** A chunk that starts outside the run class starts outside whitespace once
    unescaped. *)
Lemma unescape_head (c : str) : no_head WM c -> no_head isspace (unescape c).
Proof.
  rewrite unescape_map. destruct c as [|x c]; [easy|]. cbn [no_head map].
  intros Hx. destruct (chr_eqb HASH x); [exact dot_kept|].
  destruct (chr_eqb SECTION_SIGN x); [exact comma_kept|].
  now apply outside_not_space.
Qed.

Lemma unescape_last (c : str) :
  no_head WM (rev c) -> rstrip isspace (unescape c) = unescape c.
Proof.
  intros H. apply rstrip_fixed. rewrite <- unescape_rev. now apply unescape_head.
Qed.

Lemma rstrip_keeps_chunk (a c : str) :
  c <> [] -> no_head WM (rev c) ->
  rstrip isspace (a ++ unescape c) = a ++ unescape c.
Proof.
  intros Hc H. apply rstrip_fixed. rewrite rev_app_distr.
  apply no_head_app.
  - intros E. apply (f_equal (@rev char)) in E. rewrite rev_involutive in E.
    cbn [rev] in E. apply (proj1 (unescape_is_nil c)) in E. congruence.
  - rewrite <- unescape_rev. now apply unescape_head.
Qed.

(** The rebuilt line is the text of the chunks and units, right-trimmed when
    its only mark unit is at its beginning. *)
Lemma restored_line_text (c0 : str) (sg : list (str * str)) :
  tight_segs isspace marks sg ->
  restored_line isspace unescape c0 sg =
  unescape c0 ++ flat_segs unescape sg \/
  restored_line isspace unescape c0 sg =
  rstrip isspace (unescape c0 ++ flat_segs unescape sg).
Proof.
  intros Ht. destruct c0 as [|x c0]; [|now left].
  destruct sg as [|[g c] sg]; [now left|].
  cbn [restored_line]. rewrite unescape_nil. cbn [app].
  unfold flat_segs. cbn [map concat fst snd]. fold (flat_segs unescape sg).
  cbn [tight_segs] in Ht. destruct Ht as (Hg & _ & Hc & Hmid & Ht).
  destruct sg as [|gc sg].
  - unfold flat_segs. cbn [map concat]. rewrite !app_nil_r.
    destruct c as [|y c]; [left; now rewrite unescape_nil, rstrip_nil|].
    right. symmetry. apply rstrip_app. apply rstrip_nonempty.
    + intros E. apply (proj1 (unescape_is_nil (y :: c))) in E. discriminate.
    + now apply unescape_head.
  - left. destruct (Hmid ltac:(discriminate)) as [_ Hlast].
    now rewrite (unescape_last _ Hlast), <- app_assoc.
Qed.

Lemma unescape_flat (sg : list (str * str)) :
  tight_segs isspace marks sg ->
  unescape (flat_segs (fun c => c) sg) = flat_segs unescape sg.
Proof.
  unfold flat_segs. induction sg as [|[g c] sg IH]; [reflexivity|].
  cbn [tight_segs map concat fst snd]. intros (Hg & _ & _ & _ & Ht).
  now rewrite !unescape_app, (unescape_run g Hg), (IH Ht).
Qed.

End Unescaped.

(** ** The walk of [_restore_aux] along the units of a line *)

(** The chunks handed to [restore] are those of [preserve], or those chunks
    transformed: [h] is what a chunk of the escaped line has become. *)
Section Walk.

Variable isspace : char -> bool.
Variable marks : str.
Variable h : str -> str.

Local Abbreviation WM := (mark_or_space isspace marks).

Hypothesis h_nil : h [] = [].
Hypothesis h_nonempty : forall c, nonempty (h c) = nonempty c.
Hypothesis h_trim :
  forall a c, c <> [] -> no_head WM (rev c) ->
    rstrip isspace (a ++ h c) = a ++ h c.

(** The records of the units after the first, walked by [_restore_aux]: the
    chunks are put back after their marks, and the line is closed when its
    records are used up. *)
Lemma walk_segs (c0 : str) (n : nat) (rest_text : list str)
    (rest_marks : list _MarkIndex) (r : list str) :
  (forall m, hd_error rest_marks = Some m -> index m <> n) ->
  _restore_aux isspace rest_text rest_marks (n + 1) = Ok r ->
  forall sg acc,
    tight_segs isspace marks sg ->
    (sg <> [] -> rstrip isspace acc = acc) ->
    _restore_aux isspace
      (acc :: filter nonempty (map h (map snd sg)) ++ rest_text)
      (seg_records n false c0 sg ++ rest_marks) n =
    Ok ((acc ++ flat_segs h sg) :: r).
Proof.
  intros Hrest Hr. induction sg as [|[g c] sg IH]; intros acc Ht Hacc.
  - cbn [map filter app seg_records]. unfold flat_segs. cbn [map concat].
    rewrite app_nil_r. now apply restore_finish.
  - cbn [tight_segs] in Ht. destruct Ht as (Hg & _ & Hc & Hmid & Ht).
    specialize (Hacc ltac:(discriminate)).
    cbn [seg_records andb map snd app]. unfold flat_segs.
    cbn [map concat fst snd]. fold (flat_segs h sg).
    destruct sg as [|gc sg].
    + cbn [is_nil andb map filter app seg_records]. unfold flat_segs.
      cbn [map concat]. rewrite !app_nil_r.
      destruct c as [|x c].
      * cbn [is_nil]. rewrite h_nil. cbn [nonempty filter app].
        rewrite restore_step_E by reflexivity. cbn [mark].
        rewrite Hr. cbn [bind]. now rewrite Hacc, app_nil_r.
      * cbn [is_nil]. cbn [filter]. rewrite h_nonempty.
        cbn [nonempty app].
        rewrite restore_step_I by reflexivity. cbn [mark]. rewrite Hacc.
        now apply restore_finish.
    + destruct (Hmid ltac:(discriminate)) as [Hne Hlast].
      cbn [is_nil andb]. cbn [filter]. rewrite h_nonempty.
      destruct c as [|x c]; [congruence|]. cbn [nonempty app].
      rewrite restore_step_I by reflexivity. cbn [mark]. rewrite Hacc.
      refine (eq_trans (IH (acc ++ g ++ h (x :: c)) Ht _) _).
      * intros _. rewrite app_assoc. now apply h_trim.
      * now rewrite <- !app_assoc.
Qed.

Lemma seg_records_first (n : nat) (c0 : str) (sg : list (str * str)) :
  c0 <> [] -> seg_records n true c0 sg = seg_records n false c0 sg.
Proof.
  intros H. destruct sg as [|[g c] sg]; [reflexivity|]. cbn [seg_records].
  destruct c0; [congruence | reflexivity].
Qed.

(** The chunks and the records of one line, walked by [_restore_aux]: they
    make one output line, and the walk goes on with the next line. *)
Lemma restore_line (c0 : str) (sg : list (str * str)) (n : nat)
    (rest_text : list str) (rest_marks : list _MarkIndex) (r : list str) :
  (forall m, hd_error rest_marks = Some m -> index m <> n) ->
  _restore_aux isspace rest_text rest_marks (n + 1) = Ok r ->
  tight_segs isspace marks sg ->
  (sg <> [] -> no_head WM (rev c0)) ->
  alone_segs c0 sg = false ->
  ~ (c0 = [] /\ sg = []) ->
  _restore_aux isspace
    (filter nonempty (map h (c0 :: map snd sg)) ++ rest_text)
    (seg_records n true c0 sg ++ rest_marks) n =
  Ok (restored_line isspace h c0 sg :: r).
Proof.
  intros Hrest Hr Ht Hc0 Hal Hne. destruct c0 as [|x c0].
  - destruct sg as [|[g c] sg]; [now elim Hne|].
    cbn [map filter]. rewrite h_nil. cbn [nonempty].
    cbn [tight_segs] in Ht. destruct Ht as (Hg & _ & Hc & Hmid & Ht).
    assert (Hcne : c <> []).
    { destruct c as [|y c]; [|discriminate].
      destruct sg as [|gc sg]; [discriminate|].
      now destruct (Hmid ltac:(discriminate)). }
    cbn [snd filter]. rewrite h_nonempty.
    destruct c as [|y c]; [congruence|]. cbn [nonempty app].
    cbn [seg_records andb is_nil app].
    rewrite restore_step_B by reflexivity. cbn [mark restored_line].
    refine (eq_trans (walk_segs [] n rest_text rest_marks r Hrest Hr sg
                        (g ++ rstrip isspace (h (y :: c))) Ht _) _).
    + intros Hsg. destruct (Hmid Hsg) as [Hne' Hlast].
      rewrite <- (app_nil_l (h (y :: c))) at 1 2.
      rewrite (h_trim [] _ Hne' Hlast). now apply h_trim.
    + now rewrite <- app_assoc.
  - rewrite seg_records_first by discriminate.
    cbn [map filter]. rewrite h_nonempty. cbn [nonempty app restored_line].
    refine (eq_trans (walk_segs (x :: c0) n rest_text rest_marks r Hrest Hr sg
                        (h (x :: c0)) Ht _) _); [|reflexivity].
    intros Hsg. apply (h_trim [] (x :: c0)); [discriminate | now apply Hc0].
Qed.

End Walk.


(** ** A line, its chunks and its units *)

Lemma Forall2_In_l {A B} (R : A -> B -> Prop) (l : list A) (l' : list B) :
  Forall2 R l l' -> forall a, In a l -> exists b, In b l' /\ R a b.
Proof.
  induction 1 as [|a b l l' Hab _ IH]; intros a' Ha; [contradiction|].
  destruct Ha as [<-|Ha].
  - exists b. split; [now left | exact Hab].
  - destruct (IH _ Ha) as (b' & Hb & HR). exists b'. split; [now right | exact HR].
Qed.

Lemma hd_error_In {A} (l : list A) (a : A) : hd_error l = Some a -> In a l.
Proof. destruct l; [discriminate|]. intros [= ->]. now left. Qed.

Section Lines.

Variable isspace isdigit : char -> bool.
Variable value : str.

Local Abbreviation marks := (nodup N.eq_dec value).
Local Abbreviation WM := (mark_or_space isspace marks).
Local Abbreviation self := (configured isspace value).

Hypothesis tables : separators_visible isspace.
Hypothesis marks_plain : placeholder_free value.

Lemma section_outside : WM SECTION_SIGN = false.
Proof.
  destruct tables as (_ & _ & H & _). destruct marks_plain as [Hm _].
  unfold mark_or_space. rewrite H. cbn [orb].
  destruct (in_marks marks SECTION_SIGN) eqn:E; [|reflexivity].
  apply in_marks_nodup in E. contradiction.
Qed.

Lemma hash_outside : WM HASH = false.
Proof.
  destruct tables as (_ & _ & _ & H). destruct marks_plain as [_ Hm].
  unfold mark_or_space. rewrite H. cbn [orb].
  destruct (in_marks marks HASH) eqn:E; [|reflexivity].
  apply in_marks_nodup in E. contradiction.
Qed.

(** A line free of placeholders, read as chunks and mark units. *)
Lemma line_view (line : str) :
  placeholder_free line ->
  exists el c0 sg,
    (forall num,
       _preserve_line isdigit self line num = Ok (line_result num el c0 sg)) /\
    Forall2 escaped_as line el /\
    el = c0 ++ flat_segs (fun c => c) sg /\
    tight_segs isspace marks sg /\
    (sg <> [] -> no_head WM (rev c0)) /\
    unescape c0 ++ flat_segs unescape sg = line.
Proof.
  intros [HS HH].
  destruct (preserve_line_segs isspace isdigit value line 0)
    as (el & Eel & HF & _).
  set (ps := pieces (marks_pattern isspace marks) el).
  exists el, (fst (segs_of ps)), (snd (segs_of ps)).
  destruct (scan_tight isspace marks el) as [Ht Hc0]. fold ps in Ht, Hc0.
  assert (Etext : el = fst (segs_of ps) ++ flat_segs (fun c => c) (snd (segs_of ps))).
  { rewrite <- segs_text. unfold ps. now rewrite pieces_text. }
  repeat split; try assumption.
  - intros num.
    destruct (preserve_line_segs isspace isdigit value line num)
      as (el' & Eel' & _ & H).
    assert (el' = el) as -> by congruence. exact H.
  - rewrite <- (unescape_flat isspace marks section_outside hash_outside _ Ht).
    rewrite <- unescape_app, <- Etext. now apply unescape_escaped.
Qed.

(** A character outside the run class is still there after the escape. *)
Lemma escaped_outside (line el : str) (x : char) :
  Forall2 escaped_as line el -> In x line -> WM x = false ->
  exists b, In b el /\ WM b = false.
Proof.
  intros HF Hx Hw. destruct (Forall2_In_l _ _ _ HF _ Hx) as (b & Hb & Hab).
  exists b. split; [exact Hb|].
  destruct Hab as [<-|[[_ ->]|[_ ->]]];
    [exact Hw | apply section_outside | apply hash_outside].
Qed.

Lemma alone_is_run (el c0 : str) (sg : list (str * str)) :
  el = c0 ++ flat_segs (fun c => c) sg ->
  tight_segs isspace marks sg ->
  alone_segs c0 sg = true -> forallb WM el = true.
Proof.
  intros -> Ht Hal. destruct c0 as [|x c0]; [|discriminate].
  destruct sg as [|[g c] sg]; [discriminate|].
  destruct c as [|y c]; [|discriminate]. destruct sg; [|discriminate].
  cbn [tight_segs] in Ht. destruct Ht as (Hg & _).
  unfold flat_segs. cbn. now rewrite !app_nil_r.
Qed.

(** The chunks and records of a line holding a character outside the run
    class make one line of the output of [_restore_aux]. *)
Lemma line_restored (line : str) (n : nat) (rest_text : list str)
    (rest_marks : list _MarkIndex) (r : list str) :
  placeholder_free line ->
  (exists x, In x line /\ WM x = false) ->
  (forall m, hd_error rest_marks = Some m -> index m <> n) ->
  _restore_aux isspace rest_text rest_marks (n + 1) = Ok r ->
  exists l,
    _restore_aux isspace
      (filter nonempty (line_chunks isdigit self line) ++ rest_text)
      (line_records isdigit self (n, line) ++ rest_marks) n = Ok (l :: r) /\
    given_back isspace line l.
Proof.
  intros Hplain (x & Hx & Hw) Hrest Hr.
  destruct (line_view line Hplain) as (el & c0 & sg & Hrun & HF & Eel & Ht & Hc0 & Etext).
  destruct (escaped_outside _ _ _ HF Hx Hw) as (b & Hb & Hbw).
  assert (Hal : alone_segs c0 sg = false).
  { destruct (alone_segs c0 sg) eqn:E; [|reflexivity].
    pose proof (alone_is_run _ _ _ Eel Ht E) as Hall.
    rewrite forallb_forall in Hall. rewrite (Hall _ Hb) in Hbw. discriminate. }
  assert (Hne : ~ (c0 = [] /\ sg = [])).
  { intros [-> ->]. subst el. contradiction. }
  exists (restored_line isspace unescape c0 sg). split.
  - unfold line_chunks, line_records. cbn [fst snd]. rewrite !Hrun.
    unfold line_result. rewrite Hal.
    destruct tables as (Hc & Hd & _ & _).
    now apply (restore_line isspace marks unescape unescape_nil unescape_nonempty
                 (rstrip_keeps_chunk isspace marks Hc Hd)).
  - unfold given_back. rewrite <- Etext.
    destruct tables as (Hc & Hd & _ & _).
    now apply (restored_line_text isspace marks Hc Hd).
Qed.

(** The lines walked one after the other. *)
Lemma lines_restored :
  forall lines start,
    (forall line, In line lines ->
       placeholder_free line /\ exists x, In x line /\ WM x = false) ->
    exists out,
      _restore_aux isspace
        (filter nonempty (flat_map (line_chunks isdigit self) lines))
        (flat_map (line_records isdigit self)
           (combine (seq start (length lines)) lines)) start = Ok out /\
      Forall2 (given_back isspace) lines out.
Proof.
  induction lines as [|line lines IH]; intros start Hgood.
  - exists []. split; [reflexivity | constructor].
  - destruct (IH (S start)) as (out & Hout & HF).
    { intros l Hl. apply Hgood. now right. }
    destruct (Hgood line (or_introl eq_refl)) as [Hplain Hx].
    cbn [length seq combine flat_map]. rewrite filter_app.
    destruct (line_restored line start
                (filter nonempty (flat_map (line_chunks isdigit self) lines))
                (flat_map (line_records isdigit self)
                   (combine (seq (S start) (length lines)) lines))
                out Hplain Hx) as (l & Hl & Hback).
    + intros m Hm.
      assert (Hin : In m (flat_map (line_records isdigit self)
                            (combine (seq (S start) (length lines)) lines))).
      { now apply hd_error_In. }
      apply in_flat_map in Hin as ([k l'] & Hk & Hm').
      apply line_records_index in Hm'. cbn [fst] in Hm'.
      apply in_enumerate in Hk as [Hk _]. lia.
    + rewrite Nat.add_1_r. exact Hout.
    + exists (l :: out). split; [exact Hl | now constructor].
Qed.

End Lines.

(** ** [preserve] followed by [restore] *)

Lemma has_mark_nonempty (marks g : str) : has_mark marks g = true -> g <> [].
Proof. intros H ->. discriminate. Qed.

(** X4. With the separators and placeholders outside whitespace and no
    placeholder among the marks, [restore] applied to what [preserve] returns
    for one line free of placeholders gives that line back, without its
    trailing whitespace when its only mark unit is at its beginning; the
    empty line gives no line at all. *)
Theorem preserve_restore_line (isspace isdigit : char -> bool)
    (value line : str) :
  separators_visible isspace ->
  placeholder_free value ->
  placeholder_free line ->
  exists chunks recs out,
    preserve isdigit (configured isspace value) (TStr line) = Ok (chunks, recs) /\
    restore isspace (TList chunks) recs = Ok out /\
    (line = [] -> out = []) /\
    (line <> [] -> exists l, out = [l] /\ given_back isspace line l).
Proof.
  intros Htab Hval Hline.
  destruct (line_view isspace isdigit value Htab Hval line Hline)
    as (el & c0 & sg & Hrun & HF & Eel & Ht & Hc0 & Etext).
  rewrite preserve_spec. cbn [str2list flat_map enumerate length seq combine].
  rewrite !app_nil_r. unfold line_chunks, line_records. cbn [fst snd].
  rewrite !Hrun. unfold line_result, restore.
  destruct (alone_segs c0 sg) eqn:Hal;
    [|destruct (list_eq_dec N.eq_dec c0 []) as [E0|E0];
      [destruct sg as [|gc sg]|]];
    cbn [fst snd]; do 3 eexists; (split; [reflexivity|]); cbn [str2list].
  - destruct c0 as [|x c0]; [|discriminate].
    destruct sg as [|[g c] sg]; [discriminate|].
    destruct c as [|y c]; [|discriminate]. destruct sg; [|discriminate].
    cbn [filter]. rewrite restore_aux_no_text. cbn [map mark concat].
    rewrite app_nil_r. unfold flat_segs in Eel, Etext.
    cbn [map concat fst snd app] in Eel, Etext.
    rewrite unescape_nil in Etext. cbn [app] in Etext.
    rewrite !app_nil_r in Eel, Etext. subst el.
    cbn [tight_segs] in Ht. destruct Ht as (_ & Hm & _).
    apply has_mark_nonempty in Hm. split; [reflexivity | split].
    + intros E. congruence.
    + intros _. exists g. split; [reflexivity | left; exact Etext].
  - subst c0. cbn [map filter seg_records].
    change (unescape []) with (@nil char).
    cbn [nonempty]. split; [reflexivity|]. cbn in Etext.
    split; [reflexivity | congruence].
  - pose proof (restore_line isspace (nodup N.eq_dec value) unescape
                  unescape_nil unescape_nonempty
                  (rstrip_keeps_chunk isspace (nodup N.eq_dec value)
                     (proj1 Htab) (proj1 (proj2 Htab))) c0 (gc :: sg) 0 [] [] []
                  ltac:(discriminate) eq_refl Ht Hc0 Hal
                  ltac:(intros [_ H]; discriminate)) as Hr.
    rewrite !app_nil_r in Hr. split; [exact Hr|].
    assert (Hne : line <> []).
    { subst c0. destruct gc as [g c]. cbn [tight_segs] in Ht.
      destruct Ht as (_ & Hm & _). apply has_mark_nonempty in Hm.
      rewrite <- Etext. change (unescape []) with (@nil char).
      unfold flat_segs.
      cbn [map concat fst snd app]. destruct g; [congruence | discriminate]. }
    split; [congruence|]. intros _. eexists. split; [reflexivity|].
    unfold given_back. rewrite <- Etext.
    now apply (restored_line_text isspace (nodup N.eq_dec value)
                 (proj1 Htab) (proj1 (proj2 Htab))).
  - pose proof (restore_line isspace (nodup N.eq_dec value) unescape
                  unescape_nil unescape_nonempty
                  (rstrip_keeps_chunk isspace (nodup N.eq_dec value)
                     (proj1 Htab) (proj1 (proj2 Htab))) c0 sg 0 [] [] []
                  ltac:(discriminate) eq_refl Ht Hc0 Hal
                  ltac:(intros [H _]; contradiction)) as Hr.
    rewrite !app_nil_r in Hr. split; [exact Hr|].
    assert (Hne : line <> []).
    { rewrite <- Etext. destruct c0 as [|x c0]; [now elim E0|].
      rewrite unescape_map. discriminate. }
    split; [congruence|]. intros _. eexists. split; [reflexivity|].
    unfold given_back. rewrite <- Etext.
    now apply (restored_line_text isspace (nodup N.eq_dec value)
                 (proj1 Htab) (proj1 (proj2 Htab))).
Qed.

(** X5. Under the same conditions, [restore] applied to what [preserve]
    returns for a sequence of lines, each free of placeholders and holding a
    character that is neither whitespace nor a mark, gives as many lines,
    each the original one up to its trailing whitespace. *)
Theorem preserve_restore_lines (isspace isdigit : char -> bool)
    (value : str) (lines : list str) :
  separators_visible isspace ->
  placeholder_free value ->
  (forall line, In line lines ->
     placeholder_free line /\
     exists x, In x line /\ isspace x = false /\ ~ In x value) ->
  exists chunks recs out,
    preserve isdigit (configured isspace value) (TList lines) = Ok (chunks, recs) /\
    restore isspace (TList chunks) recs = Ok out /\
    Forall2 (given_back isspace) lines out.
Proof.
  intros Htab Hval Hgood. rewrite preserve_spec. cbn [str2list].
  destruct (lines_restored isspace isdigit value Htab Hval lines 0)
    as (out & Hout & HF).
  { intros line Hl. destruct (Hgood line Hl) as (Hp & x & Hx & Hs & Hm).
    split; [exact Hp|]. exists x. split; [exact Hx|].
    unfold mark_or_space. rewrite Hs. cbn [orb].
    destruct (in_marks (nodup N.eq_dec value) x) eqn:E; [|reflexivity].
    apply in_marks_nodup in E. contradiction. }
  do 3 eexists. split; [reflexivity|]. split; [exact Hout | exact HF].
Qed.

(** ** The marks as a set *)

Lemma take_while_ext (p q : char -> bool) (s : str) :
  (forall c, p c = q c) -> take_while p s = take_while q s.
Proof.
  intros H. induction s as [|c s IH]; [reflexivity|].
  cbn [take_while]. now rewrite H, IH.
Qed.

Lemma drop_while_ext (p q : char -> bool) (s : str) :
  (forall c, p c = q c) -> drop_while p s = drop_while q s.
Proof.
  intros H. induction s as [|c s IH]; [reflexivity|].
  cbn [drop_while]. now rewrite H, IH.
Qed.

Lemma existsb_ext (p q : char -> bool) (s : str) :
  (forall c, p c = q c) -> existsb p s = existsb q s.
Proof.
  intros H. induction s as [|c s IH]; [reflexivity|].
  cbn [existsb]. now rewrite H, IH.
Qed.

Section SameMarks.

Variable isspace : char -> bool.
Variable m1 m2 : str.
Hypothesis same : forall c, in_marks m1 c = in_marks m2 c.

Lemma mark_or_space_same (c : char) :
  mark_or_space isspace m1 c = mark_or_space isspace m2 c.
Proof. unfold mark_or_space. now rewrite same. Qed.

Lemma hit_same (s : str) : hit isspace m1 s = hit isspace m2 s.
Proof.
  unfold hit, has_mark.
  rewrite (take_while_ext _ _ s mark_or_space_same).
  now apply existsb_ext.
Qed.

(** The scan depends on the marks only through the set they form. *)
Lemma pieces_same (s : str) :
  pieces (marks_pattern isspace m1) s = pieces (marks_pattern isspace m2) s.
Proof.
  pattern s. apply (mark_scan_ind isspace m1); clear s.
  - reflexivity.
  - intros c s Hmiss IH. rewrite (pieces_marks_lit isspace m1 c s Hmiss).
    rewrite hit_same in Hmiss. rewrite (pieces_marks_lit isspace m2 c s Hmiss).
    now rewrite IH.
  - intros s Hhit IH. rewrite (pieces_marks_hit isspace m1 s Hhit).
    rewrite hit_same in Hhit. rewrite (pieces_marks_hit isspace m2 s Hhit).
    rewrite IH.
    now rewrite (take_while_ext _ _ s mark_or_space_same),
                (drop_while_ext _ _ s mark_or_space_same).
Qed.

End SameMarks.

Lemma preserve_line_same (isspace isdigit : char -> bool) (v1 v2 : str)
    (line : str) (num : nat) :
  (forall c, In c v1 <-> In c v2) ->
  _preserve_line isdigit (configured isspace v1) line num =
  _preserve_line isdigit (configured isspace v2) line num.
Proof.
  intros H. unfold _preserve_line. cbn [configured _marks_re]. unfold finditer.
  destruct (escape_digits isdigit line) as [el|e]; [|reflexivity].
  cbn [bind]. rewrite (pieces_same isspace (nodup N.eq_dec v1) (nodup N.eq_dec v2));
    [reflexivity|].
  intros c. apply bool_eq_iff. rewrite !in_marks_nodup. apply H.
Qed.

(** X6. The marks are stored as the set of the characters given: two mark
    strings with the same characters, in any order and with any repetition,
    make [remove] and [preserve] return the same results. *)
Theorem marks_as_a_set (isspace isdigit : char -> bool) (v1 v2 : str) (t : text) :
  (forall c, In c v1 <-> In c v2) ->
  remove isspace (configured isspace v1) t =
  remove isspace (configured isspace v2) t /\
  preserve isdigit (configured isspace v1) t =
  preserve isdigit (configured isspace v2) t.
Proof.
  intros H.
  assert (Hin : forall c, in_marks (nodup N.eq_dec v1) c =
                          in_marks (nodup N.eq_dec v2) c).
  { intros c. apply bool_eq_iff. rewrite !in_marks_nodup. apply H. }
  split.
  - assert (Haux : forall s, remove_aux isspace (configured isspace v1) s =
                             remove_aux isspace (configured isspace v2) s).
    { intros s. unfold remove_aux, re_sub. cbn [configured _marks_re].
      now rewrite (pieces_same isspace _ _ Hin). }
    destruct t as [s|l]; cbn [remove]; f_equal; [apply Haux|].
    apply map_ext. exact Haux.
  - rewrite !preserve_spec. f_equal. f_equal.
    + f_equal. apply flat_map_ext. intros line. unfold line_chunks.
      now rewrite (preserve_line_same isspace isdigit v1 v2 line 0 H).
    + apply flat_map_ext. intros [num line]. unfold line_records. cbn [fst snd].
      now rewrite (preserve_line_same isspace isdigit v1 v2 line num H).
Qed.

(** ** What the chunks hold *)

Lemma lits_not_marks (isspace : char -> bool) (marks : str) :
  forall s x,
    In (Lit x) (pieces (marks_pattern isspace marks) s) ->
    in_marks marks x = false.
Proof.
  intros s. pattern s. apply (mark_scan_ind isspace marks); clear s.
  - intros x [].
  - intros c s Hmiss IH x. rewrite pieces_marks_lit by exact Hmiss.
    intros [E|H]; [|now apply IH]. injection E as <-.
    exact (miss_not_mark isspace marks c s Hmiss).
  - intros s Hhit IH x. rewrite pieces_marks_hit by exact Hhit.
    intros [E|H]; [discriminate | now apply IH].
Qed.

Lemma segs_chars :
  forall ps x,
    In x (fst (segs_of ps)) \/
    (exists gc, In gc (snd (segs_of ps)) /\ In x (snd gc)) ->
    In (Lit x) ps.
Proof.
  induction ps as [|[c|g] ps IH]; intros x H; cbn [segs_of] in H.
  - destruct H as [[]|(gc & [] & _)].
  - destruct (segs_of ps) as [c0 sg]. cbn [fst snd] in *.
    destruct H as [[<-|H]|H]; [now left | right; apply IH; now left
                                | right; apply IH; now right].
  - destruct (segs_of ps) as [c1 sg]. cbn [fst snd] in *. right. apply IH.
    destruct H as [[]|(gc & [<-|Hgc] & Hx)]; [now left|].
    right. now exists gc.
Qed.

(** X7. A chunk returned by [preserve] holds no configured mark, apart from
    the commas and the dots that stand where a placeholder stood before the
    chunk was unescaped. *)
Theorem chunks_hold_no_mark (isspace isdigit : char -> bool) (value : str)
    (t : text) (chunks : list str) (recs : list _MarkIndex)
    (chunk : str) (c : char) :
  preserve isdigit (configured isspace value) t = Ok (chunks, recs) ->
  In chunk chunks -> In c chunk -> In c value ->
  c = COMMA \/ c = DOT.
Proof.
  rewrite preserve_spec. intros [= <- <-] Hchunk Hc Hv.
  apply filter_In in Hchunk as [Hchunk _].
  apply in_flat_map in Hchunk as (line & _ & Hchunk).
  unfold line_chunks in Hchunk.
  destruct (preserve_line_segs isspace isdigit value line 0)
    as (el & _ & _ & Hrun).
  rewrite Hrun in Hchunk. unfold line_result in Hchunk.
  set (ps := pieces (marks_pattern isspace (nodup N.eq_dec value)) el) in *.
  destruct (alone_segs (fst (segs_of ps)) (snd (segs_of ps))); [contradiction|].
  cbn [fst] in Hchunk. apply in_map_iff in Hchunk as (c' & <- & Hc').
  rewrite unescape_map in Hc. apply in_map_iff in Hc as (x & Ex & Hx).
  destruct (chr_eqb HASH x); [now right|].
  destruct (chr_eqb SECTION_SIGN x); [now left|]. subst x. exfalso.
  assert (Hlit : In (Lit c) ps).
  { apply segs_chars. destruct Hc' as [<-|Hc']; [now left|]. right.
    apply in_map_iff in Hc' as (gc & <- & Hgc). now exists gc. }
  apply lits_not_marks in Hlit.
  apply (proj2 (in_marks_nodup value c)) in Hv. congruence.
Qed.

(** ** The records of a text *)

Lemma sorted_block (n : nat) (l1 l2 : list nat) :
  Forall (eq n) l1 -> Forall (le n) l2 -> StronglySorted le l2 ->
  StronglySorted le (l1 ++ l2).
Proof.
  intros H1 H2 Hs. induction H1 as [|x l1 <- H1 IH]; [exact Hs|].
  cbn [app]. constructor; [exact IH|].
  apply Forall_app. split; [|exact H2].
  eapply Forall_impl; [|exact H1]. intros a <-. constructor.
Qed.

Lemma records_sorted (isdigit : char -> bool) (self : Punctuation) :
  forall lines start,
    StronglySorted le
      (map index (flat_map (line_records isdigit self)
                    (combine (seq start (length lines)) lines))) /\
    Forall (le start)
      (map index (flat_map (line_records isdigit self)
                    (combine (seq start (length lines)) lines))).
Proof.
  induction lines as [|line lines IH]; intros start.
  - split; constructor.
  - cbn [length seq combine flat_map]. rewrite map_app.
    destruct (IH (S start)) as [Hs Hle].
    assert (Hhead : Forall (eq start)
                      (map index (line_records isdigit self (start, line)))).
    { apply Forall_forall. intros i Hi. apply in_map_iff in Hi as (r & <- & Hr).
      symmetry. exact (line_records_index isdigit self (start, line) r Hr). }
    assert (Hle' : Forall (le start)
                     (map index (flat_map (line_records isdigit self)
                        (combine (seq (S start) (length lines)) lines)))).
    { eapply Forall_impl; [|exact Hle]. intros a Ha. cbn in Ha. lia. }
    split.
    + now apply (sorted_block start).
    + apply Forall_app. split; [|exact Hle'].
      eapply Forall_impl; [|exact Hhead]. intros a <-. constructor.
Qed.

(** X8. The records returned by [preserve] come in the order of the lines:
    their indices never decrease. *)
Theorem records_in_line_order (isdigit : char -> bool) (self : Punctuation)
    (t : text) (chunks : list str) (recs : list _MarkIndex) :
  preserve isdigit self t = Ok (chunks, recs) ->
  StronglySorted le (map index recs).
Proof.
  rewrite preserve_spec. intros [= _ <-]. unfold enumerate.
  apply (records_sorted isdigit self (str2list t) 0).
Qed.

(** X9. [restore] reads the records in order and only looks at the first
    one left: when its index is behind the current line or past the last
    line, no record is put back; the chunks left are returned as they are,
    followed by one more line made of the texts of all the records left. *)
Theorem restore_out_of_reach (isspace : char -> bool) (m : _MarkIndex)
    (marks : list _MarkIndex) :
  forall (chunks : list str) (num : nat),
    index m < num \/ num + length chunks <= index m ->
    _restore_aux isspace chunks (m :: marks) num =
    Ok (chunks ++ [concat (map mark (m :: marks))]).
Proof.
  induction chunks as [|t0 chunks IH]; intros num H.
  - now rewrite restore_aux_no_text.
  - rewrite restore_aux_cons.
    assert (Hne : (index m =? num) = false).
    { apply Nat.eqb_neq. cbn [length] in H. lia. }
    rewrite Hne, IH; [reflexivity|]. cbn [length] in H. lia.
Qed.

(** ** [preserve] on two texts put end to end *)

Lemma shift_records (isdigit : char -> bool) (self : Punctuation) (k : nat) :
  forall lines start,
    flat_map (line_records isdigit self)
      (combine (seq (k + start) (length lines)) lines) =
    map (shift k)
      (flat_map (line_records isdigit self)
         (combine (seq start (length lines)) lines)).
Proof.
  induction lines as [|line lines IH]; intros start; [reflexivity|].
  cbn [length seq combine flat_map]. rewrite map_app.
  replace (S (k + start)) with (k + S start) by lia. rewrite IH. f_equal.
  unfold line_records. cbn [fst snd].
  destruct (preserve_line_total isdigit self line start) as (chunks & recs & E).
  rewrite (preserve_line_reindex isdigit self line start (k + start) chunks recs E), E.
  apply map_ext_in. intros r Hr. unfold shift, reindex.
  now rewrite (preserve_line_index isdigit self line start chunks recs E r Hr).
Qed.

(** Numbering the lines of two texts put end to end. *)
Lemma numbered_app {A} (xs ys : list A) :
  forall start,
    combine (seq start (length (xs ++ ys))) (xs ++ ys) =
    combine (seq start (length xs)) xs ++
    combine (seq (length xs + start) (length ys)) ys.
Proof.
  induction xs as [|x xs IH]; intros start; [reflexivity|].
  cbn [app length seq combine]. rewrite IH.
  now replace (length xs + S start) with (S (length xs + start)) by lia.
Qed.

(** X10. [preserve] works line by line: for two sequences of lines put end
    to end it returns the chunks of the first followed by those of the
    second, and the records of the first followed by those of the second
    with their indices moved by the number of lines of the first. *)
Theorem preserve_app (isdigit : char -> bool) (self : Punctuation)
    (l1 l2 : list str) (c1 c2 : list str) (r1 r2 : list _MarkIndex) :
  preserve isdigit self (TList l1) = Ok (c1, r1) ->
  preserve isdigit self (TList l2) = Ok (c2, r2) ->
  preserve isdigit self (TList (l1 ++ l2)) =
  Ok (c1 ++ c2, r1 ++ map (shift (length l1)) r2).
Proof.
  rewrite !preserve_spec. cbn [str2list]. intros [= <- <-] [= <- <-].
  rewrite flat_map_app, filter_app. unfold enumerate.
  rewrite numbered_app, flat_map_app.
  now rewrite (shift_records isdigit self (length l1) l2 0).
Qed.

(** ** [remove] and [preserve] on the same text *)

Lemma segs_all_lit (s : str) : segs_of (map Lit s) = (s, []).
Proof.
  induction s as [|c s IH]; [reflexivity|]. cbn [map segs_of]. now rewrite IH.
Qed.

Lemma flat_map_nil {A B} (f : A -> list B) (l : list A) :
  (forall x, In x l -> f x = []) -> flat_map f l = [].
Proof.
  induction l as [|x l IH]; intros H; [reflexivity|].
  cbn [flat_map]. rewrite (H x (or_introl eq_refl)), IH; [reflexivity|].
  intros y Hy. apply H. now right.
Qed.

(** A line without marks brings no record. *)
Lemma line_records_no_mark (isspace isdigit : char -> bool) (value : str)
    (line : str) (num : nat) :
  placeholder_free value ->
  (forall c, In c line -> ~ In c value) ->
  line_records isdigit (configured isspace value) (num, line) = [].
Proof.
  intros [HS HH] Hline. unfold line_records. cbn [fst snd].
  destruct (preserve_line_segs isspace isdigit value line num)
    as (el & _ & HF & ->).
  rewrite no_marks_all_lit, segs_all_lit.
  - cbn [fst snd]. unfold line_result.
    now destruct el.
  - intros b Hb. destruct (Forall2_In_r _ _ _ HF b Hb) as (a & Ha & Hab).
    destruct (in_marks (nodup N.eq_dec value) b) eqn:E; [|reflexivity].
    apply in_marks_nodup in E. exfalso.
    destruct Hab as [<-|[[_ ->]|[_ ->]]]; [now apply (Hline a) | auto | auto].
Qed.

(** X11. When neither the space nor a placeholder is a configured mark,
    [remove] leaves nothing for [preserve] to record: on the text returned
    by [remove], [preserve] returns no record. *)
Theorem preserve_after_remove (isspace isdigit : char -> bool) (value : str)
    (t : text) :
  ~ In SPACE value ->
  placeholder_free value ->
  exists chunks,
    preserve isdigit (configured isspace value)
      (remove isspace (configured isspace value) t) = Ok (chunks, []).
Proof.
  intros Hsp Hval. rewrite preserve_spec. eexists. f_equal. f_equal.
  apply flat_map_nil. intros [num line] Hin.
  apply line_records_no_mark; [exact Hval|].
  intros c Hc Hv.
  assert (Hl : In line (text_lines (remove isspace (configured isspace value) t))).
  { unfold enumerate in Hin. apply in_combine_r in Hin.
    now destruct (remove isspace (configured isspace value) t). }
  apply Hsp.
  rewrite <- (settled_marks_are_spaces isspace (nodup N.eq_dec value) line None
                (remove_settled isspace value t line Hl) c Hc
                (proj2 (in_marks_nodup value c) Hv)).
  exact Hv.
Qed.

Lemma drop_while_all (p : char -> bool) (a b : str) :
  drop_while p a = [] -> drop_while p (a ++ b) = drop_while p b.
Proof.
  induction a as [|x a IH]; cbn [drop_while app]; [reflexivity|].
  destruct (p x); [exact IH | discriminate].
Qed.

Lemma rev_nil_inv {A} (l : list A) : rev l = [] -> l = [].
Proof.
  intros H. apply (f_equal (@rev A)) in H. now rewrite rev_involutive in H.
Qed.

Section StripBoth.

Variable isspace : char -> bool.

Lemma rstrip_cons (x : char) (s : str) :
  rstrip isspace (x :: s) =
  if is_nil (rstrip isspace s)
  then (if isspace x then [] else [x])
  else x :: rstrip isspace s.
Proof.
  unfold rstrip, lstrip. cbn [rev].
  destruct (drop_while isspace (rev s)) as [|y d] eqn:E.
  - rewrite (drop_while_all _ _ _ E). cbn [rev is_nil drop_while].
    now destruct (isspace x).
  - rewrite drop_while_app by (rewrite E; discriminate). rewrite E.
    rewrite rev_app_distr. cbn [rev app].
    destruct (rev d ++ [y]) eqn:E'; [now destruct (rev d)|reflexivity].
Qed.

(** Trimming on the left and on the right, in either order. *)
Lemma strip_either (s : str) :
  strip isspace s = lstrip isspace (rstrip isspace s).
Proof.
  unfold strip. induction s as [|x s IH]; [reflexivity|].
  unfold lstrip at 1. cbn [drop_while]. destruct (isspace x) eqn:Hx.
  - fold (lstrip isspace s). rewrite IH, rstrip_cons, Hx.
    destruct (rstrip isspace s) as [|y r]; [reflexivity|].
    cbn [is_nil]. unfold lstrip. cbn [drop_while]. now rewrite Hx.
  - rewrite rstrip_cons, Hx.
    destruct (rstrip isspace s) as [|y r]; cbn [is_nil]; unfold lstrip;
      cbn [drop_while]; now rewrite Hx.
Qed.

Hypothesis space_is_space : isspace SPACE = true.

Lemma rstrip_space (s : str) : rstrip isspace (s ++ [SPACE]) = rstrip isspace s.
Proof.
  unfold rstrip, lstrip. rewrite rev_app_distr. cbn [rev app drop_while].
  now rewrite space_is_space.
Qed.

Lemma strip_space (s : str) : strip isspace (SPACE :: s) = strip isspace s.
Proof. unfold strip, lstrip. cbn [drop_while]. now rewrite space_is_space. Qed.

Variable marks : str.

(** The chunks after the first, joined by spaces: an empty last chunk
    changes nothing once the text is trimmed on the right. *)
Lemma rstrip_joined :
  forall sg acc,
    tight_segs isspace marks sg ->
    rstrip isspace
      (acc ++ concat (map (fun c => SPACE :: c)
                        (filter nonempty (map snd sg)))) =
    rstrip isspace (acc ++ concat (map (fun gc => SPACE :: snd gc) sg)).
Proof.
  induction sg as [|[g c] sg IH]; intros acc Ht; [reflexivity|].
  cbn [tight_segs] in Ht. destruct Ht as (_ & _ & _ & Hmid & Ht).
  cbn [map snd filter concat]. destruct c as [|y c].
  - destruct sg as [|gc sg]; [|now destruct (Hmid ltac:(discriminate))].
    cbn [nonempty map filter concat]. cbn [app].
    now rewrite app_nil_r, rstrip_space.
  - cbn [nonempty map concat].
    specialize (IH (acc ++ SPACE :: y :: c) Ht).
    rewrite <- !app_assoc in IH. exact IH.
Qed.

Lemma join_spaces (c : str) (l : list str) :
  join [SPACE] (c :: l) = c ++ concat (map (fun c => SPACE :: c) l).
Proof.
  revert c. induction l as [|x l IH]; intros c.
  - cbn. now rewrite app_nil_r.
  - rewrite join_cons by discriminate. now rewrite IH.
Qed.

(** The chunks of a line joined by spaces, and the line with a space for
    each of its mark units, are the same text once trimmed. *)
Lemma strip_joined (c0 : str) (sg : list (str * str)) :
  tight_segs isspace marks sg ->
  strip isspace (join [SPACE] (filter nonempty (c0 :: map snd sg))) =
  strip isspace (c0 ++ concat (map (fun gc => SPACE :: snd gc) sg)).
Proof.
  intros Ht. destruct c0 as [|x c0].
  - cbn [filter nonempty app].
    destruct sg as [|[g c] sg]; [reflexivity|].
    cbn [map snd filter concat]. cbn [app]. rewrite strip_space.
    pose proof (rstrip_joined ((g, c) :: sg) [] Ht) as H.
    cbn [map snd filter concat app] in H.
    destruct c as [|y c].
    + cbn [tight_segs] in Ht. destruct Ht as (_ & _ & _ & Hmid & _).
      destruct sg as [|gc sg]; [|now destruct (Hmid ltac:(discriminate))].
      reflexivity.
    + cbn [nonempty] in *. rewrite join_spaces, !strip_either.
      cbn [tight_segs] in Ht. destruct Ht as (_ & _ & _ & _ & Ht).
      now rewrite (rstrip_joined sg (y :: c) Ht).
  - cbn [filter nonempty]. rewrite join_spaces, !strip_either.
    now rewrite (rstrip_joined sg (x :: c0) Ht).
Qed.

End StripBoth.

Lemma sub_segs (repl : str) :
  forall ps,
    concat (map (render_str repl) ps) =
    fst (segs_of ps) ++ concat (map (fun gc => repl ++ snd gc) (snd (segs_of ps))).
Proof.
  induction ps as [|[c|g] ps IH]; cbn [map concat render_str segs_of];
    [reflexivity| |]; destruct (segs_of ps) as [c0 sg];
    cbn [fst snd map concat app] in *; rewrite IH;
    [reflexivity | now rewrite app_assoc].
Qed.

Lemma unescape_plain (s : str) : placeholder_free s -> unescape s = s.
Proof.
  intros [HS HH]. rewrite unescape_map. induction s as [|c s IH]; [reflexivity|].
  cbn [map]. rewrite IH by (intros H; (apply HS + apply HH); now right).
  f_equal. destruct (chr_eqb HASH c) eqn:E1.
  { apply chr_eqb_eq in E1. elim HH. now left. }
  destruct (chr_eqb SECTION_SIGN c) eqn:E2; [|reflexivity].
  apply chr_eqb_eq in E2. elim HS. now left.
Qed.

Lemma in_flat_segs (sg : list (str * str)) (gc : str * str) (x : char) :
  In gc sg -> In x (snd gc) -> In x (flat_segs (fun c => c) sg).
Proof.
  intros Hgc Hx. unfold flat_segs. apply in_concat.
  exists (fst gc ++ snd gc). split.
  - apply in_map_iff. now exists gc.
  - apply in_or_app. now right.
Qed.

(** X12. On a line with no digit and no placeholder, where the space is a
    whitespace character, [remove] returns the chunks that [preserve]
    returns for the line, joined by single spaces and trimmed. *)
Theorem remove_joins_chunks (isspace isdigit : char -> bool) (value line : str)
    (chunks : list str) (recs : list _MarkIndex) :
  isspace SPACE = true ->
  (forall c, In c line -> isdigit c = false) ->
  placeholder_free line ->
  preserve isdigit (configured isspace value) (TStr line) = Ok (chunks, recs) ->
  remove isspace (configured isspace value) (TStr line) =
  TStr (strip isspace (join [SPACE] chunks)).
Proof.
  intros Hsp Hdig Hplain. rewrite preserve_spec.
  cbn [str2list flat_map]. rewrite app_nil_r. intros [= <- _].
  cbn [remove]. f_equal. unfold remove_aux, re_sub, line_chunks.
  cbn [configured _marks_re].
  destruct (preserve_line_segs isspace isdigit value line 0)
    as (el & Eel & _ & ->).
  rewrite (escape_digits_no_digit isdigit line Hdig) in Eel.
  injection Eel as <-.
  set (ps := pieces (marks_pattern isspace (nodup N.eq_dec value)) line).
  rewrite sub_segs.
  destruct (scan_tight isspace (nodup N.eq_dec value) line) as [Ht _].
  fold ps in Ht.
  assert (Etext : line = fst (segs_of ps) ++ flat_segs (fun c => c) (snd (segs_of ps))).
  { rewrite <- segs_text. unfold ps. now rewrite pieces_text. }
  unfold line_result. cbn [fst].
  destruct (alone_segs (fst (segs_of ps)) (snd (segs_of ps))) eqn:Hal.
  - destruct (fst (segs_of ps)) as [|x c0]; [|discriminate].
    destruct (snd (segs_of ps)) as [|[g c] sg]; [discriminate|].
    destruct c as [|y c]; [|discriminate]. destruct sg; [|discriminate].
    cbn [filter join map concat snd app].
    unfold strip, lstrip. cbn [drop_while]. now rewrite Hsp.
  - assert (Hun : map unescape (fst (segs_of ps) :: map snd (snd (segs_of ps))) =
                  fst (segs_of ps) :: map snd (snd (segs_of ps))).
    { rewrite <- (map_id (fst (segs_of ps) :: map snd (snd (segs_of ps)))) at 2.
      apply map_ext_in. intros c Hc. apply unescape_plain.
      assert (Hsub : forall x, In x c -> In x line).
      { intros x Hx. rewrite Etext. apply in_or_app.
        destruct Hc as [<-|Hc]; [now left|]. right.
        apply in_map_iff in Hc as (gc & <- & Hgc).
        now apply (in_flat_segs _ gc). }
      destruct Hplain as [HS HH]. split; intros H; [apply HS | apply HH];
        now apply Hsub. }
    rewrite Hun. symmetry.
    apply (strip_joined isspace Hsp (nodup N.eq_dec value)). exact Ht.
Qed.

(** ** [restore] on transformed chunks *)

Lemma flat_segs_map (f u : str -> str) (sg : list (str * str)) :
  flat_segs f (map (fun gc => (fst gc, u (snd gc))) sg) =
  flat_segs (fun c => f (u c)) sg.
Proof. unfold flat_segs. now rewrite map_map. Qed.

Lemma seg_records_marks (n : nat) (c0 : str) :
  forall sg first, map mark (seg_records n first c0 sg) = map fst sg.
Proof.
  induction sg as [|[g c] sg IH]; intros first; [reflexivity|].
  cbn [seg_records map mark fst]. now rewrite IH.
Qed.

Lemma filter_map_nonempty (f : str -> str) (l : list str) :
  (forall c, nonempty (f c) = nonempty c) ->
  map f (filter nonempty l) = filter nonempty (map f l).
Proof.
  intros H. induction l as [|c l IH]; [reflexivity|].
  cbn [map filter]. rewrite H. destruct (nonempty c); cbn [map]; now rewrite IH.
Qed.

Section Transformed.

Variable isspace : char -> bool.
Variable marks : str.
Variable f : str -> str.
Hypothesis f_keeps : keeps_chunks isspace f.

Lemma kept_nonempty (c : str) : nonempty (f c) = nonempty c.
Proof.
  destruct f_keeps as [Hnil Hne]. destruct c as [|x c]; [now rewrite Hnil|].
  destruct (Hne (x :: c) ltac:(discriminate)) as [H _].
  now destruct (f (x :: c)).
Qed.

Lemma kept_unescaped_nonempty (c : str) :
  nonempty (f (unescape c)) = nonempty c.
Proof. now rewrite kept_nonempty, unescape_nonempty. Qed.

Lemma kept_trim (a c : str) :
  c <> [] -> rstrip isspace (a ++ f (unescape c)) = a ++ f (unescape c).
Proof.
  intros Hc. destruct f_keeps as [_ Hne].
  assert (Hu : unescape c <> []).
  { intros E. apply (proj1 (unescape_is_nil c)) in E. contradiction. }
  destruct (Hne _ Hu) as [H1 H2].
  rewrite rstrip_app; rewrite H2; [reflexivity | exact H1].
Qed.

(** The transformed chunks of one line and its records, walked by
    [_restore_aux]. *)
Lemma restore_line_kept (c0 : str) (sg : list (str * str)) (n : nat)
    (rest_text : list str) (rest_marks : list _MarkIndex) (r : list str) :
  (forall m, hd_error rest_marks = Some m -> index m <> n) ->
  _restore_aux isspace rest_text rest_marks (n + 1) = Ok r ->
  tight_segs isspace marks sg ->
  (sg <> [] -> no_head (mark_or_space isspace marks) (rev c0)) ->
  alone_segs c0 sg = false ->
  ~ (c0 = [] /\ sg = []) ->
  _restore_aux isspace
    (map f (filter nonempty (map unescape (c0 :: map snd sg))) ++ rest_text)
    (seg_records n true c0 sg ++ rest_marks) n =
  Ok ((f (unescape c0) ++ flat_segs (fun c => f (unescape c)) sg) :: r).
Proof.
  intros Hrest Hr Ht Hc0 Hal Hne.
  rewrite (filter_map_nonempty f) by exact kept_nonempty.
  rewrite map_map.
  rewrite (restore_line isspace marks (fun c => f (unescape c))
             (eq_trans (f_equal f unescape_nil) (proj1 f_keeps))
             kept_unescaped_nonempty
             (fun a c Hc _ => kept_trim a c Hc)
             c0 sg n rest_text rest_marks r Hrest Hr Ht Hc0 Hal Hne).
  do 2 f_equal. destruct c0 as [|x c0]; [|reflexivity].
  destruct sg as [|[g c] sg]; [reflexivity|].
  cbn [restored_line]. rewrite unescape_nil, (proj1 f_keeps). cbn [app].
  unfold flat_segs at 2. cbn [map concat fst snd].
  fold (flat_segs (fun c => f (unescape c)) sg).
  destruct c as [|y c].
  - now rewrite unescape_nil, (proj1 f_keeps), rstrip_nil, app_nil_r.
  - pose proof (kept_trim [] (y :: c) ltac:(discriminate)) as H.
    cbn [app] in H. now rewrite H, <- app_assoc.
Qed.

End Transformed.

(** The part of a line: its chunks unescaped, its units as they are. *)
Lemma part_of_line (isspace isdigit : char -> bool) (value line : str) :
  separators_visible isspace ->
  placeholder_free value ->
  placeholder_free line ->
  exists el c0 sg,
    (forall num,
       _preserve_line isdigit (configured isspace value) line num =
       Ok (line_result num el c0 sg)) /\
    Forall2 escaped_as line el /\
    el = c0 ++ flat_segs (fun c => c) sg /\
    tight_segs isspace (nodup N.eq_dec value) sg /\
    (sg <> [] ->
     no_head (mark_or_space isspace (nodup N.eq_dec value)) (rev c0)) /\
    line = part_text (unescape c0,
                      map (fun gc => (fst gc, unescape (snd gc))) sg).
Proof.
  intros Htab Hval Hline.
  destruct (line_view isspace isdigit value Htab Hval line Hline)
    as (el & c0 & sg & Hrun & HF & Eel & Ht & Hc0 & Etext).
  exists el, c0, sg. repeat split; try assumption.
  unfold part_text. cbn [fst snd]. now rewrite flat_segs_map.
Qed.

(** X13. The use the module is made for: the chunks of a line are
    transformed one by one and handed back to [restore] with the records.
    With the separators and placeholders outside whitespace, no placeholder
    among the marks or in the line, the line is its chunks and its mark
    units in turn, and [restore] returns that line with each chunk replaced
    by its transform and every mark unit where it stood, provided the
    transform of a chunk is not empty and does not end with whitespace. *)
Theorem restore_transformed_line (isspace isdigit : char -> bool)
    (value line : str) :
  separators_visible isspace ->
  placeholder_free value ->
  placeholder_free line ->
  line <> [] ->
  exists chunks recs p,
    preserve isdigit (configured isspace value) (TStr line) = Ok (chunks, recs) /\
    line = part_text p /\
    chunks = filter nonempty (part_chunks p) /\
    map mark recs = part_marks p /\
    forall f, keeps_chunks isspace f ->
      restore isspace (TList (map f chunks)) recs = Ok [part_with f p].
Proof.
  intros Htab Hval Hline Hne.
  destruct (part_of_line isspace isdigit value line Htab Hval Hline)
    as (el & c0 & sg & Hrun & HF & Eel & Ht & Hc0 & Etext).
  rewrite preserve_spec. cbn [str2list flat_map enumerate length seq combine].
  rewrite !app_nil_r. unfold line_chunks, line_records. cbn [fst snd].
  rewrite !Hrun. unfold line_result, restore.
  exists (filter nonempty
            (if alone_segs c0 sg then []
             else map unescape (c0 :: map snd sg))),
         (if alone_segs c0 sg then [MarkIndex 0 el Pos_A]
          else seg_records 0 true c0 sg),
         (unescape c0, map (fun gc => (fst gc, unescape (snd gc))) sg).
  split; [now destruct (alone_segs c0 sg)|]. split; [exact Etext|].
  unfold part_chunks, part_marks, part_with. cbn [fst snd str2list].
  destruct (alone_segs c0 sg) eqn:Hal.
  - destruct c0 as [|x c0]; [|discriminate].
    destruct sg as [|[g c] sg]; [discriminate|].
    destruct c as [|y c]; [|discriminate]. destruct sg; [|discriminate].
    unfold flat_segs in Eel. cbn [map concat fst snd app] in Eel.
    rewrite !app_nil_r in Eel. subst el.
    cbn [map fst snd mark filter]. rewrite unescape_nil. cbn [nonempty].
    repeat split. intros f [Hnil _]. cbn [map]. rewrite restore_aux_no_text.
    unfold flat_segs. cbn [map concat mark fst snd].
    now rewrite Hnil, !app_nil_r.
  - rewrite map_map, seg_records_marks. cbn [map]. rewrite !map_map.
    cbn [fst snd]. repeat split. intros f Hf.
    pose proof (restore_line_kept isspace (nodup N.eq_dec value) f Hf c0 sg 0
                  [] [] [] ltac:(discriminate) eq_refl Ht Hc0 Hal) as Hr.
    rewrite !app_nil_r in Hr. cbn [map] in Hr. rewrite !map_map in Hr.
    rewrite flat_segs_map. apply Hr.
    intros [-> ->]. apply Hne. rewrite Etext. reflexivity.
Qed.

Section TransformedLines.

Variable isspace isdigit : char -> bool.
Variable value : str.

Local Abbreviation marks := (nodup N.eq_dec value).
Local Abbreviation WM := (mark_or_space isspace marks).
Local Abbreviation self := (configured isspace value).

Hypothesis tables : separators_visible isspace.
Hypothesis marks_plain : placeholder_free value.

Lemma lines_transformed :
  forall lines,
    (forall line, In line lines ->
       placeholder_free line /\ exists x, In x line /\ WM x = false) ->
    exists parts,
      Forall2 (fun line p => line = part_text p) lines parts /\
      filter nonempty (flat_map (line_chunks isdigit self) lines) =
      filter nonempty (flat_map part_chunks parts) /\
      (forall start,
         map mark (flat_map (line_records isdigit self)
                     (combine (seq start (length lines)) lines)) =
         flat_map part_marks parts) /\
      forall f, keeps_chunks isspace f ->
        forall start,
          _restore_aux isspace
            (map f (filter nonempty (flat_map (line_chunks isdigit self) lines)))
            (flat_map (line_records isdigit self)
               (combine (seq start (length lines)) lines)) start =
          Ok (map (part_with f) parts).
Proof.
  induction lines as [|line lines IH]; intros Hgood.
  - exists []. repeat split; try reflexivity. constructor.
  - destruct IH as (parts & HF2 & Hchunks & Hmarks & Hrest).
    { intros l Hl. apply Hgood. now right. }
    destruct (Hgood line (or_introl eq_refl)) as (Hplain & x & Hx & Hw).
    destruct (part_of_line isspace isdigit value line tables marks_plain Hplain)
      as (el & c0 & sg & Hrun & HF & Eel & Ht & Hc0 & Etext).
    destruct (escaped_outside isspace value tables marks_plain _ _ _ HF Hx Hw)
      as (b & Hb & Hbw).
    assert (Hal : alone_segs c0 sg = false).
    { destruct (alone_segs c0 sg) eqn:E; [|reflexivity].
      pose proof (alone_is_run isspace value _ _ _ Eel Ht E) as Hall.
      rewrite forallb_forall in Hall. rewrite (Hall _ Hb) in Hbw. discriminate. }
    assert (Hne : ~ (c0 = [] /\ sg = [])).
    { intros [-> ->]. subst el. contradiction. }
    assert (Ech : line_chunks isdigit self line = map unescape (c0 :: map snd sg)).
    { unfold line_chunks. rewrite Hrun. unfold line_result. now rewrite Hal. }
    assert (Erec : forall n, line_records isdigit self (n, line) =
                             seg_records n true c0 sg).
    { intros n. unfold line_records. cbn [fst snd]. rewrite Hrun.
      unfold line_result. now rewrite Hal. }
    exists ((unescape c0, map (fun gc => (fst gc, unescape (snd gc))) sg) :: parts).
    split; [now constructor|]. split; [|split].
    + cbn [flat_map]. rewrite !filter_app, Hchunks, Ech. f_equal.
      unfold part_chunks. cbn [fst snd map]. now rewrite !map_map.
    + intros start. cbn [length seq combine flat_map].
      rewrite map_app, Hmarks, Erec, seg_records_marks.
      unfold part_marks at 2. cbn [snd]. now rewrite map_map.
    + intros f Hf start. cbn [length seq combine flat_map map].
      rewrite filter_app, map_app, Ech, Erec.
      unfold part_with at 1. cbn [fst snd]. rewrite flat_segs_map.
      apply (restore_line_kept isspace marks f Hf); try assumption.
      * intros m Hm. apply hd_error_In in Hm.
        apply in_flat_map in Hm as ([k l'] & Hk & Hm').
        apply line_records_index in Hm'. cbn [fst] in Hm'.
        apply in_enumerate in Hk as [Hk _]. lia.
      * rewrite Nat.add_1_r. now apply Hrest.
Qed.

End TransformedLines.

(** X14. The same for a sequence of lines, each free of placeholders and
    holding a character that is neither whitespace nor a mark: the chunks of
    all the lines, transformed one by one, are put back line by line, every
    mark unit where it stood. *)
Theorem restore_transformed_lines (isspace isdigit : char -> bool)
    (value : str) (lines : list str) :
  separators_visible isspace ->
  placeholder_free value ->
  (forall line, In line lines ->
     placeholder_free line /\
     exists x, In x line /\ isspace x = false /\ ~ In x value) ->
  exists chunks recs parts,
    preserve isdigit (configured isspace value) (TList lines) = Ok (chunks, recs) /\
    Forall2 (fun line p => line = part_text p) lines parts /\
    chunks = filter nonempty (flat_map part_chunks parts) /\
    map mark recs = flat_map part_marks parts /\
    forall f, keeps_chunks isspace f ->
      restore isspace (TList (map f chunks)) recs =
      Ok (map (part_with f) parts).
Proof.
  intros Htab Hval Hgood.
  destruct (lines_transformed isspace isdigit value Htab Hval lines)
    as (parts & HF2 & Hchunks & Hmarks & Hrest).
  { intros line Hl. destruct (Hgood line Hl) as (Hp & x & Hx & Hs & Hm).
    split; [exact Hp|]. exists x. split; [exact Hx|].
    unfold mark_or_space. rewrite Hs. cbn [orb].
    destruct (in_marks (nodup N.eq_dec value) x) eqn:E; [|reflexivity].
    apply in_marks_nodup in E. contradiction. }
  rewrite preserve_spec. cbn [str2list].
  exists (filter nonempty
            (flat_map (line_chunks isdigit (configured isspace value)) lines)),
         (flat_map (line_records isdigit (configured isspace value))
            (enumerate lines)),
         parts.
  split; [reflexivity|]. split; [exact HF2|]. split; [exact Hchunks|].
  split; [apply (Hmarks 0)|].
  intros f Hf. unfold restore. cbn [str2list]. now apply Hrest.
Qed.

(** ** Whitespace around a mark unit *)

Lemma filter_split {A} (P : A -> bool) :
  forall l a x b,
    filter P l = a ++ x :: b ->
    exists a' b', l = a' ++ x :: b' /\ a = filter P a' /\ b = filter P b'.
Proof.
  induction l as [|y l IH]; intros a x b H.
  - destruct a; discriminate.
  - cbn [filter] in H. destruct (P y) eqn:Hy.
    + destruct a as [|z a]; cbn [app] in H; injection H as -> H.
      * exists [], l. cbn [filter app]. now rewrite H.
      * destruct (IH _ _ _ H) as (a' & b' & -> & -> & ->).
        exists (z :: a'), b'. cbn [filter app]. now rewrite Hy.
    + destruct (IH _ _ _ H) as (a' & b' & -> & -> & ->).
      exists (y :: a'), b'. cbn [filter app]. now rewrite Hy.
Qed.

Lemma inner_chunks (isspace : char -> bool) (marks : str) :
  forall sg a c b,
    tight_segs isspace marks sg ->
    map snd sg = a ++ c :: b ->
    no_head (mark_or_space isspace marks) c /\
    (b <> [] -> no_head (mark_or_space isspace marks) (rev c)).
Proof.
  induction sg as [|[g c'] sg IH]; intros a c b Ht H.
  - destruct a; discriminate.
  - cbn [tight_segs] in Ht. destruct Ht as (_ & _ & Hc & Hmid & Ht).
    cbn [map snd] in H. destruct a as [|z a]; cbn [app] in H; injection H as -> H.
    + split; [exact Hc|]. intros Hb. apply Hmid. intros ->.
      cbn [map] in H. now subst b.
    + exact (IH _ _ _ Ht H).
Qed.

(** X15. The whitespace around a mark goes with the mark: of the chunks that
    [preserve] returns for a line, only the first may start with a
    whitespace character and only the last may end with one (the comma and
    the dot not being whitespace). *)
Theorem chunks_end_at_marks (isspace isdigit : char -> bool) (value line : str)
    (chunks : list str) (recs : list _MarkIndex) (a b : list str) (chunk : str) :
  isspace COMMA = false ->
  isspace DOT = false ->
  preserve isdigit (configured isspace value) (TStr line) = Ok (chunks, recs) ->
  chunks = a ++ chunk :: b ->
  (a <> [] -> no_head isspace chunk) /\
  (b <> [] -> no_head isspace (rev chunk)).
Proof.
  intros Hcomma Hdot. rewrite preserve_spec.
  cbn [str2list flat_map]. rewrite app_nil_r. intros [= <- _] Hsplit.
  apply filter_split in Hsplit as (a' & b' & EL & -> & ->).
  unfold line_chunks in EL.
  destruct (preserve_line_segs isspace isdigit value line 0)
    as (el & _ & _ & Hrun).
  rewrite Hrun in EL. unfold line_result in EL.
  set (ps := pieces (marks_pattern isspace (nodup N.eq_dec value)) el) in *.
  destruct (scan_tight isspace (nodup N.eq_dec value) el) as [Ht Hc0].
  fold ps in Ht, Hc0.
  destruct (alone_segs (fst (segs_of ps)) (snd (segs_of ps)));
    cbn [fst] in EL; [destruct a'; discriminate|].
  apply map_eq_app in EL as (a0 & l0 & EL & <- & E0).
  destruct l0 as [|c b0]; [discriminate|]. cbn [map] in E0.
  injection E0 as <- <-.
  assert (Hhead : forall c', no_head (mark_or_space isspace (nodup N.eq_dec value)) c' ->
                             no_head isspace (unescape c'))
    by (intros c'; apply (unescape_head isspace _ Hcomma Hdot)).
  destruct a0 as [|c0 a1]; cbn [app] in EL; injection EL as E1 E2.
  - split; [intros H; now elim H|]. intros Hb. rewrite <- unescape_rev.
    apply Hhead. rewrite <- E1. apply Hc0. intros E. rewrite E in E2.
    cbn [map] in E2. subst b0. now apply Hb.
  - destruct (inner_chunks isspace _ _ _ _ _ Ht E2) as [H1 H2]. split.
    + intros _. now apply Hhead.
    + intros Hb. rewrite <- unescape_rev. apply Hhead. apply H2.
      intros ->. now apply Hb.
Qed.

(** ** Texts made of marks only *)

Lemma take_while_whole (q : char -> bool) (s : str) :
  forallb q s = true -> take_while q s = s /\ drop_while q s = [].
Proof.
  induction s as [|c s IH]; [now split|]. cbn [forallb take_while drop_while].
  intros [Hc Hs]%andb_prop. rewrite Hc. destruct (IH Hs) as [-> ->]. now split.
Qed.

(** A line made of one mark unit brings no chunk and one record. *)
Lemma mark_only_line (isspace isdigit : char -> bool) (value line : str)
    (num : nat) :
  (forall c, isdigit c = true ->
             mark_or_space isspace (nodup N.eq_dec value) c = false) ->
  forallb (mark_or_space isspace (nodup N.eq_dec value)) line = true ->
  has_mark (nodup N.eq_dec value) line = true ->
  _preserve_line isdigit (configured isspace value) line num =
  Ok ([], [MarkIndex num line Pos_A]).
Proof.
  intros Hd Hall Hm.
  assert (Hnd : forall c, In c line -> isdigit c = false).
  { intros c Hc. destruct (isdigit c) eqn:E; [|reflexivity].
    rewrite forallb_forall in Hall. specialize (Hd c E).
    rewrite (Hall c Hc) in Hd. discriminate. }
  destruct (preserve_line_segs isspace isdigit value line num)
    as (el & Eel & _ & ->).
  rewrite (escape_digits_no_digit isdigit line Hnd) in Eel. injection Eel as <-.
  destruct (take_while_whole _ _ Hall) as [Htake Hdrop].
  assert (Hhit : hit isspace (nodup N.eq_dec value) line = true).
  { unfold hit. now rewrite Htake. }
  rewrite (pieces_marks_hit isspace (nodup N.eq_dec value) line Hhit).
  now rewrite Htake, Hdrop.
Qed.

(** X16. A text made only of lines that are one mark unit each (whitespace
    and marks, with a mark; no digit being a mark or whitespace) loses its
    line breaks: [preserve] returns no chunk and one record for each line,
    and [restore] gives back a single line, the lines put end to end. *)
Theorem mark_only_lines_merge (isspace isdigit : char -> bool) (value : str)
    (lines : list str) :
  (forall c, isdigit c = true ->
             mark_or_space isspace (nodup N.eq_dec value) c = false) ->
  lines <> [] ->
  (forall line, In line lines ->
     forallb (mark_or_space isspace (nodup N.eq_dec value)) line = true /\
     has_mark (nodup N.eq_dec value) line = true) ->
  exists recs,
    preserve isdigit (configured isspace value) (TList lines) = Ok ([], recs) /\
    map mark recs = lines /\
    restore isspace (TList []) recs = Ok [concat lines].
Proof.
  intros Hd Hne Hall. rewrite preserve_spec. cbn [str2list].
  assert (Hchunks : flat_map (line_chunks isdigit (configured isspace value)) lines = []).
  { apply flat_map_nil. intros line Hl. destruct (Hall line Hl) as [H1 H2].
    unfold line_chunks. now rewrite (mark_only_line _ _ _ _ 0 Hd H1 H2). }
  assert (Hrecs : forall start,
             map mark (flat_map (line_records isdigit (configured isspace value))
                         (combine (seq start (length lines)) lines)) = lines).
  { clear Hne Hchunks. induction lines as [|line lines IH]; intros start;
      [reflexivity|].
    destruct (Hall line (or_introl eq_refl)) as [H1 H2].
    cbn [length seq combine flat_map]. unfold line_records at 1. cbn [fst snd].
    rewrite (mark_only_line _ _ _ _ start Hd H1 H2). cbn [app map mark].
    rewrite IH; [reflexivity|]. intros l Hl. apply Hall. now right. }
  eexists. rewrite Hchunks. split; [reflexivity|]. split; [apply Hrecs|].
  unfold restore, enumerate. cbn [str2list]. specialize (Hrecs 0).
  destruct (flat_map _ (combine (seq 0 (length lines)) lines)) as [|m ms] eqn:E.
  - cbn [map] in Hrecs. now elim Hne.
  - now rewrite restore_aux_no_text, Hrecs.
Qed.

(** ** Instances of the further properties *)

(** The table of CPython and the ASCII marks used below meet the side
    conditions. *)
Lemma py_separators_visible : separators_visible py_isspace.
Proof. repeat split. Qed.

Ltac no_placeholder :=
  split; vm_compute; intros H;
  repeat (destruct H as [H|H]; [discriminate|]); exact H.

Lemma remove_leaves_no_mark_witness :
  In (u "a b")
     (text_lines (remove py_isspace (configured py_isspace (u ", "))
                    (TStr (u "a,b")))) /\
  In SPACE (u "a b") /\ In SPACE (u ", ") /\ SPACE = SPACE.
Proof.
  assert (H1 : In (u "a b")
                 (text_lines (remove py_isspace (configured py_isspace (u ", "))
                                (TStr (u "a,b")))))
    by (vm_compute; now left).
  assert (H2 : In SPACE (u "a b")) by (vm_compute; tauto).
  assert (H3 : In SPACE (u ", ")) by (vm_compute; tauto).
  split; [exact H1|]. split; [exact H2|]. split; [exact H3|].
  exact (remove_leaves_no_mark py_isspace (u ", ") (TStr (u "a,b")) (u "a b")
           SPACE H1 H2 H3).
Defined.

Lemma remove_is_stripped_witness :
  no_head py_isspace (u "a") /\ no_head py_isspace (rev (u "a")).
Proof.
  apply (remove_is_stripped py_isspace (u "!") (TStr (u " a! ")) (u "a")).
  vm_compute. now left.
Defined.

Lemma remove_without_marks_witness :
  remove py_isspace (configured py_isspace (u "!")) (TStr (u " ab ")) =
  TStr (strip py_isspace (u " ab ")).
Proof.
  apply (remove_without_marks py_isspace (u "!") (u " ab ")).
  intros c Hc Hm. vm_compute in Hc, Hm. destruct Hm as [<-|[]].
  repeat (destruct Hc as [Hc|Hc]; [discriminate|]). exact Hc.
Defined.

Lemma preserve_restore_line_witness :
  exists chunks recs out,
    preserve ascii_isdigit (configured py_isspace (u "!")) (TStr (u "a! b ")) =
    Ok (chunks, recs) /\
    restore py_isspace (TList chunks) recs = Ok out /\
    (u "a! b " = [] -> out = []) /\
    (u "a! b " <> [] ->
     exists l, out = [l] /\ given_back py_isspace (u "a! b ") l).
Proof.
  apply (preserve_restore_line py_isspace ascii_isdigit (u "!") (u "a! b ")).
  - exact py_separators_visible.
  - no_placeholder.
  - no_placeholder.
Defined.

Lemma preserve_restore_lines_witness :
  exists chunks recs out,
    preserve ascii_isdigit (configured py_isspace (u "!"))
      (TList [u "a! b"; u "c"]) = Ok (chunks, recs) /\
    restore py_isspace (TList chunks) recs = Ok out /\
    Forall2 (given_back py_isspace) [u "a! b"; u "c"] out.
Proof.
  apply (preserve_restore_lines py_isspace ascii_isdigit (u "!")
           [u "a! b"; u "c"]).
  - exact py_separators_visible.
  - no_placeholder.
  - intros line [<-|[<-|[]]].
    + split; [no_placeholder|]. exists 97%N.
      split; [now left|]. split; [reflexivity|].
      vm_compute. intros [H|[]]. discriminate.
    + split; [no_placeholder|]. exists 99%N.
      split; [now left|]. split; [reflexivity|].
      vm_compute. intros [H|[]]. discriminate.
Defined.

Lemma marks_as_a_set_witness :
  remove py_isspace (configured py_isspace (u "!?")) (TStr (u "a! b?")) =
  remove py_isspace (configured py_isspace (u "?!!")) (TStr (u "a! b?")) /\
  preserve ascii_isdigit (configured py_isspace (u "!?")) (TStr (u "a! b?")) =
  preserve ascii_isdigit (configured py_isspace (u "?!!")) (TStr (u "a! b?")).
Proof.
  apply (marks_as_a_set py_isspace ascii_isdigit (u "!?") (u "?!!")
           (TStr (u "a! b?"))).
  intros c. vm_compute. tauto.
Defined.

Lemma chunks_hold_no_mark_witness :
  preserve ascii_isdigit (configured py_isspace (u ",")) (TStr (u "3,5")) =
  Ok ([u "3,5"], []) /\
  (COMMA = COMMA \/ COMMA = DOT).
Proof.
  assert (H : preserve ascii_isdigit (configured py_isspace (u ","))
                (TStr (u "3,5")) = Ok ([u "3,5"], []))
    by (vm_compute; reflexivity).
  split; [exact H|].
  apply (chunks_hold_no_mark py_isspace ascii_isdigit (u ",") (TStr (u "3,5"))
           [u "3,5"] [] (u "3,5") COMMA H).
  - now left.
  - vm_compute. tauto.
  - vm_compute. tauto.
Defined.

Lemma records_in_line_order_witness :
  StronglySorted le
    (map index [MarkIndex 0 (u "!") Pos_E; MarkIndex 1 (u "?") Pos_E]).
Proof.
  apply (records_in_line_order ascii_isdigit (configured py_isspace (u "!?"))
           (TList [u "a!"; u "b?"]) [u "a"; u "b"]).
  vm_compute. reflexivity.
Defined.

Lemma restore_out_of_reach_witness :
  _restore_aux py_isspace [u "a"] [MarkIndex 5 (u "!") Pos_E] 0 =
  Ok ([u "a"] ++ [concat (map mark [MarkIndex 5 (u "!") Pos_E])]).
Proof.
  apply (restore_out_of_reach py_isspace (MarkIndex 5 (u "!") Pos_E) []
           [u "a"] 0).
  right. cbn [length index]. lia.
Defined.

Lemma preserve_app_witness :
  preserve ascii_isdigit (configured py_isspace (u "!?"))
    (TList ([u "a!"] ++ [u "b?"])) =
  Ok ([u "a"] ++ [u "b"],
      [MarkIndex 0 (u "!") Pos_E] ++
      map (shift (length [u "a!"])) [MarkIndex 0 (u "?") Pos_E]).
Proof.
  apply (preserve_app ascii_isdigit (configured py_isspace (u "!?"))
           [u "a!"] [u "b?"]); vm_compute; reflexivity.
Defined.

Lemma preserve_after_remove_witness :
  exists chunks,
    preserve ascii_isdigit (configured py_isspace (u "!"))
      (remove py_isspace (configured py_isspace (u "!")) (TStr (u "a! b"))) =
    Ok (chunks, []).
Proof.
  apply (preserve_after_remove py_isspace ascii_isdigit (u "!") (TStr (u "a! b"))).
  - vm_compute. intros [H|[]]. discriminate.
  - no_placeholder.
Defined.

Lemma remove_joins_chunks_witness :
  remove py_isspace (configured py_isspace (u "!")) (TStr (u " a! b ")) =
  TStr (strip py_isspace (join [SPACE] [u " a"; u "b "])).
Proof.
  apply (remove_joins_chunks py_isspace ascii_isdigit (u "!") (u " a! b ")
           [u " a"; u "b "] [MarkIndex 0 (u "! ") Pos_I]).
  - reflexivity.
  - intros c Hc. vm_compute in Hc.
    repeat (destruct Hc as [<-|Hc]; [reflexivity|]). contradiction.
  - no_placeholder.
  - vm_compute. reflexivity.
Defined.

Lemma restore_transformed_line_witness :
  exists chunks recs p,
    preserve ascii_isdigit (configured py_isspace (u "!")) (TStr (u "a! b")) =
    Ok (chunks, recs) /\
    u "a! b" = part_text p /\
    chunks = filter nonempty (part_chunks p) /\
    map mark recs = part_marks p /\
    forall f, keeps_chunks py_isspace f ->
      restore py_isspace (TList (map f chunks)) recs = Ok [part_with f p].
Proof.
  apply (restore_transformed_line py_isspace ascii_isdigit (u "!") (u "a! b")).
  - exact py_separators_visible.
  - no_placeholder.
  - no_placeholder.
  - discriminate.
Defined.

Lemma restore_transformed_lines_witness :
  exists chunks recs parts,
    preserve ascii_isdigit (configured py_isspace (u "!"))
      (TList [u "a! b"; u "c"]) = Ok (chunks, recs) /\
    Forall2 (fun line p => line = part_text p) [u "a! b"; u "c"] parts /\
    chunks = filter nonempty (flat_map part_chunks parts) /\
    map mark recs = flat_map part_marks parts /\
    forall f, keeps_chunks py_isspace f ->
      restore py_isspace (TList (map f chunks)) recs =
      Ok (map (part_with f) parts).
Proof.
  apply (restore_transformed_lines py_isspace ascii_isdigit (u "!")
           [u "a! b"; u "c"]).
  - exact py_separators_visible.
  - no_placeholder.
  - intros line [<-|[<-|[]]].
    + split; [no_placeholder|]. exists 97%N.
      split; [now left|]. split; [reflexivity|].
      vm_compute. intros [H|[]]. discriminate.
    + split; [no_placeholder|]. exists 99%N.
      split; [now left|]. split; [reflexivity|].
      vm_compute. intros [H|[]]. discriminate.
Defined.

Lemma chunks_end_at_marks_witness :
  ([u "a"] <> [] -> no_head py_isspace (u "b")) /\
  (@nil str <> [] -> no_head py_isspace (rev (u "b"))).
Proof.
  apply (chunks_end_at_marks py_isspace ascii_isdigit (u "!") (u "a ! b")
           [u "a"; u "b"] [MarkIndex 0 (u " ! ") Pos_I] [u "a"] [] (u "b")).
  - reflexivity.
  - reflexivity.
  - vm_compute. reflexivity.
  - reflexivity.
Defined.

Lemma mark_only_lines_merge_witness :
  exists recs,
    preserve ascii_isdigit (configured py_isspace (u "!?"))
      (TList [u "!"; u "? !"]) = Ok ([], recs) /\
    map mark recs = [u "!"; u "? !"] /\
    restore py_isspace (TList []) recs = Ok [concat [u "!"; u "? !"]].
Proof.
  apply (mark_only_lines_merge py_isspace ascii_isdigit (u "!?")
           [u "!"; u "? !"]).
  - intros c Hc. unfold ascii_isdigit in Hc.
    apply andb_prop in Hc as [H1 H2].
    apply N.leb_le in H1. apply N.leb_le in H2.
    unfold mark_or_space, py_isspace, in_marks. cbn [nodup existsb].
    vm_compute nodup. cbn [existsb]. unfold chr_eqb.
    repeat match goal with
           | |- context [(?a <=? c)%N] =>
               destruct (N.leb_spec a c); try lia
           | |- context [(c <=? ?a)%N] =>
               destruct (N.leb_spec c a); try lia
           | |- context [(c =? ?a)%N] =>
               destruct (N.eqb_spec c a); try lia
           end; reflexivity.
  - discriminate.
  - intros line [<-|[<-|[]]]; split; vm_compute; reflexivity.
Defined.
